(** * Bounded worker pool (package cc): an interleaving model and its properties

    The Go package [cc] is a single file, [cc.go]: a [Pool] struct with an
    unbuffered [Errors] channel, a buffered [semaphore] channel and a
    [*sync.WaitGroup]; a constructor [New]; and two methods, [Wait] and
    [Run], each of which starts a goroutine.

    The development is a shallow embedding: channels, wait groups and
    goroutines are explicit components of a [world]; every statement of the
    two goroutine bodies is one atomic transition; a schedule is a list of
    [event]s and [exec] replays it.  All properties are stated over every
    schedule, that is, over every interleaving. *)

From Stdlib Require Import ZArith Lia.
From stdpp Require Import base tactics option list numbers strings.

(** ** The Go runtime objects the package uses *)

Module GoRuntime.

(** A channel: its capacity, the values parked in its buffer (oldest
    first) and whether it has been closed. *)
Record chan (A : Type) : Type := Chan {
  cap : Z;
  buf : list A;
  closed : bool
}.
Arguments Chan {A} _ _ _.
Arguments cap {A} _.
Arguments buf {A} _.
Arguments closed {A} _.

(** [make(chan T, size)]; a negative size panics
    ("makechan: size out of range"), reported here as [None].  (The
    run time also refuses sizes beyond the memory it can allocate; the
    model has no such bound.) *)
Definition make_chan {A : Type} (size : Z) : option (chan A) :=
  if (size <? 0)%Z then None else Some (Chan size [] false).

(** The outcome of a send attempted by one goroutine on its own. *)
Inductive send_result (A : Type) : Type :=
  | SendDone (c : chan A)   (* the value went into the buffer *)
  | SendBlocks              (* no room: the sender must wait for a receiver *)
  | SendPanics.             (* send on closed channel *)
Arguments SendDone {A} _.
Arguments SendBlocks {A}.
Arguments SendPanics {A}.

Definition chan_send {A : Type} (c : chan A) (v : A) : send_result A :=
  if closed c then SendPanics
  else if (Z.of_nat (length (buf c)) <? cap c)%Z
       then SendDone (Chan (cap c) (buf c ++ [v]) (closed c))
       else SendBlocks.

(** The outcome of a receive attempted by one goroutine on its own. *)
Inductive recv_result (A : Type) : Type :=
  | RecvValue (v : A) (c : chan A)  (* a parked value is taken *)
  | RecvClosed                      (* closed and drained: zero value, ok = false *)
  | RecvBlocks.                     (* empty and open: the receiver must wait *)
Arguments RecvValue {A} _ _.
Arguments RecvClosed {A}.
Arguments RecvBlocks {A}.

Definition chan_recv {A : Type} (c : chan A) : recv_result A :=
  match buf c with
  | v :: rest => RecvValue v (Chan (cap c) rest (closed c))
  | [] => if closed c then RecvClosed else RecvBlocks
  end.

(** A waiting sender and a waiting receiver meet: the value passes from
    one to the other without touching the buffer.  This is possible
    exactly when each of them, alone, would have to wait. *)
Definition chan_rendezvous {A : Type} (c : chan A) (v : A) : bool :=
  match chan_send c v, chan_recv c with
  | SendBlocks, RecvBlocks => true
  | _, _ => false
  end.

(** [close(c)]; closing a closed channel panics, reported as [None]. *)
Definition chan_close {A : Type} (c : chan A) : option (chan A) :=
  if closed c then None else Some (Chan (cap c) (buf c) true).

(** [sync.WaitGroup]: a counter.  [Add] panics when the counter would
    become negative; [Wait] returns only when the counter is zero.  This
    is the documented contract of the type.  The checks by which the
    implementation detects its own misuse (an [Add] that races with a
    [Wait] which has just been released) are not modelled. *)
Abbreviation WaitGroup := Z (only parsing).

Definition WaitGroup_Add (n : WaitGroup) (delta : Z) : option WaitGroup :=
  if (n + delta <? 0)%Z then None else Some (n + delta)%Z.

Definition WaitGroup_ready (n : WaitGroup) : bool := (n =? 0)%Z.

End GoRuntime.
Export GoRuntime.

(** ** The data of package cc *)

(** A Go [error] value; [None] is [nil]. *)
Abbreviation error := (option string) (only parsing).

(** A unit of work [fn func()].  The pool never looks inside it; all that
    matters to the pool is the sequence of values [fn] sends on
    [p.Errors] before it returns.  A unit is modelled by that sequence:
    it may send no value, one, or several.  Units that never return, that
    panic, or that call [Run] or [Wait] themselves are outside the
    model. *)
Abbreviation func := (list (option string)) (only parsing).

Abbreviation loc := nat (only parsing).

(** [type Pool struct]: each field is a reference to an object in the
    store. *)
Record Pool : Type := {
  Errors : loc;
  semaphore : loc;
  wg : loc
}.

#[global] Instance Pool_eq_dec : EqDecision Pool.
Proof. solve_decision. Defined.

(** Program points of the two goroutine bodies. *)
Inductive pc : Type :=
  | Run_acquire (fn : func)   (* p.semaphore <- true *)
  | Run_body (rest : func)    (* fn(), with the sends it still has to do *)
  | Run_release               (* deferred: <-p.semaphore *)
  | Run_done                  (* deferred: p.wg.Done() *)
  | Run_exit
  | Wait_wg                   (* p.wg.Wait() *)
  | Wait_closeErrors          (* close(p.Errors) *)
  | Wait_closeSemaphore       (* close(p.semaphore) *)
  | Wait_exit.

Record goroutine : Type := {
  g_pool : Pool;   (* the captured receiver p *)
  g_pc : pc
}.

(** What a consumer of [p.Errors] sees at one receive. *)
Inductive received : Type :=
  | Got (v : error)
  | Closed.

Record world : Type := {
  chans_error : list (chan error);
  chans_bool : list (chan bool);
  waitgroups : list WaitGroup;
  goroutines : list goroutine;
  pools : list Pool;                  (* the values New has returned *)
  inbox : list (loc * received);      (* what consumers received, oldest first *)
  panicked : bool
}.

Definition empty_world : world :=
  {| chans_error := []; chans_bool := []; waitgroups := []; goroutines := [];
     pools := []; inbox := []; panicked := false |}.

Definition with_chans_error (f : list (chan error) → list (chan error)) (w : world) : world :=
  {| chans_error := f (chans_error w); chans_bool := chans_bool w;
     waitgroups := waitgroups w; goroutines := goroutines w; pools := pools w;
     inbox := inbox w; panicked := panicked w |}.

Definition with_chans_bool (f : list (chan bool) → list (chan bool)) (w : world) : world :=
  {| chans_error := chans_error w; chans_bool := f (chans_bool w);
     waitgroups := waitgroups w; goroutines := goroutines w; pools := pools w;
     inbox := inbox w; panicked := panicked w |}.

Definition with_waitgroups (f : list WaitGroup → list WaitGroup) (w : world) : world :=
  {| chans_error := chans_error w; chans_bool := chans_bool w;
     waitgroups := f (waitgroups w); goroutines := goroutines w; pools := pools w;
     inbox := inbox w; panicked := panicked w |}.

Definition with_goroutines (f : list goroutine → list goroutine) (w : world) : world :=
  {| chans_error := chans_error w; chans_bool := chans_bool w;
     waitgroups := waitgroups w; goroutines := f (goroutines w); pools := pools w;
     inbox := inbox w; panicked := panicked w |}.

Definition with_pools (f : list Pool → list Pool) (w : world) : world :=
  {| chans_error := chans_error w; chans_bool := chans_bool w;
     waitgroups := waitgroups w; goroutines := goroutines w; pools := f (pools w);
     inbox := inbox w; panicked := panicked w |}.

Definition with_inbox (f : list (loc * received) → list (loc * received)) (w : world) : world :=
  {| chans_error := chans_error w; chans_bool := chans_bool w;
     waitgroups := waitgroups w; goroutines := goroutines w; pools := pools w;
     inbox := f (inbox w); panicked := panicked w |}.

Definition crashed (w : world) : world :=
  {| chans_error := chans_error w; chans_bool := chans_bool w;
     waitgroups := waitgroups w; goroutines := goroutines w; pools := pools w;
     inbox := inbox w; panicked := true |}.

(** ** A monad for statements: state, panic, and blocking *)

Inductive outcome (A : Type) : Type :=
  | Returns (a : A) (w : world)
  | Panics (w : world)
  | Blocks.
Arguments Returns {A} _ _.
Arguments Panics {A} _.
Arguments Blocks {A}.

Definition M (A : Type) : Type := world → outcome A.

#[global] Instance M_ret : MRet M := λ A a w, Returns a w.
#[global] Instance M_bind : MBind M := λ A B f m w,
  match m w with
  | Returns a w' => f a w'
  | Panics w' => Panics w'
  | Blocks => Blocks
  end.

Definition panic {A : Type} : M A := λ w, Panics (crashed w).
Definition block {A : Type} : M A := λ _, Blocks.

(** *** Store operations *)

(** [sync.WaitGroup{}] *)
Definition new_WaitGroup : M loc := λ w,
  Returns (length (waitgroups w)) (with_waitgroups (λ s, s ++ [0%Z]) w).

(** [make(chan error, size)] *)
Definition make_error_chan (size : Z) : M loc := λ w,
  match make_chan size with
  | Some c => Returns (length (chans_error w)) (with_chans_error (λ s, s ++ [c]) w)
  | None => panic w
  end.

(** [make(chan bool, size)] *)
Definition make_bool_chan (size : Z) : M loc := λ w,
  match make_chan size with
  | Some c => Returns (length (chans_bool w)) (with_chans_bool (λ s, s ++ [c]) w)
  | None => panic w
  end.

(** A reference that designates no channel behaves as Go's nil channel:
    send and receive wait forever, close panics.  A reference that
    designates no wait group is a nil pointer: using it panics. *)

(** [l <- v] on a [chan error] *)
Definition send_error (l : loc) (v : error) : M () := λ w,
  match chans_error w !! l with
  | Some c =>
      match chan_send c v with
      | SendDone c' => Returns () (with_chans_error (λ s, <[l := c']> s) w)
      | SendBlocks => Blocks
      | SendPanics => panic w
      end
  | None => Blocks
  end.

(** [<-l] on a [chan error] *)
Definition recv_error (l : loc) : M received := λ w,
  match chans_error w !! l with
  | Some c =>
      match chan_recv c with
      | RecvValue v c' => Returns (Got v) (with_chans_error (λ s, <[l := c']> s) w)
      | RecvClosed => Returns Closed w
      | RecvBlocks => Blocks
      end
  | None => Blocks
  end.

(** [close(l)] on a [chan error] *)
Definition close_error (l : loc) : M () := λ w,
  match chans_error w !! l with
  | Some c =>
      match chan_close c with
      | Some c' => Returns () (with_chans_error (λ s, <[l := c']> s) w)
      | None => panic w
      end
  | None => panic w
  end.

(** [l <- b] on a [chan bool] *)
Definition send_bool (l : loc) (b : bool) : M () := λ w,
  match chans_bool w !! l with
  | Some c =>
      match chan_send c b with
      | SendDone c' => Returns () (with_chans_bool (λ s, <[l := c']> s) w)
      | SendBlocks => Blocks
      | SendPanics => panic w
      end
  | None => Blocks
  end.

(** [<-l] on a [chan bool]; the value received is discarded by the caller *)
Definition recv_bool (l : loc) : M () := λ w,
  match chans_bool w !! l with
  | Some c =>
      match chan_recv c with
      | RecvValue _ c' => Returns () (with_chans_bool (λ s, <[l := c']> s) w)
      | RecvClosed => Returns () w
      | RecvBlocks => Blocks
      end
  | None => Blocks
  end.

(** [close(l)] on a [chan bool] *)
Definition close_bool (l : loc) : M () := λ w,
  match chans_bool w !! l with
  | Some c =>
      match chan_close c with
      | Some c' => Returns () (with_chans_bool (λ s, <[l := c']> s) w)
      | None => panic w
      end
  | None => panic w
  end.

(** [l.Add(delta)] *)
Definition wg_Add (l : loc) (delta : Z) : M () := λ w,
  match waitgroups w !! l with
  | Some n =>
      match WaitGroup_Add n delta with
      | Some n' => Returns () (with_waitgroups (λ s, <[l := n']> s) w)
      | None => panic w
      end
  | None => panic w
  end.

(** [l.Done()] is [l.Add(-1)] *)
Definition wg_Done (l : loc) : M () := wg_Add l (-1).

(** [l.Wait()] *)
Definition wg_Wait (l : loc) : M () := λ w,
  match waitgroups w !! l with
  | Some n => if WaitGroup_ready n then Returns () w else Blocks
  | None => panic w
  end.

(** [go func() { ... }()]: a new goroutine, about to execute [entry], with
    the receiver [p] captured. *)
Definition go (p : Pool) (entry : pc) : M () := λ w,
  Returns () (with_goroutines (λ s, s ++ [{| g_pool := p; g_pc := entry |}]) w).

(** The pool leaves its constructor: from here on callers may name it.
    (Bookkeeping only; Go has no such step.) *)
Definition publish (p : Pool) : M Pool := λ w,
  Returns p (with_pools (λ s, s ++ [p]) w).

(** ** The package *)

(** [func New(concurrency int) *Pool].  The wait group is made first, then
    the fields of the struct literal in the order they are written. *)
Definition New (concurrency : Z) : M Pool :=
  wg ← new_WaitGroup;
  e ← make_error_chan 0;
  s ← make_bool_chan concurrency;
  publish {| Errors := e; semaphore := s; wg := wg |}.

(** [func (p *Pool) Wait()] *)
Definition Wait (p : Pool) : M () :=
  go p Wait_wg.

(** [func (p *Pool) Run(fn func())].  A call of [Run] is one event of a
    schedule: between its two statements nothing another goroutine does
    can tell whether the new goroutine already exists, since a goroutine
    that has not yet run its first statement has no effect. *)
Definition Run (p : Pool) (fn : func) : M () :=
  wg_Add (wg p) 1;;
  go p (Run_acquire fn).

(** One statement of a goroutine body, executed by the goroutine on its
    own; the result is the next program point. *)
Definition stmt (p : Pool) (at_ : pc) : M pc :=
  match at_ with
  | Run_acquire fn => send_bool (semaphore p) true;; mret (Run_body fn)
  | Run_body (v :: rest) => send_error (Errors p) v;; mret (Run_body rest)
  | Run_body [] => mret Run_release
  | Run_release => recv_bool (semaphore p);; mret Run_done
  | Run_done => wg_Done (wg p);; mret Run_exit
  | Run_exit => block
  | Wait_wg => wg_Wait (wg p);; mret Wait_closeErrors
  | Wait_closeErrors => close_error (Errors p);; mret Wait_closeSemaphore
  | Wait_closeSemaphore => close_bool (semaphore p);; mret Wait_exit
  | Wait_exit => block
  end.

(** ** Schedules *)

Inductive event : Type :=
  | CallNew (concurrency : Z)       (* some caller runs New(concurrency) *)
  | CallRun (p : Pool) (fn : func)  (* some caller runs p.Run(fn) *)
  | CallWait (p : Pool)             (* some caller runs p.Wait() *)
  | Go (i : nat)                    (* goroutine i executes its statement alone *)
  | Handoff (i j : nat)             (* i's send on the semaphore meets j's receive *)
  | Deliver (i : nat)               (* i's send on Errors meets a consumer's receive *)
  | Recv (p : Pool).                (* a consumer's receive on p.Errors completes alone *)

Definition set_pc (i : nat) (at_ : pc) (w : world) : world :=
  with_goroutines (alter (λ g, {| g_pool := g_pool g; g_pc := at_ |}) i) w.

Definition note (l : loc) (r : received) (w : world) : world :=
  with_inbox (λ s, s ++ [(l, r)]) w.

Definition settle {A : Type} (o : outcome A) (k : A → world → world) : option world :=
  match o with
  | Returns a w => Some (k a w)
  | Panics w => Some w
  | Blocks => None
  end.

Definition handoff (i j : nat) (w : world) : option world :=
  gi ← goroutines w !! i;
  gj ← goroutines w !! j;
  match g_pc gi, g_pc gj with
  | Run_acquire fn, Run_release =>
      if bool_decide (semaphore (g_pool gi) = semaphore (g_pool gj)) then
        c ← chans_bool w !! semaphore (g_pool gi);
        if chan_rendezvous c true
        then Some (set_pc j Run_done (set_pc i (Run_body fn) w))
        else None
      else None
  | _, _ => None
  end.

Definition deliver (i : nat) (w : world) : option world :=
  gi ← goroutines w !! i;
  match g_pc gi with
  | Run_body (v :: rest) =>
      c ← chans_error w !! Errors (g_pool gi);
      if chan_rendezvous c v
      then Some (note (Errors (g_pool gi)) (Got v) (set_pc i (Run_body rest) w))
      else None
  | _ => None
  end.

(** A panic in any goroutine ends the program: nothing runs afterwards. *)
Definition step (e : event) (w : world) : option world :=
  if panicked w then None else
  match e with
  | CallNew c => settle (New c w) (λ _ w', w')
  | CallRun p fn =>
      if bool_decide (p ∈ pools w) then settle (Run p fn w) (λ _ w', w') else None
  | CallWait p =>
      if bool_decide (p ∈ pools w) then settle (Wait p w) (λ _ w', w') else None
  | Go i =>
      g ← goroutines w !! i;
      settle (stmt (g_pool g) (g_pc g) w) (set_pc i)
  | Handoff i j => handoff i j w
  | Deliver i => deliver i w
  | Recv p =>
      if bool_decide (p ∈ pools w)
      then settle (recv_error (Errors p) w) (note (Errors p))
      else None
  end.

Fixpoint exec (tr : list event) (w : world) : option world :=
  match tr with
  | [] => Some w
  | e :: tr' =>
      match step e w with
      | Some w' => exec tr' w'
      | None => None
      end
  end.

Definition reachable (w : world) : Prop :=
  ∃ tr, exec tr empty_world = Some w.

Definition P0 : Pool := {| Errors := 0; semaphore := 0; wg := 0 |}.

(** ** What one step can be

    [moves w e w'] lists, case by case, the worlds [step e w] can produce.
    It is derived from [step] (lemma [step_moves]); the proofs of the
    invariants go by cases on it. *)

Definition spawn (p : Pool) (entry : pc) (w : world) : world :=
  with_goroutines (λ s, s ++ [{| g_pool := p; g_pc := entry |}]) w.

Definition put_bool (l : loc) (c : chan bool) (w : world) : world :=
  with_chans_bool (λ s, <[l := c]> s) w.

Definition put_error (l : loc) (c : chan error) (w : world) : world :=
  with_chans_error (λ s, <[l := c]> s) w.

Definition put_wg (l : loc) (n : WaitGroup) (w : world) : world :=
  with_waitgroups (λ s, <[l := n]> s) w.

Definition at_pc (w : world) (i : nat) (p : Pool) (a : pc) : Prop :=
  goroutines w !! i = Some {| g_pool := p; g_pc := a |}.

(** The ways in which a statement panics. *)
Definition wg_add_panics (w : world) (l : loc) (delta : Z) : Prop :=
  match waitgroups w !! l with
  | Some n => (n + delta < 0)%Z
  | None => True
  end.

Definition close_panics {A : Type} (s : list (chan A)) (l : loc) : Prop :=
  match s !! l with
  | Some c => closed c = true
  | None => True
  end.

Inductive panic_cause (w : world) : event → Prop :=
  | pn_run p fn :
      p ∈ pools w → wg_add_panics w (wg p) 1 →
      panic_cause w (CallRun p fn)
  | pn_acquire i p fn c :
      at_pc w i p (Run_acquire fn) →
      chans_bool w !! semaphore p = Some c → closed c = true →
      panic_cause w (Go i)
  | pn_push i p v rest c :
      at_pc w i p (Run_body (v :: rest)) →
      chans_error w !! Errors p = Some c → closed c = true →
      panic_cause w (Go i)
  | pn_done i p :
      at_pc w i p Run_done → wg_add_panics w (wg p) (-1) →
      panic_cause w (Go i)
  | pn_barrier i p :
      at_pc w i p Wait_wg → waitgroups w !! wg p = None →
      panic_cause w (Go i)
  | pn_closeErrors i p :
      at_pc w i p Wait_closeErrors → close_panics (chans_error w) (Errors p) →
      panic_cause w (Go i)
  | pn_closeSemaphore i p :
      at_pc w i p Wait_closeSemaphore → close_panics (chans_bool w) (semaphore p) →
      panic_cause w (Go i).

Inductive moves (w : world) : event → world → Prop :=
  | m_panic e :
      panic_cause w e →
      moves w e (crashed w)
  | m_new_panic c :
      (c < 0)%Z →
      moves w (CallNew c)
        (crashed (with_chans_error (λ s, s ++ [Chan 0 [] false])
                    (with_waitgroups (λ s, s ++ [0%Z]) w)))
  | m_new c :
      (0 ≤ c)%Z →
      moves w (CallNew c)
        (with_pools (λ s, s ++ [{| Errors := length (chans_error w);
                                   semaphore := length (chans_bool w);
                                   wg := length (waitgroups w) |}])
           (with_chans_bool (λ s, s ++ [Chan c [] false])
              (with_chans_error (λ s, s ++ [Chan 0 [] false])
                 (with_waitgroups (λ s, s ++ [0%Z]) w))))
  | m_run p fn n :
      p ∈ pools w →
      waitgroups w !! wg p = Some n →
      (0 ≤ n + 1)%Z →
      moves w (CallRun p fn) (spawn p (Run_acquire fn) (put_wg (wg p) (n + 1)%Z w))
  | m_wait p :
      p ∈ pools w →
      moves w (CallWait p) (spawn p Wait_wg w)
  | m_acquire i p fn c :
      at_pc w i p (Run_acquire fn) →
      chans_bool w !! semaphore p = Some c →
      closed c = false →
      (Z.of_nat (length (buf c)) < cap c)%Z →
      moves w (Go i)
        (set_pc i (Run_body fn)
           (put_bool (semaphore p) (Chan (cap c) (buf c ++ [true]) (closed c)) w))
  | m_push i p v rest c :
      at_pc w i p (Run_body (v :: rest)) →
      chans_error w !! Errors p = Some c →
      closed c = false →
      (Z.of_nat (length (buf c)) < cap c)%Z →
      moves w (Go i)
        (set_pc i (Run_body rest)
           (put_error (Errors p) (Chan (cap c) (buf c ++ [v]) (closed c)) w))
  | m_return i p :
      at_pc w i p (Run_body []) →
      moves w (Go i) (set_pc i Run_release w)
  | m_release i p c b rest :
      at_pc w i p Run_release →
      chans_bool w !! semaphore p = Some c →
      buf c = b :: rest →
      moves w (Go i)
        (set_pc i Run_done (put_bool (semaphore p) (Chan (cap c) rest (closed c)) w))
  | m_release_closed i p c :
      at_pc w i p Run_release →
      chans_bool w !! semaphore p = Some c →
      buf c = [] →
      closed c = true →
      moves w (Go i) (set_pc i Run_done w)
  | m_done i p n :
      at_pc w i p Run_done →
      waitgroups w !! wg p = Some n →
      (0 ≤ n + -1)%Z →
      moves w (Go i) (set_pc i Run_exit (put_wg (wg p) (n + -1)%Z w))
  | m_barrier i p :
      at_pc w i p Wait_wg →
      waitgroups w !! wg p = Some 0%Z →
      moves w (Go i) (set_pc i Wait_closeErrors w)
  | m_closeErrors i p c :
      at_pc w i p Wait_closeErrors →
      chans_error w !! Errors p = Some c →
      closed c = false →
      moves w (Go i)
        (set_pc i Wait_closeSemaphore (put_error (Errors p) (Chan (cap c) (buf c) true) w))
  | m_closeSemaphore i p c :
      at_pc w i p Wait_closeSemaphore →
      chans_bool w !! semaphore p = Some c →
      closed c = false →
      moves w (Go i)
        (set_pc i Wait_exit (put_bool (semaphore p) (Chan (cap c) (buf c) true) w))
  | m_handoff i j p q fn c :
      at_pc w i p (Run_acquire fn) →
      at_pc w j q Run_release →
      semaphore p = semaphore q →
      chans_bool w !! semaphore p = Some c →
      closed c = false →
      buf c = [] →
      (cap c ≤ 0)%Z →
      moves w (Handoff i j) (set_pc j Run_done (set_pc i (Run_body fn) w))
  | m_deliver i p v rest c :
      at_pc w i p (Run_body (v :: rest)) →
      chans_error w !! Errors p = Some c →
      closed c = false →
      buf c = [] →
      (cap c ≤ 0)%Z →
      moves w (Deliver i) (note (Errors p) (Got v) (set_pc i (Run_body rest) w))
  | m_recv p c v rest :
      p ∈ pools w →
      chans_error w !! Errors p = Some c →
      buf c = v :: rest →
      moves w (Recv p)
        (note (Errors p) (Got v) (put_error (Errors p) (Chan (cap c) rest (closed c)) w))
  | m_recv_closed p c :
      p ∈ pools w →
      chans_error w !! Errors p = Some c →
      buf c = [] →
      closed c = true →
      moves w (Recv p) (note (Errors p) Closed w).

(** ** Counting goroutines *)

(** Between the completed send on the semaphore and the completed receive
    from it, a goroutine holds a permit: it is inside [fn()] or has left
    it and not yet run the deferred receive. *)
Definition holds_permit (a : pc) : bool :=
  match a with
  | Run_body _ | Run_release => true
  | _ => false
  end.

(** A goroutine started by [Run] that has not yet executed [p.wg.Done()]. *)
Definition outstanding (a : pc) : bool :=
  match a with
  | Run_acquire _ | Run_body _ | Run_release | Run_done => true
  | _ => false
  end.

(** A goroutine started by [Wait] that has executed [close(p.Errors)]. *)
Definition has_closed_Errors (a : pc) : bool :=
  match a with
  | Wait_closeSemaphore | Wait_exit => true
  | _ => false
  end.

(** A goroutine started by [Wait] that has executed [close(p.semaphore)]. *)
Definition has_closed_semaphore (a : pc) : bool :=
  match a with
  | Wait_exit => true
  | _ => false
  end.

Definition counts (P : pc → bool) (p : Pool) (g : goroutine) : nat :=
  if bool_decide (g_pool g = p) && P (g_pc g) then 1 else 0.

(** The number of goroutines of pool [p] whose program point satisfies [P]. *)
Fixpoint tally (P : pc → bool) (p : Pool) (gs : list goroutine) : nat :=
  match gs with
  | [] => 0
  | g :: gs' => counts P p g + tally P p gs'
  end.

(** The number of units of pool [p] executing their body. *)
Definition executing (p : Pool) (w : world) : nat :=
  tally holds_permit p (goroutines w).

(** ** Invariants *)

Record pool_ok (w : world) (p : Pool) : Prop := {
  ok_Errors : ∃ c, chans_error w !! Errors p = Some c
      ∧ cap c = 0%Z ∧ buf c = []
      ∧ Nat.b2n (closed c) = tally has_closed_Errors p (goroutines w);
  ok_semaphore : ∃ c, chans_bool w !! semaphore p = Some c
      ∧ (0 ≤ cap c)%Z
      ∧ length (buf c) = tally holds_permit p (goroutines w)
      ∧ (Z.of_nat (length (buf c)) ≤ cap c)%Z
      ∧ Nat.b2n (closed c) = tally has_closed_semaphore p (goroutines w);
  ok_wg : waitgroups w !! wg p = Some (Z.of_nat (tally outstanding p (goroutines w)))
}.

Record world_ok (w : world) : Prop := {
  ok_separate : ∀ p q, p ∈ pools w → q ∈ pools w →
      Errors p = Errors q ∨ semaphore p = semaphore q ∨ wg p = wg q → p = q;
  ok_owner : ∀ g, g ∈ goroutines w → g_pool g ∈ pools w;
  ok_pools : ∀ p, p ∈ pools w → pool_ok w p
}.

(** The order in which a goroutine passes through its program points. *)
Inductive advances : pc → pc → Prop :=
  | adv_acquire fn : advances (Run_acquire fn) (Run_body fn)
  | adv_push v rest : advances (Run_body (v :: rest)) (Run_body rest)
  | adv_return : advances (Run_body []) Run_release
  | adv_release : advances Run_release Run_done
  | adv_done : advances Run_done Run_exit
  | adv_barrier : advances Wait_wg Wait_closeErrors
  | adv_closeErrors : advances Wait_closeErrors Wait_closeSemaphore
  | adv_closeSemaphore : advances Wait_closeSemaphore Wait_exit.

(** The events in which goroutine [i] takes part. *)
Definition involves (i : nat) (e : event) : Prop :=
  match e with
  | Go k | Deliver k => k = i
  | Handoff k j => k = i ∨ j = i
  | _ => False
  end.

#[global] Instance pc_eq_dec : EqDecision pc.
Proof. solve_decision. Defined.

#[global] Instance goroutine_eq_dec : EqDecision goroutine.
Proof. solve_decision. Defined.

(** What the statement at program point [a] of goroutine [i] (of pool [p])
    does to the world when it completes and the goroutine moves on to
    [a'], and in which event [e] it completes.  (Stated for worlds that
    satisfy the invariants; see [moves_transition].) *)
Definition statement_effect (w : world) (i : nat) (p : Pool) (a a' : pc)
    (e : event) (w' : world) : Prop :=
  match a with
  | Run_acquire fn =>
      a' = Run_body fn ∧ e = Go i
      ∧ ∃ c, chans_bool w !! semaphore p = Some c ∧ closed c = false
          ∧ (Z.of_nat (length (buf c)) < cap c)%Z
          ∧ w' = set_pc i a' (put_bool (semaphore p)
                                (Chan (cap c) (buf c ++ [true]) (closed c)) w)
  | Run_body (v :: rest) =>
      a' = Run_body rest ∧ e = Deliver i
      ∧ w' = note (Errors p) (Got v) (set_pc i a' w)
  | Run_body [] =>
      a' = Run_release ∧ e = Go i ∧ w' = set_pc i a' w
  | Run_release =>
      a' = Run_done ∧ e = Go i
      ∧ ∃ c b rest, chans_bool w !! semaphore p = Some c ∧ buf c = b :: rest
          ∧ w' = set_pc i a' (put_bool (semaphore p) (Chan (cap c) rest (closed c)) w)
  | Run_done =>
      a' = Run_exit ∧ e = Go i
      ∧ ∃ n, waitgroups w !! wg p = Some n ∧ (1 ≤ n)%Z
          ∧ w' = set_pc i a' (put_wg (wg p) (n - 1)%Z w)
  | Wait_wg =>
      a' = Wait_closeErrors ∧ e = Go i
      ∧ waitgroups w !! wg p = Some 0%Z ∧ w' = set_pc i a' w
  | Wait_closeErrors =>
      a' = Wait_closeSemaphore ∧ e = Go i
      ∧ ∃ c, chans_error w !! Errors p = Some c ∧ closed c = false
          ∧ w' = set_pc i a' (put_error (Errors p) (Chan (cap c) (buf c) true) w)
  | Wait_closeSemaphore =>
      a' = Wait_exit ∧ e = Go i
      ∧ ∃ c, chans_bool w !! semaphore p = Some c ∧ closed c = false
          ∧ w' = set_pc i a' (put_bool (semaphore p) (Chan (cap c) (buf c) true) w)
  | Run_exit | Wait_exit => False
  end.

(** A goroutine started by [Run] that has got past [p.semaphore <- true]. *)
Definition got_permit (a : pc) : bool :=
  match a with
  | Run_body _ | Run_release | Run_done | Run_exit => true
  | _ => false
  end.

(** ** Which pool an event belongs to, and what state a pool has *)

Definition owned_by (p : Pool) (w : world) (i : nat) : Prop :=
  ∃ a, at_pc w i p a.

(** The events that are operations on pool [p]: calls of its methods,
    steps of the goroutines its methods started, and receives on its
    [Errors] channel. *)
Definition acts_on (p : Pool) (w : world) (e : event) : Prop :=
  match e with
  | CallNew _ => False
  | CallRun q _ | CallWait q | Recv q => q = p
  | Go i | Deliver i => owned_by p w i
  | Handoff i j => owned_by p w i ∨ owned_by p w j
  end.

Definition permit_state (p : Pool) (w : world) : option (chan bool) :=
  chans_bool w !! semaphore p.

Definition tracker_state (p : Pool) (w : world) : option Z :=
  waitgroups w !! wg p.

Definition stream_state (p : Pool) (w : world) : option (chan (option string)) :=
  chans_error w !! Errors p.

(** What consumers have received on [p.Errors] so far, oldest first. *)
Definition drained (p : Pool) (w : world) : list received :=
  (filter (λ x, x.1 = Errors p) (inbox w)).*2.

(** Concrete pools and worlds used in the examples. *)
Definition P1 : Pool := {| Errors := 1; semaphore := 1; wg := 1 |}.

Definition one_pool (c : Z) : world :=
  {| chans_error := [Chan 0 [] false]; chans_bool := [Chan c [] false];
     waitgroups := [0%Z]; goroutines := []; pools := [P0]; inbox := [];
     panicked := false |}.

Definition two_pools : world :=
  {| chans_error := [Chan 0 [] false; Chan 0 [] false];
     chans_bool := [Chan 1 [] false; Chan 2 [] false];
     waitgroups := [1%Z; 0%Z];
     goroutines := [ {| g_pool := P0; g_pc := Run_acquire [None] |} ];
     pools := [P0; P1]; inbox := []; panicked := false |}.

(** A goroutine started by [Run] that has not yet got its permit. *)
Definition awaits_permit (a : pc) : bool :=
  match a with
  | Run_acquire _ => true
  | _ => false
  end.

(** The number of permits taken: the values parked in the semaphore. *)
Definition permits_held (p : Pool) (w : world) : option nat :=
  (λ c, length (buf c)) <$> permit_state p w.

(** What the statement at program point [a] of a goroutine started by
    [Run] does, when the goroutine gets from [a] to [a'], to the permits
    and to the completion tracker of its pool. *)
Definition unit_progress (p : Pool) (a a' : pc) (w w' : world) : Prop :=
  match a with
  | Run_acquire fn =>
      a' = Run_body fn
      ∧ permits_held p w' = S <$> permits_held p w
      ∧ tracker_state p w' = tracker_state p w
  | Run_body (v :: rest) =>
      a' = Run_body rest
      ∧ permits_held p w' = permits_held p w
      ∧ tracker_state p w' = tracker_state p w
  | Run_body [] =>
      a' = Run_release
      ∧ permits_held p w' = permits_held p w
      ∧ tracker_state p w' = tracker_state p w
  | Run_release =>
      a' = Run_done
      ∧ S <$> permits_held p w' = permits_held p w
      ∧ tracker_state p w' = tracker_state p w
  | Run_done =>
      a' = Run_exit
      ∧ permits_held p w' = permits_held p w
      ∧ tracker_state p w' = (λ n, n - 1)%Z <$> tracker_state p w
  | Run_exit => False
  | Wait_wg | Wait_closeErrors | Wait_closeSemaphore | Wait_exit => True
  end.

Definition busy_pool : world :=
  {| chans_error := [Chan 0 [] false]; chans_bool := [Chan 1 [true] false];
     waitgroups := [2%Z];
     goroutines := [ {| g_pool := P0; g_pc := Run_body [None] |};
                     {| g_pool := P0; g_pc := Run_acquire [None] |} ];
     pools := [P0]; inbox := []; panicked := false |}.

(** A pool of capacity two with two units whose [fn] has returned: the
    first has given its permit back and is about to call [Done], the
    second is about to give its permit back. *)
Definition winding_down : world :=
  {| chans_error := [Chan 0 [] false]; chans_bool := [Chan 2 [true] false];
     waitgroups := [2%Z];
     goroutines := [ {| g_pool := P0; g_pc := Run_done |};
                     {| g_pool := P0; g_pc := Run_release |} ];
     pools := [P0]; inbox := []; panicked := false |}.

(** What the statement at program point [a] of a goroutine started by
    [Wait] requires and does when the goroutine gets from [a] to [a']. *)
Definition waiter_progress (p : Pool) (a a' : pc) (w w' : world) : Prop :=
  match a with
  | Wait_wg =>
      a' = Wait_closeErrors ∧ tracker_state p w = Some 0%Z
  | Wait_closeErrors =>
      a' = Wait_closeSemaphore
      ∧ closed <$> stream_state p w = Some false
      ∧ closed <$> stream_state p w' = Some true
  | Wait_closeSemaphore =>
      a' = Wait_exit
      ∧ closed <$> permit_state p w = Some false
      ∧ closed <$> permit_state p w' = Some true
  | Wait_exit => False
  | Run_acquire _ | Run_body _ | Run_release | Run_done | Run_exit => True
  end.

(** In the schedule [tr] run from [w1], [Wait] was called on [p], and
    later the goroutine [i] it started executed [p.wg.Wait()] at a moment
    when the counter was zero. *)
Definition seen_zero (p : Pool) (w1 : world) (tr : list event) (i : nat) : Prop :=
  ∃ tr0 tr0' tr2 wa,
    tr = (tr0 ++ CallWait p :: tr0') ++ Go i :: tr2
    ∧ exec (tr0 ++ CallWait p :: tr0') w1 = Some wa
    ∧ at_pc wa i p Wait_wg
    ∧ tracker_state p wa = Some 0%Z.

Definition closing_pool : world :=
  {| chans_error := [Chan 0 [] true]; chans_bool := [Chan 1 [] false];
     waitgroups := [0%Z];
     goroutines := [ {| g_pool := P0; g_pc := Wait_closeSemaphore |} ];
     pools := [P0]; inbox := []; panicked := false |}.

(** ** The documented use of a pool

    The comment on [type Pool] shows how a pool is meant to be used:
<<
      p := cc.New(4)
      p.Run(func() { p.Errors <- afunction() })   // any number of times
      p.Wait()
      for err := range p.Errors { }
>>
    A [client] is the caller's side of this program: the units it has
    still to submit, whether it has called [Wait], and whether its
    [range] loop is still running.  [use] is [step] restricted to what
    this program allows: the units are submitted in order, [Wait] is
    called once, after the last [Run], and values are received only while
    the loop runs.  With [early = false] the loop starts after [Wait], as
    in the comment; with [early = true] the consumer is a goroutine of its
    own that receives from the start. *)

Record client : Type := {
  todo : list func;
  waited : bool;
  ranging : bool
}.

Definition receiving (early : bool) (cl : client) : bool :=
  ranging cl && (early || waited cl).

Definition saw_Closed (p : Pool) (w : world) : bool :=
  match last (drained p w) with
  | Some Closed => true
  | _ => false
  end.

Definition use (early : bool) (p : Pool) (e : event) (s : client * world)
    : option (client * world) :=
  match e with
  | CallNew _ => None
  | CallRun q fn =>
      match todo s.1 with
      | f :: rest =>
          if bool_decide (q = p ∧ fn = f) then
            w' ← step e s.2;
            Some ({| todo := rest; waited := waited s.1; ranging := ranging s.1 |}, w')
          else None
      | [] => None
      end
  | CallWait q =>
      if bool_decide (q = p ∧ todo s.1 = [] ∧ waited s.1 = false) then
        w' ← step e s.2;
        Some ({| todo := todo s.1; waited := true; ranging := ranging s.1 |}, w')
      else None
  | Recv q =>
      if bool_decide (q = p) && receiving early s.1 then
        w' ← step e s.2;
        Some ({| todo := todo s.1; waited := waited s.1;
                 ranging := negb (saw_Closed p w') |}, w')
      else None
  | Deliver i =>
      if receiving early s.1 then w' ← step e s.2; Some (s.1, w') else None
  | Go _ | Handoff _ _ => w' ← step e s.2; Some (s.1, w')
  end.

Fixpoint uses (early : bool) (p : Pool) (tr : list event) (s : client * world)
    : option (client * world) :=
  match tr with
  | [] => Some s
  | e :: tr' =>
      match use early p e s with
      | Some s' => uses early p tr' s'
      | None => None
      end
  end.

(** The caller about to submit the units [fns]. *)
Definition start (fns : list func) : client :=
  {| todo := fns; waited := false; ranging := true |}.

(** *** Bookkeeping for the proofs about [use] *)

Definition is_waiter (a : pc) : bool :=
  match a with
  | Wait_wg | Wait_closeErrors | Wait_closeSemaphore | Wait_exit => true
  | _ => false
  end.

Definition past_barrier (a : pc) : bool :=
  match a with
  | Wait_closeErrors | Wait_closeSemaphore | Wait_exit => true
  | _ => false
  end.

(** The values a goroutine has still to send. *)
Definition pending_of (a : pc) : list (option string) :=
  match a with
  | Run_acquire fn => fn
  | Run_body rest => rest
  | _ => []
  end.

Definition pending (gs : list goroutine) : list (option string) :=
  mjoin ((λ g, pending_of (g_pc g)) <$> gs).

(** The values received, the closed signal left out. *)
Definition values (rs : list received) : list (option string) :=
  omap (λ r, match r with Got v => Some v | Closed => None end) rs.

(** The number of statements a goroutine has still to execute. *)
Definition remaining (a : pc) : nat :=
  match a with
  | Run_acquire fn => 4 + length fn
  | Run_body rest => 3 + length rest
  | Run_release => 2
  | Run_done => 1
  | Run_exit => 0
  | Wait_wg => 3
  | Wait_closeErrors => 2
  | Wait_closeSemaphore => 1
  | Wait_exit => 0
  end.

(** The number of steps the whole program has still to make, at most. *)
Definition effort (s : client * world) : nat :=
  sum_list_with (λ fn : list (option string), 5 + length fn) (todo s.1)
  + (if waited s.1 then 0 else 4)
  + (if ranging s.1 then 1 else 0)
  + sum_list_with (λ g, remaining (g_pc g)) (goroutines s.2).

Record use_ok (p : Pool) (fns : list func) (s : client * world) : Prop := {
  u_world : world_ok s.2;
  u_single : pools s.2 = [p];
  u_live : panicked s.2 = false;
  u_waiters : tally is_waiter p (goroutines s.2) = Nat.b2n (waited s.1);
  u_waited : waited s.1 = true → todo s.1 = [];
  u_barrier : 1 ≤ tally past_barrier p (goroutines s.2) →
      todo s.1 = [] ∧ tally outstanding p (goroutines s.2) = 0;
  u_ranging : ranging s.1 = false → closed <$> stream_state p s.2 = Some true;
  u_drained : ∃ vs,
      drained p s.2 = (Got <$> vs) ++ (if ranging s.1 then [] else [Closed])
      ∧ vs ++ pending (goroutines s.2) ++ mjoin (todo s.1) ≡ₚ mjoin fns
}.

(** ** The documented use of a pool inside a larger program

    A program may hold other pools, made before or after [p], and use
    them in any way while it uses [p] as documented.  [own p w e] tells
    whether event [e] is an operation on [p] (it is [acts_on] as a
    boolean).  [use_among] holds the operations on [p] to the documented
    use, as [use] does, and leaves every other event of [step] free. *)
Definition own (p : Pool) (w : world) (e : event) : bool :=
  match e with
  | CallNew _ => false
  | CallRun q _ | CallWait q | Recv q => bool_decide (q = p)
  | Go i | Deliver i => bool_decide (g_pool <$> goroutines w !! i = Some p)
  | Handoff i j =>
      bool_decide (g_pool <$> goroutines w !! i = Some p)
      || bool_decide (g_pool <$> goroutines w !! j = Some p)
  end.

Definition use_among (early : bool) (p : Pool) (e : event) (s : client * world)
    : option (client * world) :=
  if own p s.2 e then use early p e s
  else w' ← step e s.2; Some (s.1, w').

Fixpoint uses_among (early : bool) (p : Pool) (tr : list event) (s : client * world)
    : option (client * world) :=
  match tr with
  | [] => Some s
  | e :: tr' =>
      match use_among early p e s with
      | Some s' => uses_among early p tr' s'
      | None => None
      end
  end.

(** The number of steps of the schedule [tr], run from [w], that are
    operations on [p]. *)
Fixpoint own_steps (p : Pool) (tr : list event) (w : world) : nat :=
  match tr with
  | [] => 0
  | e :: tr' =>
      match step e w with
      | Some w' => (if own p w e then 1 else 0) + own_steps p tr' w'
      | None => 0
      end
  end.

(** *** Bookkeeping for the proofs about [use_among] *)

(** The values the goroutines of [p] have still to send. *)
Definition pending_in (p : Pool) (gs : list goroutine) : list (option string) :=
  mjoin ((λ g, if bool_decide (g_pool g = p) then pending_of (g_pc g) else []) <$> gs).

(** The number of statements the goroutines of [p] have still to execute. *)
Definition work_in (p : Pool) (gs : list goroutine) : nat :=
  sum_list_with (λ g, if bool_decide (g_pool g = p) then remaining (g_pc g) else 0) gs.

Definition effort_in (p : Pool) (s : client * world) : nat :=
  sum_list_with (λ fn : list (option string), 5 + length fn) (todo s.1)
  + (if waited s.1 then 0 else 4)
  + (if ranging s.1 then 1 else 0)
  + work_in p (goroutines s.2).

Record among_ok (p : Pool) (fns : list func) (s : client * world) : Prop := {
  a_world : world_ok s.2;
  a_pool : p ∈ pools s.2;
  a_waiters : tally is_waiter p (goroutines s.2) = Nat.b2n (waited s.1);
  a_waited : waited s.1 = true → todo s.1 = [];
  a_barrier : 1 ≤ tally past_barrier p (goroutines s.2) →
      todo s.1 = [] ∧ tally outstanding p (goroutines s.2) = 0;
  a_ranging : ranging s.1 = false → closed <$> stream_state p s.2 = Some true;
  a_drained : ∃ vs,
      drained p s.2 = (Got <$> vs) ++ (if ranging s.1 then [] else [Closed])
      ∧ vs ++ pending_in p (goroutines s.2) ++ mjoin (todo s.1) ≡ₚ mjoin fns
}.

(** The documented use with one unit, run to its end. *)
Definition full_run : list event :=
  [CallRun P0 [Some "boom"]; CallWait P0; Go 0; Deliver 0; Go 0; Go 0; Go 0;
   Go 1; Go 1; Go 1; Recv P0].

Definition finished_pool : world :=
  {| chans_error := [Chan 0 [] true]; chans_bool := [Chan 1 [] true];
     waitgroups := [0%Z];
     goroutines := [ {| g_pool := P0; g_pc := Run_exit |};
                     {| g_pool := P0; g_pc := Wait_exit |} ];
     pools := [P0]; inbox := [(0, Got (Some "boom")); (0, Closed)];
     panicked := false |}.

Definition finished : client :=
  {| todo := []; waited := true; ranging := false |}.

(** The documented use with one unit that sends nothing, run to its end. *)
Definition silent_run : list event :=
  [CallRun P0 []; CallWait P0; Go 0; Go 0; Go 0; Go 0; Go 1; Go 1; Go 1; Recv P0].

Definition silent_done : world :=
  {| chans_error := [Chan 0 [] true]; chans_bool := [Chan 1 [] true];
     waitgroups := [0%Z];
     goroutines := [ {| g_pool := P0; g_pc := Run_exit |};
                     {| g_pool := P0; g_pc := Wait_exit |} ];
     pools := [P0]; inbox := [(0, Closed)]; panicked := false |}.

(** [Wait] called twice on an idle pool, both goroutines run. *)
Definition double_Wait : list event :=
  [CallNew 1; CallWait P0; CallWait P0; Go 0; Go 0; Go 0; Go 1; Go 1].

Definition after_double_Wait : world :=
  {| chans_error := [Chan 0 [] true]; chans_bool := [Chan 1 [] true];
     waitgroups := [0%Z];
     goroutines := [ {| g_pool := P0; g_pc := Wait_exit |};
                     {| g_pool := P0; g_pc := Wait_closeErrors |} ];
     pools := [P0]; inbox := []; panicked := true |}.

(** A program with two pools: [P0] of capacity one, then [P1] of capacity
    two, both idle. *)
Definition idle_pools : world :=
  {| chans_error := [Chan 0 [] false; Chan 0 [] false];
     chans_bool := [Chan 1 [] false; Chan 2 [] false];
     waitgroups := [0%Z; 0%Z]; goroutines := []; pools := [P0; P1]; inbox := [];
     panicked := false |}.

(** The documented use of [P1] with two units, run to its end, while a
    unit is submitted to [P0], whose results nobody receives. *)
Definition mixed_run : list event :=
  [CallRun P1 [Some "a"]; CallRun P0 [None]; CallRun P1 [Some "b"]; CallWait P1;
   Go 0; Go 1; Go 2; Deliver 2; Deliver 0; Go 0; Go 0; Go 0; Go 2; Go 2; Go 2;
   Go 3; Go 3; Go 3; Recv P1].

Definition mixed_done : world :=
  {| chans_error := [Chan 0 [] false; Chan 0 [] true];
     chans_bool := [Chan 1 [true] false; Chan 2 [] true];
     waitgroups := [1%Z; 0%Z];
     goroutines := [ {| g_pool := P1; g_pc := Run_exit |};
                     {| g_pool := P0; g_pc := Run_body [None] |};
                     {| g_pool := P1; g_pc := Run_exit |};
                     {| g_pool := P1; g_pc := Wait_exit |} ];
     pools := [P0; P1];
     inbox := [(1, Got (Some "b")); (1, Got (Some "a")); (1, Closed)];
     panicked := false |}.

(** A pool of capacity one whose only unit has just returned from [fn]. *)
Definition returning_pool : world :=
  {| chans_error := [Chan 0 [] false]; chans_bool := [Chan 1 [true] false];
     waitgroups := [1%Z];
     goroutines := [ {| g_pool := P0; g_pc := Run_body [] |} ];
     pools := [P0]; inbox := []; panicked := false |}.

(** Every receive recorded in the inbox was made on a channel that exists. *)
Definition inbox_known (w : world) : Prop :=
  ∀ l r, (l, r) ∈ inbox w → l < length (chans_error w).

(** What holds throughout the documented use of a pool of capacity zero
    to which at least one unit is submitted. *)
Record stalled (p : Pool) (s : client * world) : Prop := {
  st_cap : ∃ cs, permit_state p s.2 = Some cs ∧ cap cs = 0%Z;
  st_waiting : ∀ i a, at_pc s.2 i p a → got_permit a = false;
  st_submitted : todo s.1 = [] → 1 ≤ tally outstanding p (goroutines s.2);
  st_nothing : drained p s.2 = [];
  st_ranging : ranging s.1 = true
}.

(** A pool of capacity zero, one unit submitted, [Wait] called: nothing
    can move. *)
Definition stuck_pool : world :=
  {| chans_error := [Chan 0 [] false]; chans_bool := [Chan 0 [] false];
     waitgroups := [1%Z];
     goroutines := [ {| g_pool := P0; g_pc := Run_acquire [None] |};
                     {| g_pool := P0; g_pc := Wait_wg |} ];
     pools := [P0]; inbox := []; panicked := false |}.

Definition waiting : client :=
  {| todo := []; waited := true; ranging := true |}.

(** A pool of capacity one with one unit submitted and [Wait] called,
    before and after the unit has acquired its permit. *)
Definition submitted_pool : world :=
  {| chans_error := [Chan 0 [] false]; chans_bool := [Chan 1 [] false];
     waitgroups := [1%Z];
     goroutines := [ {| g_pool := P0; g_pc := Run_acquire [None] |};
                     {| g_pool := P0; g_pc := Wait_wg |} ];
     pools := [P0]; inbox := []; panicked := false |}.

Definition running_pool : world :=
  {| chans_error := [Chan 0 [] false]; chans_bool := [Chan 1 [true] false];
     waitgroups := [1%Z];
     goroutines := [ {| g_pool := P0; g_pc := Run_body [None] |};
                     {| g_pool := P0; g_pc := Wait_wg |} ];
     pools := [P0]; inbox := []; panicked := false |}.

(** [closing_pool] after the goroutine of [Wait] has closed the semaphore. *)
Definition closed_pool : world :=
  {| chans_error := [Chan 0 [] true]; chans_bool := [Chan 1 [] true];
     waitgroups := [0%Z];
     goroutines := [ {| g_pool := P0; g_pc := Wait_exit |} ];
     pools := [P0]; inbox := []; panicked := false |}.

(* ================================================================= *)
(** * Properties *)

Example demo :
  exec [CallNew 1; CallRun P0 [Some "boom"]; CallWait P0; Go 0; Deliver 0; Go 0; Go 0; Go 0;
        Go 1; Go 1; Go 1; Recv P0] empty_world
  = Some {| chans_error := [Chan 0 [] true]; chans_bool := [Chan 1 [] true];
            waitgroups := [0%Z];
            goroutines := [ {| g_pool := P0; g_pc := Run_exit |};
                            {| g_pool := P0; g_pc := Wait_exit |} ];
            pools := [P0]; inbox := [(0, Got (Some "boom")); (0, Closed)];
            panicked := false |}.
Proof. vm_compute. reflexivity. Qed.

Lemma chan_send_cases {A : Type} (c : chan A) (v : A) :
  (closed c = true ∧ chan_send c v = SendPanics)
  ∨ (closed c = false ∧ (Z.of_nat (length (buf c)) < cap c)%Z
     ∧ chan_send c v = SendDone (Chan (cap c) (buf c ++ [v]) (closed c)))
  ∨ (closed c = false ∧ (cap c ≤ Z.of_nat (length (buf c)))%Z
     ∧ chan_send c v = SendBlocks).
Proof.
  unfold chan_send. destruct (closed c); [by left|].
  destruct (Z.ltb_spec (Z.of_nat (length (buf c))) (cap c)); right; [left|right]; done.
Qed.

Lemma chan_rendezvous_true {A : Type} (c : chan A) (v : A) :
  chan_rendezvous c v = true ↔ closed c = false ∧ buf c = [] ∧ (cap c ≤ 0)%Z.
Proof.
  unfold chan_rendezvous, chan_recv.
  destruct (chan_send_cases c v) as [[Hc ->]|[(Hc & Hl & ->)|(Hc & Hl & ->)]].
  - split; [done|]. intros (? & _); congruence.
  - split; [done|]. intros (_ & Hb & ?). rewrite Hb in Hl. simpl in Hl. lia.
  - destruct (buf c) eqn:Hb; simpl in *.
    + rewrite Hc. split; [done|]. intros _. done.
    + split; [done|]. intros (_ & ? & _); done.
Qed.

Lemma goroutine_eta (g : goroutine) : g = {| g_pool := g_pool g; g_pc := g_pc g |}.
Proof. by destruct g. Qed.

Lemma step_moves e w w' : step e w = Some w' → moves w e w'.
Proof.
  unfold step. destruct (panicked w) eqn:Hp; [done|].
  destruct e as [c|p fn|p|i|i j|i|p]; simpl.
  - (* New *)
    unfold New, mbind, M_bind, new_WaitGroup, make_error_chan, make_bool_chan, publish.
    simpl. unfold make_chan.
    destruct (Z.ltb_spec c 0); simpl; intros [= <-].
    + by apply m_new_panic.
    + by apply m_new.
  - (* Run *)
    case_bool_decide as Hin; [|done].
    unfold Run, mbind, M_bind, wg_Add, go, WaitGroup_Add.
    destruct (waitgroups w !! wg p) as [n|] eqn:Hn; simpl.
    + destruct (Z.ltb_spec (n + 1) 0); simpl; intros [= <-].
      * apply m_panic; econstructor; eauto; unfold wg_add_panics, close_panics; rewrite ?Hn, ?Hc; done.
      * by apply m_run.
    + intros [= <-]. apply m_panic; econstructor; eauto; unfold wg_add_panics, close_panics; rewrite ?Hn, ?Hc; done.
  - (* Wait *)
    case_bool_decide as Hin; [|done].
    unfold Wait, go. simpl. intros [= <-]. by apply m_wait.
  - (* Go *)
    destruct (goroutines w !! i) as [g|] eqn:Hg; simpl; [|done].
    rewrite (goroutine_eta g) in Hg.
    destruct (g_pc g) as [fn|[|v rest]| | | | | | | ] eqn:Hpc; simpl;
      unfold mbind, M_bind, mret, M_ret, block,
        send_bool, send_error, recv_bool, wg_Done, wg_Add, wg_Wait,
        close_error, close_bool, WaitGroup_Add, WaitGroup_ready, chan_close;
      simpl.
    + destruct (chans_bool w !! semaphore (g_pool g)) as [c|] eqn:Hc; simpl; [|done].
      destruct (chan_send_cases c true) as [[Hcl ->]|[(Hcl & Hl & ->)|(Hcl & Hl & ->)]];
        simpl; [| |done]; intros [= <-].
      * apply m_panic; econstructor; eauto; unfold wg_add_panics, close_panics; rewrite ?Hn, ?Hc; done.
      * by eapply m_acquire.
    + intros [= <-]. by eapply m_return.
    + destruct (chans_error w !! Errors (g_pool g)) as [c|] eqn:Hc; simpl; [|done].
      destruct (chan_send_cases c v) as [[Hcl ->]|[(Hcl & Hl & ->)|(Hcl & Hl & ->)]];
        simpl; [| |done]; intros [= <-].
      * apply m_panic; econstructor; eauto; unfold wg_add_panics, close_panics; rewrite ?Hn, ?Hc; done.
      * by eapply m_push.
    + destruct (chans_bool w !! semaphore (g_pool g)) as [c|] eqn:Hc; simpl; [|done].
      unfold chan_recv. destruct (buf c) as [|b rest] eqn:Hb; simpl.
      * destruct (closed c) eqn:Hcl; simpl; [|done]. intros [= <-].
        by eapply m_release_closed.
      * intros [= <-]. by eapply m_release.
    + destruct (waitgroups w !! wg (g_pool g)) as [n|] eqn:Hn; simpl.
      * destruct (Z.ltb_spec (n + -1) 0); simpl; intros [= <-].
        -- apply m_panic; econstructor; eauto; unfold wg_add_panics, close_panics; rewrite ?Hn, ?Hc; done.
        -- by eapply m_done.
      * intros [= <-]. apply m_panic; econstructor; eauto; unfold wg_add_panics, close_panics; rewrite ?Hn, ?Hc; done.
    + done.
    + destruct (waitgroups w !! wg (g_pool g)) as [n|] eqn:Hn; simpl.
      * destruct (Z.eqb_spec n 0); simpl; [|done]. intros [= <-]. subst n.
        by eapply m_barrier.
      * intros [= <-]. apply m_panic; econstructor; eauto; unfold wg_add_panics, close_panics; rewrite ?Hn, ?Hc; done.
    + destruct (chans_error w !! Errors (g_pool g)) as [c|] eqn:Hc; simpl.
      * destruct (closed c) eqn:Hcl; simpl; intros [= <-].
        -- apply m_panic; econstructor; eauto; unfold wg_add_panics, close_panics; rewrite ?Hn, ?Hc; done.
        -- by eapply m_closeErrors.
      * intros [= <-]. apply m_panic; econstructor; eauto; unfold wg_add_panics, close_panics; rewrite ?Hn, ?Hc; done.
    + destruct (chans_bool w !! semaphore (g_pool g)) as [c|] eqn:Hc; simpl.
      * destruct (closed c) eqn:Hcl; simpl; intros [= <-].
        -- apply m_panic; econstructor; eauto; unfold wg_add_panics, close_panics; rewrite ?Hn, ?Hc; done.
        -- by eapply m_closeSemaphore.
      * intros [= <-]. apply m_panic; econstructor; eauto; unfold wg_add_panics, close_panics; rewrite ?Hn, ?Hc; done.
    + done.
  - (* Handoff *)
    unfold handoff.
    destruct (goroutines w !! i) as [gi|] eqn:Hgi; simpl; [|done].
    destruct (goroutines w !! j) as [gj|] eqn:Hgj; simpl; [|done].
    rewrite (goroutine_eta gi) in Hgi. rewrite (goroutine_eta gj) in Hgj.
    destruct (g_pc gi) as [fn| | | | | | | | ] eqn:Hpi; try done.
    destruct (g_pc gj) eqn:Hpj; try done.
    case_bool_decide as Hs; [|done].
    destruct (chans_bool w !! semaphore (g_pool gi)) as [c|] eqn:Hc; simpl; [|done].
    destruct (chan_rendezvous c true) eqn:Hr; [|done].
    apply chan_rendezvous_true in Hr as (? & ? & ?).
    intros [= <-]. by eapply m_handoff.
  - (* Deliver *)
    unfold deliver.
    destruct (goroutines w !! i) as [gi|] eqn:Hgi; simpl; [|done].
    rewrite (goroutine_eta gi) in Hgi.
    destruct (g_pc gi) as [|[|v rest]| | | | | | | ] eqn:Hpi; try done.
    destruct (chans_error w !! Errors (g_pool gi)) as [c|] eqn:Hc; simpl; [|done].
    destruct (chan_rendezvous c v) eqn:Hr; [|done].
    apply chan_rendezvous_true in Hr as (? & ? & ?).
    intros [= <-]. by eapply m_deliver.
  - (* Recv *)
    case_bool_decide as Hin; [|done].
    unfold recv_error.
    destruct (chans_error w !! Errors p) as [c|] eqn:Hc; simpl; [|done].
    unfold chan_recv. destruct (buf c) as [|v rest] eqn:Hb; simpl.
    + destruct (closed c) eqn:Hcl; simpl; [|done]. intros [= <-].
      by eapply m_recv_closed.
    + intros [= <-]. by eapply m_recv.
Qed.

(** ** Counting lemmas *)

Lemma tally_app P p gs gs' : tally P p (gs ++ gs') = tally P p gs + tally P p gs'.
Proof. induction gs as [|g gs IH]; simpl; [done|]. rewrite IH. lia. Qed.

Lemma tally_alter P p i gs q a a' :
  gs !! i = Some {| g_pool := q; g_pc := a |} →
  tally P p (alter (λ g, {| g_pool := g_pool g; g_pc := a' |}) i gs)
    + counts P p {| g_pool := q; g_pc := a |}
  = tally P p gs + counts P p {| g_pool := q; g_pc := a' |}.
Proof.
  revert i. induction gs as [|g gs IH]; intros [|i] Hi; simpl in *; try done.
  - injection Hi as ->. simpl. lia.
  - specialize (IH _ Hi). unfold alter in IH. lia.
Qed.

Lemma counts_other P p q a : q ≠ p → counts P p {| g_pool := q; g_pc := a |} = 0.
Proof. intros Hne. unfold counts. simpl. by rewrite bool_decide_eq_false_2. Qed.

Lemma counts_same P p a : counts P p {| g_pool := p; g_pc := a |} = Nat.b2n (P a).
Proof. unfold counts. simpl. rewrite bool_decide_eq_true_2 by done. by destruct (P a). Qed.

Lemma tally_set_pc_other P p q i a a' w :
  at_pc w i q a → q ≠ p →
  tally P p (goroutines (set_pc i a' w)) = tally P p (goroutines w).
Proof.
  intros Hi Hne. simpl. pose proof (tally_alter P p i _ _ _ a' Hi) as H.
  rewrite !counts_other in H by done. lia.
Qed.

Lemma tally_set_pc P p i a a' w :
  at_pc w i p a →
  tally P p (goroutines (set_pc i a' w)) + Nat.b2n (P a)
  = tally P p (goroutines w) + Nat.b2n (P a').
Proof.
  intros Hi. simpl. pose proof (tally_alter P p i _ _ _ a' Hi) as H.
  by rewrite !counts_same in H.
Qed.

Lemma at_pc_set_pc_ne w i j p a a' :
  i ≠ j → at_pc w j p a → at_pc (set_pc i a' w) j p a.
Proof. intros Hne Hj. unfold at_pc in *. simpl. by rewrite list_lookup_alter_ne. Qed.

Lemma at_pc_elem w i p a : at_pc w i p a → {| g_pool := p; g_pc := a |} ∈ goroutines w.
Proof. intros H. by eapply list_elem_of_lookup_2. Qed.

Lemma elem_of_alter_pc (g : goroutine) (i : nat) a (gs : list goroutine) :
  g ∈ alter (λ g, {| g_pool := g_pool g; g_pc := a |}) i gs →
  ∃ g', g' ∈ gs ∧ g_pool g' = g_pool g.
Proof.
  intros (j & Hj)%list_elem_of_lookup_1.
  destruct (decide (i = j)) as [->|Hne].
  - rewrite list_lookup_alter_eq in Hj.
    destruct (gs !! j) as [g'|] eqn:Hg'; simpl in Hj; [|done].
    injection Hj as <-. exists g'. split; [|done]. by eapply list_elem_of_lookup_2.
  - rewrite list_lookup_alter_ne in Hj by done.
    exists g. split; [|done]. by eapply list_elem_of_lookup_2.
Qed.

(** ** The invariants hold in every reachable world *)

Lemma pool_ok_frame w w' p :
  pool_ok w p →
  chans_error w' !! Errors p = chans_error w !! Errors p →
  chans_bool w' !! semaphore p = chans_bool w !! semaphore p →
  waitgroups w' !! wg p = waitgroups w !! wg p →
  (∀ P, tally P p (goroutines w') = tally P p (goroutines w)) →
  pool_ok w' p.
Proof.
  intros [He Hs Hw] Ee Es Ew Et. split.
  - rewrite Ee, Et. done.
  - rewrite Es, !Et. done.
  - rewrite Ew, Et. done.
Qed.

Lemma pool_ok_bounds w p :
  pool_ok w p →
  Errors p < length (chans_error w) ∧ semaphore p < length (chans_bool w)
  ∧ wg p < length (waitgroups w).
Proof.
  intros [(ce & He & _) (cs & Hs & _) Hw].
  apply lookup_lt_Some in He, Hs, Hw. done.
Qed.

Lemma world_ok_at w i q a : world_ok w → at_pc w i q a → q ∈ pools w.
Proof. intros Hok Hi. apply at_pc_elem in Hi. by apply (ok_owner _ Hok) in Hi. Qed.

Lemma world_ok_ne w p q :
  world_ok w → p ∈ pools w → q ∈ pools w → q ≠ p →
  Errors q ≠ Errors p ∧ semaphore q ≠ semaphore p ∧ wg q ≠ wg p.
Proof.
  intros Hok Hp Hq Hne.
  repeat split; intros Heq; apply Hne; apply (ok_separate _ Hok); auto.
Qed.

Lemma tally_alter_other P p q i a a' gs :
  gs !! i = Some {| g_pool := q; g_pc := a |} → q ≠ p →
  tally P p (alter (λ g, {| g_pool := g_pool g; g_pc := a' |}) i gs) = tally P p gs.
Proof.
  intros Hi Hne. pose proof (tally_alter P p i _ _ _ a' Hi) as H.
  rewrite !counts_other in H by done. lia.
Qed.

Lemma tally_spawn P p q a w :
  tally P p (goroutines (spawn q a w))
  = tally P p (goroutines w) + counts P p {| g_pool := q; g_pc := a |}.
Proof. simpl. rewrite tally_app. simpl. lia. Qed.

Lemma moves_pools w e w' :
  moves w e w' → pools w' = pools w ∨ ∃ p, pools w' = pools w ++ [p]
     ∧ Errors p = length (chans_error w) ∧ semaphore p = length (chans_bool w)
     ∧ wg p = length (waitgroups w).
Proof.
  destruct 1; simpl; eauto.
  right. eexists. split; [done|]. done.
Qed.

Lemma tally_absent P p gs :
  (∀ g, g ∈ gs → g_pool g ≠ p) → tally P p gs = 0.
Proof.
  induction gs as [|g gs IH]; intros Hall; simpl; [done|].
  rewrite IH by (intros; apply Hall; by right).
  unfold counts. rewrite bool_decide_eq_false_2; [done|]. apply Hall. by left.
Qed.

Ltac other_pool Hok Hp Hq Hne :=
  destruct (world_ok_ne _ _ _ Hok Hp Hq Hne) as (? & ? & ?);
  eapply pool_ok_frame; [by apply (ok_pools _ Hok)|simpl..];
  [ try (by rewrite list_lookup_insert_ne by done); done
  | try (by rewrite list_lookup_insert_ne by done); done
  | try (by rewrite list_lookup_insert_ne by done); done
  | intros ?P;
    repeat match goal with
    | Hi : at_pc _ _ _ _ |- _ =>
        rewrite (tally_alter_other _ _ _ _ _ _ _ Hi Hne)
    end;
    rewrite ?tally_app; simpl; rewrite ?counts_other by done; lia ].

Lemma tally_at P w i p a :
  at_pc w i p a → P a = true → 1 ≤ tally P p (goroutines w).
Proof.
  unfold at_pc. generalize (goroutines w). intros gs. revert i.
  induction gs as [|g gs IH]; intros [|i] Hi HP; simpl in *; try done.
  - injection Hi as ->. rewrite counts_same, HP. simpl. lia.
  - specialize (IH _ Hi HP). lia.
Qed.

Ltac tallies Hi p a' :=
  pose proof (tally_alter holds_permit p _ _ _ _ a' Hi);
  pose proof (tally_alter outstanding p _ _ _ _ a' Hi);
  pose proof (tally_alter has_closed_Errors p _ _ _ _ a' Hi);
  pose proof (tally_alter has_closed_semaphore p _ _ _ _ a' Hi);
  rewrite !counts_same in *; simpl in *.

Ltac same_pool Hok Hp :=
  destruct (ok_pools _ Hok _ Hp)
    as [(ce & Ee & Ecap & Ebuf & Ecl) (cs & Es & Scap & Slen & Sle & Scl) Ew];
  split; simpl;
  rewrite ?list_lookup_insert_eq by (eapply lookup_lt_Some; eassumption);
  rewrite ?tally_app; simpl; rewrite ?counts_same; simpl.

Lemma moves_ok w e w' : world_ok w → moves w e w' → world_ok w'.
Proof.
  intros Hok Hm. split.
  - (* separate *)
    intros p q Hp Hq Heq.
    destruct (moves_pools _ _ _ Hm) as [E|(r & E & Hr)]; rewrite E in Hp, Hq.
    { by apply (ok_separate _ Hok). }
    apply elem_of_app in Hp as [Hp|Hp%list_elem_of_singleton],
          Hq as [Hq|Hq%list_elem_of_singleton]; subst.
    + by apply (ok_separate _ Hok).
    + apply (ok_pools _ Hok), pool_ok_bounds in Hp. lia.
    + apply (ok_pools _ Hok), pool_ok_bounds in Hq. lia.
    + done.
  - (* owner *)
    intros g Hg.
    assert (g_pool g ∈ pools w) as Hin.
    { destruct Hm; simpl in Hg;
        repeat match goal with
        | H : _ ∈ alter _ _ _ |- _ =>
            apply elem_of_alter_pc in H as (? & H & <-)
        | H : _ ∈ _ ++ [_] |- _ =>
            apply elem_of_app in H as [H|H%list_elem_of_singleton]; [|subst; done]
        end; by apply (ok_owner _ Hok). }
    destruct (moves_pools _ _ _ Hm) as [E|(r & E & Hr)]; rewrite E;
      [done|apply elem_of_app; by left].
  - (* pools *)
    intros p Hp.
    destruct Hm as [e Hpn|c Hc|c Hc|q fn n Hq Hn Hle|q Hq
      |i q fn c Hi Hs Hcl Hlt|i q v rest c Hi He Hcl Hlt|i q Hi
      |i q c b rest Hi Hs Hb|i q c Hi Hs Hb Hcl|i q n Hi Hn Hle
      |i q Hi Hn|i q c Hi He Hcl|i q c Hi Hs Hcl
      |i j q r fn c Hi Hj Hqr Hs Hcl Hb Hcap|i q v rest c Hi He Hcl Hb Hcap
      |q c v rest Hq He Hb|q c Hq He Hb Hcl]; simpl in Hp.
    + (* panic *) eapply pool_ok_frame; [by apply (ok_pools _ Hok)|done..].
    + (* New panics *)
      pose proof (pool_ok_bounds _ _ (ok_pools _ Hok _ Hp)) as (? & ? & ?).
      eapply pool_ok_frame; [by apply (ok_pools _ Hok)|simpl..]; try done;
        by rewrite lookup_app_l.
    + (* New *)
      apply elem_of_app in Hp as [Hp|Hp%list_elem_of_singleton].
      * pose proof (pool_ok_bounds _ _ (ok_pools _ Hok _ Hp)) as (? & ? & ?).
        eapply pool_ok_frame; [by apply (ok_pools _ Hok)|simpl..]; try done;
          by rewrite lookup_app_l.
      * subst p.
        assert (∀ P, tally P {| Errors := length (chans_error w);
                                semaphore := length (chans_bool w);
                                wg := length (waitgroups w) |} (goroutines w) = 0) as Hz.
        { intros P. apply tally_absent. intros g Hg Heq.
          apply (ok_owner _ Hok) in Hg. rewrite Heq in Hg.
          apply (ok_pools _ Hok), pool_ok_bounds in Hg. simpl in Hg. lia. }
        split; simpl; rewrite ?Hz.
        -- exists (Chan 0 [] false). rewrite list_lookup_middle by done. done.
        -- exists (Chan c [] false). rewrite list_lookup_middle by done.
           simpl. repeat split; try done; lia.
        -- rewrite list_lookup_middle by done. done.
    + (* Run *)
      destruct (decide (q = p)) as [->|Hne]; [|other_pool Hok Hp Hq Hne].
      same_pool Hok Hp.
      * exists ce. repeat split; try done; lia.
      * exists cs. repeat split; try done; lia.
      * f_equal. rewrite Ew in Hn. injection Hn as <-. lia.
    + (* Wait *)
      destruct (decide (q = p)) as [->|Hne]; [|other_pool Hok Hp Hq Hne].
      same_pool Hok Hp.
      * exists ce. repeat split; try done; lia.
      * exists cs. repeat split; try done; lia.
      * rewrite Ew. f_equal. lia.
    + (* acquire *)
      pose proof (world_ok_at _ _ _ _ Hok Hi) as Hq.
      destruct (decide (q = p)) as [->|Hne]; [|other_pool Hok Hp Hq Hne].
      tallies Hi p (Run_body fn). same_pool Hok Hp.
      * exists ce. repeat split; try done; lia.
      * eexists. split; [done|]. simpl. rewrite Es in Hs. injection Hs as <-.
        rewrite length_app. simpl. repeat split; try done; lia.
      * rewrite Ew. f_equal. lia.
    + (* a buffered send on Errors: there is no buffer *)
      pose proof (world_ok_at _ _ _ _ Hok Hi) as Hq.
      destruct (ok_pools _ Hok _ Hq) as [(ce & Ee & Ecap & Ebuf & _) _ _].
      rewrite Ee in He. injection He as <-. rewrite Ecap, Ebuf in Hlt. simpl in Hlt. lia.
    + (* fn returns *)
      pose proof (world_ok_at _ _ _ _ Hok Hi) as Hq.
      destruct (decide (q = p)) as [->|Hne]; [|other_pool Hok Hp Hq Hne].
      tallies Hi p Run_release. same_pool Hok Hp.
      * exists ce. repeat split; try done; lia.
      * exists cs. repeat split; try done; lia.
      * rewrite Ew. f_equal. lia.
    + (* release *)
      pose proof (world_ok_at _ _ _ _ Hok Hi) as Hq.
      destruct (decide (q = p)) as [->|Hne]; [|other_pool Hok Hp Hq Hne].
      tallies Hi p Run_done. same_pool Hok Hp.
      * exists ce. repeat split; try done; lia.
      * eexists. split; [done|]. simpl. rewrite Es in Hs. injection Hs as <-.
        rewrite Hb in *. simpl in *. repeat split; try done; lia.
      * rewrite Ew. f_equal. lia.
    + (* release finds the semaphore closed and empty: impossible *)
      pose proof (world_ok_at _ _ _ _ Hok Hi) as Hq.
      destruct (ok_pools _ Hok _ Hq) as [_ (cs & Es & _ & Slen & _) _].
      rewrite Es in Hs. injection Hs as <-. rewrite Hb in Slen. simpl in Slen.
      pose proof (tally_at holds_permit _ _ _ _ Hi eq_refl). lia.
    + (* Done *)
      pose proof (world_ok_at _ _ _ _ Hok Hi) as Hq.
      destruct (decide (q = p)) as [->|Hne]; [|other_pool Hok Hp Hq Hne].
      tallies Hi p Run_exit. same_pool Hok Hp.
      * exists ce. repeat split; try done; lia.
      * exists cs. repeat split; try done; lia.
      * f_equal. rewrite Ew in Hn. injection Hn as <-. lia.
    + (* wg.Wait returns *)
      pose proof (world_ok_at _ _ _ _ Hok Hi) as Hq.
      destruct (decide (q = p)) as [->|Hne]; [|other_pool Hok Hp Hq Hne].
      tallies Hi p Wait_closeErrors. same_pool Hok Hp.
      * exists ce. repeat split; try done; lia.
      * exists cs. repeat split; try done; lia.
      * rewrite Ew. f_equal. lia.
    + (* close(p.Errors) *)
      pose proof (world_ok_at _ _ _ _ Hok Hi) as Hq.
      destruct (decide (q = p)) as [->|Hne]; [|other_pool Hok Hp Hq Hne].
      tallies Hi p Wait_closeSemaphore. same_pool Hok Hp.
      * eexists. split; [done|]. simpl. rewrite Ee in He. injection He as <-.
        rewrite Hcl in Ecl. simpl in Ecl. repeat split; try done; lia.
      * exists cs. repeat split; try done; lia.
      * rewrite Ew. f_equal. lia.
    + (* close(p.semaphore) *)
      pose proof (world_ok_at _ _ _ _ Hok Hi) as Hq.
      destruct (decide (q = p)) as [->|Hne]; [|other_pool Hok Hp Hq Hne].
      tallies Hi p Wait_exit. same_pool Hok Hp.
      * exists ce. repeat split; try done; lia.
      * eexists. split; [done|]. simpl. rewrite Es in Hs. injection Hs as <-.
        rewrite Hcl in Scl. simpl in Scl. repeat split; try done; lia.
      * rewrite Ew. f_equal. lia.
    + (* handoff: the receiver would hold a permit of an empty semaphore *)
      pose proof (world_ok_at _ _ _ _ Hok Hi) as Hq.
      pose proof (world_ok_at _ _ _ _ Hok Hj) as Hr.
      assert (q = r) as <- by (apply (ok_separate _ Hok); auto).
      destruct (ok_pools _ Hok _ Hq) as [_ (cs & Es & _ & Slen & _) _].
      rewrite Es in Hs. injection Hs as <-. rewrite Hb in Slen. simpl in Slen.
      pose proof (tally_at holds_permit _ _ _ _ Hj eq_refl). lia.
    + (* deliver *)
      pose proof (world_ok_at _ _ _ _ Hok Hi) as Hq.
      destruct (decide (q = p)) as [->|Hne]; [|other_pool Hok Hp Hq Hne].
      tallies Hi p (Run_body rest). same_pool Hok Hp.
      * exists ce. repeat split; try done; lia.
      * exists cs. repeat split; try done; lia.
      * rewrite Ew. f_equal. lia.
    + (* a consumer takes a parked value: there is no buffer *)
      destruct (ok_pools _ Hok _ Hq) as [(ce & Ee & Ecap & Ebuf & _) _ _].
      rewrite Ee in He. injection He as <-. by rewrite Ebuf in Hb.
    + (* a consumer sees the stream closed *)
      eapply pool_ok_frame; [by apply (ok_pools _ Hok)|done..].
Qed.

Lemma world_ok_empty : world_ok empty_world.
Proof. split; simpl; intros; exfalso; eapply not_elem_of_nil; eauto. Qed.

Lemma step_ok e w w' : world_ok w → step e w = Some w' → world_ok w'.
Proof. intros Hok Hs. eapply moves_ok; [done|]. by apply step_moves. Qed.

Lemma exec_ok tr w w' : world_ok w → exec tr w = Some w' → world_ok w'.
Proof.
  revert w. induction tr as [|e tr IH]; intros w Hok; simpl.
  - by intros [= <-].
  - destruct (step e w) as [w1|] eqn:Hs; [|done].
    apply IH. by eapply step_ok.
Qed.

Lemma reachable_ok w : reachable w → world_ok w.
Proof. intros [tr Htr]. eapply exec_ok; [apply world_ok_empty|done]. Qed.

Lemma exec_app tr1 tr2 w :
  exec (tr1 ++ tr2) w = exec tr1 w ≫= exec tr2.
Proof.
  revert w. induction tr1 as [|e tr1 IH]; intros w; simpl; [done|].
  destruct (step e w); simpl; [apply IH|done].
Qed.

Lemma exec_snoc tr e w w' w'' :
  exec tr w = Some w' → step e w' = Some w'' → exec (tr ++ [e]) w = Some w''.
Proof. intros H1 H2. rewrite exec_app, H1. simpl. by rewrite H2. Qed.

Lemma reachable_exec tr w w' : reachable w → exec tr w = Some w' → reachable w'.
Proof.
  intros [tr0 H0] H. exists (tr0 ++ tr). rewrite exec_app, H0. done.
Qed.

(** Channels keep the capacity they were made with, and pools stay. *)

Lemma cap_insert {A : Type} (s : list (chan A)) (k l : nat) c0 c1 :
  s !! k = Some c0 → cap c1 = cap c0 →
  cap <$> (<[k := c1]> s !! l) = cap <$> (s !! l).
Proof.
  intros Hk Hcap. destruct (decide (k = l)) as [->|Hne].
  - rewrite list_lookup_insert_eq by (by eapply lookup_lt_Some).
    rewrite Hk. simpl. by rewrite Hcap.
  - by rewrite list_lookup_insert_ne.
Qed.

Lemma moves_cap_bool w e w' l :
  moves w e w' → l < length (chans_bool w) →
  cap <$> (chans_bool w' !! l) = cap <$> (chans_bool w !! l).
Proof.
  intros Hm Hl.
  destruct Hm; simpl; try done;
    try (by rewrite lookup_app_l);
    try (by eapply cap_insert).
Qed.

Lemma moves_cap_error w e w' l :
  moves w e w' → l < length (chans_error w) →
  cap <$> (chans_error w' !! l) = cap <$> (chans_error w !! l).
Proof.
  intros Hm Hl.
  destruct Hm; simpl; try done;
    try (by rewrite lookup_app_l);
    try (by eapply cap_insert).
Qed.

Lemma moves_pools_mono w e w' p : moves w e w' → p ∈ pools w → p ∈ pools w'.
Proof.
  intros Hm Hp. destruct (moves_pools _ _ _ Hm) as [->|(r & -> & _)]; [done|].
  apply elem_of_app. by left.
Qed.

Lemma exec_cap_bool tr w w' l c :
  exec tr w = Some w' → chans_bool w !! l = Some c →
  ∃ c', chans_bool w' !! l = Some c' ∧ cap c' = cap c.
Proof.
  revert w c. induction tr as [|e tr IH]; intros w c; simpl.
  - intros [= <-] Hl. eauto.
  - destruct (step e w) as [w1|] eqn:Hs; [|done]. intros Hex Hl.
    apply step_moves in Hs.
    pose proof (moves_cap_bool _ _ _ l Hs (lookup_lt_Some _ _ _ Hl)) as Hc.
    rewrite Hl in Hc. simpl in Hc.
    destruct (chans_bool w1 !! l) as [c1|] eqn:H1; [|done].
    injection Hc as Hc. destruct (IH _ _ Hex H1) as (c' & ? & ?).
    exists c'. split; [done|congruence].
Qed.

Lemma exec_pools_mono tr w w' p : exec tr w = Some w' → p ∈ pools w → p ∈ pools w'.
Proof.
  revert w. induction tr as [|e tr IH]; intros w; simpl.
  - by intros [= <-].
  - destruct (step e w) as [w1|] eqn:Hs; [|done]. intros Hex Hp.
    eapply IH; [done|]. eapply moves_pools_mono; [by apply step_moves|done].
Qed.

(** What [New] returns. *)
Lemma New_returns c w p w' :
  New c w = Returns p w' →
  (0 ≤ c)%Z
  ∧ p = {| Errors := length (chans_error w); semaphore := length (chans_bool w);
           wg := length (waitgroups w) |}
  ∧ pools w' = pools w ++ [p]
  ∧ chans_error w' !! Errors p = Some (Chan 0 [] false)
  ∧ chans_bool w' !! semaphore p = Some (Chan c [] false)
  ∧ waitgroups w' !! wg p = Some 0%Z
  ∧ goroutines w' = goroutines w
  ∧ panicked w' = panicked w.
Proof.
  unfold New, mbind, M_bind, new_WaitGroup, make_error_chan, make_bool_chan, publish.
  simpl. unfold make_chan. destruct (Z.ltb_spec c 0); simpl; [done|].
  intros [= <- <-]. simpl. rewrite !list_lookup_middle by done. done.
Qed.

Lemma New_step c w p w' :
  New c w = Returns p w' → panicked w = false → step (CallNew c) w = Some w'.
Proof. intros HN Hp. unfold step. rewrite Hp, HN. done. Qed.

Lemma New_moves c w p w' : New c w = Returns p w' → moves w (CallNew c) w'.
Proof.
  intros HN. pose proof (New_returns _ _ _ _ HN) as (Hc & _).
  revert HN.
  unfold New, mbind, M_bind, new_WaitGroup, make_error_chan, make_bool_chan, publish.
  simpl. unfold make_chan. destruct (Z.ltb_spec c 0); simpl; [done|].
  intros [= <- <-]. by apply m_new.
Qed.

(** ** C1: at most N units execute their body at any instant *)

(** C1.  Take any reachable world, construct a pool there with [New N],
    and let any schedule run afterwards (any number of [Run] calls, on
    this pool or on others, in any interleaving).  In the world reached,
    the number of goroutines of the pool that are between their completed
    permit acquire and their permit release is at most [N].  (The bound
    holds for every [N] for which [New] returns, in particular for
    [N >= 1].) *)
Theorem C1_concurrency_bound (w : world) (N : Z) (p : Pool) (w1 : world)
    (tr : list event) (w2 : world) :
  reachable w →
  New N w = Returns p w1 →
  exec tr w1 = Some w2 →
  (Z.of_nat (executing p w2) ≤ N)%Z.
Proof.
  intros Hr HN Hex.
  pose proof (New_returns _ _ _ _ HN) as (_ & _ & Hpools & _ & Hsem & _).
  assert (world_ok w1) as Hok1.
  { eapply moves_ok; [by apply reachable_ok|by eapply New_moves]. }
  assert (p ∈ pools w1) as Hp1.
  { rewrite Hpools. apply elem_of_app. right. by apply list_elem_of_singleton. }
  pose proof (exec_ok _ _ _ Hok1 Hex) as Hok2.
  pose proof (exec_pools_mono _ _ _ _ Hex Hp1) as Hp2.
  destruct (exec_cap_bool _ _ _ _ _ Hex Hsem) as (c' & Hc' & Hcap).
  destruct (ok_pools _ Hok2 _ Hp2) as [_ (cs & Es & _ & Slen & Sle & _) _].
  rewrite Es in Hc'. injection Hc' as ->. simpl in Hcap.
  unfold executing. lia.
Qed.

Lemma C1_concurrency_bound_witness :
  (Z.of_nat (executing P0 busy_pool) ≤ 1)%Z.
Proof.
  apply (C1_concurrency_bound empty_world 1 P0 (one_pool 1)
           [CallRun P0 [None]; CallRun P0 [None]; Go 0]).
  - exists []. reflexivity.
  - reflexivity.
  - vm_compute. reflexivity.
Defined.

(** ** How program points evolve *)

Lemma at_pc_set_pc_eq w i p a a' : at_pc w i p a → at_pc (set_pc i a' w) i p a'.
Proof.
  unfold at_pc. simpl. intros H. rewrite list_lookup_alter_eq, H. done.
Qed.

Lemma at_pc_fun w i p a q b : at_pc w i p a → at_pc w i q b → p = q ∧ a = b.
Proof. unfold at_pc. intros H1 H2. rewrite H1 in H2. by injection H2. Qed.

Lemma at_pc_spawn w i p a q b : at_pc w i p a → at_pc (spawn q b w) i p a.
Proof. unfold at_pc. simpl. intros H. by apply lookup_app_l_Some. Qed.

Lemma at_pc_set_pc_cases w i k p a q b b' :
  at_pc w i p a → at_pc w k q b →
  (k = i ∧ p = q ∧ a = b ∧ at_pc (set_pc k b' w) i p b')
  ∨ (k ≠ i ∧ at_pc (set_pc k b' w) i p a).
Proof.
  intros Hi Hk. destruct (decide (k = i)) as [->|Hne].
  - left. destruct (at_pc_fun _ _ _ _ _ _ Hi Hk) as [-> ->].
    split; [done|]. split; [done|]. split; [done|]. by eapply at_pc_set_pc_eq.
  - right. split; [done|]. by apply at_pc_set_pc_ne.
Qed.

Lemma moves_pc w e w' i p a :
  moves w e w' → at_pc w i p a →
  at_pc w' i p a ∨ ∃ a', at_pc w' i p a' ∧ advances a a' ∧ involves i e.
Proof.
  intros Hm Hi.
  destruct Hm as [e Hpn|c Hc|c Hc|q fn n Hq Hn Hle|q Hq
      |k q fn c Hk Hs Hcl Hlt|k q v rest c Hk He Hcl Hlt|k q Hk
      |k q c b rest Hk Hs Hb|k q c Hk Hs Hb Hcl|k q n Hk Hn Hle
      |k q Hk Hn|k q c Hk He Hcl|k q c Hk Hs Hcl
      |k j q r fn c Hk Hj Hqr Hs Hcl Hb Hcap|k q v rest c Hk He Hcl Hb Hcap
      |q c v rest Hq He Hb|q c Hq He Hb Hcl];
    try (by left);
    try (left; by apply at_pc_spawn);
    try (match goal with
         | |- context [set_pc k ?b' ?w0] =>
             destruct (at_pc_set_pc_cases w0 i k p a _ _ b' Hi Hk)
               as [(-> & <- & -> & H')|(Hne & H')];
             [right; eexists; split; [exact H'|]; split; [constructor|simpl; auto]
             |left; exact H']
         end).
  (* handoff *)
  destruct (at_pc_set_pc_cases w i k p a _ _ (Run_body fn) Hi Hk)
    as [(-> & <- & -> & H')|(Hne & H')].
  - right. exists (Run_body fn). split; [|split; [constructor|simpl; auto]].
    apply at_pc_set_pc_ne; [|done]. intros ->.
    destruct (at_pc_fun _ _ _ _ _ _ Hi Hj) as [_ ?]. done.
  - assert (at_pc (set_pc k (Run_body fn) w) j r Run_release) as Hj'.
    { apply at_pc_set_pc_ne; [|done]. intros ->.
      destruct (at_pc_fun _ _ _ _ _ _ Hk Hj) as [_ ?]. done. }
    destruct (at_pc_set_pc_cases _ i j p a _ _ Run_done H' Hj')
      as [(-> & <- & -> & H'')|(Hne' & H'')].
    + right. eexists. split; [exact H''|]. split; [constructor|simpl; auto].
    + left. exact H''.
Qed.

(** ** C10: the result stream has no buffer *)

Lemma pending_push_moves w e w' i p v rest :
  world_ok w → moves w e w' → at_pc w i p (Run_body (v :: rest)) →
  at_pc w' i p (Run_body (v :: rest))
  ∨ (e = Deliver i ∧ w' = note (Errors p) (Got v) (set_pc i (Run_body rest) w)).
Proof.
  intros Hok Hm Hi.
  destruct Hm as [e Hpn|c Hc|c Hc|q fn n Hq Hn Hle|q Hq
      |k q fn c Hk Hs Hcl Hlt|k q v' rest' c Hk He Hcl Hlt|k q Hk
      |k q c b rest' Hk Hs Hb|k q c Hk Hs Hb Hcl|k q n Hk Hn Hle
      |k q Hk Hn|k q c Hk He Hcl|k q c Hk Hs Hcl
      |k j q r fn c Hk Hj Hqr Hs Hcl Hb Hcap|k q v' rest' c Hk He Hcl Hb Hcap
      |q c v' rest' Hq He Hb|q c Hq He Hb Hcl];
    try (by left);
    try (left; by apply at_pc_spawn);
    try (left; apply at_pc_set_pc_ne; [|done]; intros ->;
         destruct (at_pc_fun _ _ _ _ _ _ Hi Hk) as [_ ?]; done).
  - (* a buffered send *)
    pose proof (world_ok_at _ _ _ _ Hok Hk) as Hq.
    destruct (ok_pools _ Hok _ Hq) as [(ce & Ee & Ecap & Ebuf & _) _ _].
    rewrite Ee in He. injection He as <-. rewrite Ecap, Ebuf in Hlt. simpl in Hlt. lia.
  - (* handoff *)
    left. apply at_pc_set_pc_ne.
    { intros ->. destruct (at_pc_fun _ _ _ _ _ _ Hi Hj) as [_ ?]; done. }
    apply at_pc_set_pc_ne; [|done].
    intros ->. destruct (at_pc_fun _ _ _ _ _ _ Hi Hk) as [_ ?]; done.
  - (* deliver *)
    destruct (decide (k = i)) as [->|Hne].
    + right. destruct (at_pc_fun _ _ _ _ _ _ Hi Hk) as [-> [= -> ->]]. done.
    + left. unfold at_pc. simpl. by rewrite list_lookup_alter_ne.
Qed.

(** C10.  [New] makes the [Errors] channel with capacity zero, whatever
    [concurrency] is (even when the later [make] of the semaphore panics).
    Hence, for a pool [p] returned by [New] and any schedule after it:
    the buffer of [p.Errors] is empty at every instant, and a goroutine
    that is about to send [v] on [p.Errors] stays at that send through
    every step except one kind, the step in which a consumer receives
    [v] at the same moment ([Deliver]); that step puts [v] in the
    consumer's hands. *)
Theorem C10_errors_unbuffered (concurrency : Z) (w : world) :
  reachable w →
  match New concurrency w with
  | Returns p w1 =>
      Errors p = length (chans_error w)
      ∧ chans_error w1 !! Errors p = Some (Chan 0 [] false)
  | Panics w1 => chans_error w1 !! length (chans_error w) = Some (Chan 0 [] false)
  | Blocks => False
  end
  ∧ ∀ p w1 tr w2,
      New concurrency w = Returns p w1 →
      exec tr w1 = Some w2 →
      (∃ c, chans_error w2 !! Errors p = Some c ∧ cap c = 0%Z ∧ buf c = [])
      ∧ ∀ i v rest e w3,
          at_pc w2 i p (Run_body (v :: rest)) →
          step e w2 = Some w3 →
          at_pc w3 i p (Run_body (v :: rest))
          ∨ (e = Deliver i
             ∧ inbox w3 = inbox w2 ++ [(Errors p, Got v)]
             ∧ at_pc w3 i p (Run_body rest)).
Proof.
  intros Hr. split.
  - unfold New, mbind, M_bind, new_WaitGroup, make_error_chan, make_bool_chan, publish.
    simpl. unfold make_chan. destruct (Z.ltb_spec concurrency 0); simpl;
      rewrite ?list_lookup_middle by done; done.
  - intros p w1 tr w2 HN Hex.
    pose proof (New_returns _ _ _ _ HN) as (_ & _ & Hpools & _).
    assert (world_ok w1) as Hok1.
    { eapply moves_ok; [by apply reachable_ok|by eapply New_moves]. }
    assert (p ∈ pools w1) as Hp1.
    { rewrite Hpools. apply elem_of_app. right. by apply list_elem_of_singleton. }
    pose proof (exec_ok _ _ _ Hok1 Hex) as Hok2.
    pose proof (exec_pools_mono _ _ _ _ Hex Hp1) as Hp2.
    split.
    + destruct (ok_pools _ Hok2 _ Hp2) as [(ce & Ee & Ecap & Ebuf & _) _ _]. eauto.
    + intros i v rest e w3 Hi Hs. apply step_moves in Hs.
      destruct (pending_push_moves _ _ _ _ _ _ _ Hok2 Hs Hi) as [?|[-> ->]]; [by left|].
      right. split; [done|]. split; [done|].
      exact (at_pc_set_pc_eq _ _ _ _ (Run_body rest) Hi).
Qed.

Lemma C10_errors_unbuffered_witness :
  match New 4 empty_world with
  | Returns p w1 =>
      Errors p = length (chans_error empty_world)
      ∧ chans_error w1 !! Errors p = Some (Chan 0 [] false)
  | Panics w1 =>
      chans_error w1 !! length (chans_error empty_world) = Some (Chan 0 [] false)
  | Blocks => False
  end
  ∧ ∀ p w1 tr w2,
      New 4 empty_world = Returns p w1 →
      exec tr w1 = Some w2 →
      (∃ c, chans_error w2 !! Errors p = Some c ∧ cap c = 0%Z ∧ buf c = [])
      ∧ ∀ i v rest e w3,
          at_pc w2 i p (Run_body (v :: rest)) →
          step e w2 = Some w3 →
          at_pc w3 i p (Run_body (v :: rest))
          ∨ (e = Deliver i
             ∧ inbox w3 = inbox w2 ++ [(Errors p, Got v)]
             ∧ at_pc w3 i p (Run_body rest)).
Proof.
  apply (C10_errors_unbuffered 4 empty_world).
  exists []. reflexivity.
Defined.

(** [moves] is exactly [step] in a world that has not panicked. *)

Ltac run_step :=
  unfold step, handoff, deliver, at_pc, wg_add_panics, close_panics in *;
  repeat match goal with
  | H : ?x = _ |- context [?x] => rewrite H
  end; simpl;
  unfold New, Run, Wait, mbind, M_bind, mret, M_ret, new_WaitGroup, make_error_chan,
    make_bool_chan, publish, go, block, send_bool, send_error, recv_bool, recv_error,
    wg_Done, wg_Add, wg_Wait, close_error, close_bool, WaitGroup_Add, WaitGroup_ready,
    chan_close, chan_send, chan_recv, chan_rendezvous, make_chan;
  simpl;
  repeat match goal with
  | H : ?x = _ |- context [?x] => rewrite H; simpl
  end.

Ltac finish_step :=
  repeat first
    [ rewrite bool_decide_eq_true_2 by done
    | progress simpl
    | match goal with H : ?x = _ |- context [?x] => rewrite H end
    | match goal with
      | |- context [Z.ltb ?a ?b] => destruct (Z.ltb_spec a b); try lia
      end ];
  try done.

Lemma moves_step e w w' : panicked w = false → moves w e w' → step e w = Some w'.
Proof.
  intros Hp Hm.
  destruct Hm as [e Hpn|c Hc|c Hc|q fn n Hq Hn Hle|q Hq
      |k q fn c Hk Hs Hcl Hlt|k q v rest c Hk He Hcl Hlt|k q Hk
      |k q c b rest Hk Hs Hb|k q c Hk Hs Hb Hcl|k q n Hk Hn Hle
      |k q Hk Hn|k q c Hk He Hcl|k q c Hk Hs Hcl
      |k j q r fn c Hk Hj Hqr Hs Hcl Hb Hcap|k q v rest c Hk He Hcl Hb Hcap
      |q c v rest Hq He Hb|q c Hq He Hb Hcl];
    [destruct Hpn as [p fn Hin Hw|i p fn c Hi Hs Hcl|i p v rest c Hi He Hcl
      |i p Hi Hw|i p Hi Hw|i p Hi Hc|i p Hi Hc]|..];
    run_step; finish_step.
  - destruct (waitgroups w !! wg p) as [n|]; finish_step.
  - destruct (waitgroups w !! wg p) as [n|]; finish_step.
  - destruct (chans_error w !! Errors p) as [c|]; finish_step.
  - destruct (chans_bool w !! semaphore p) as [c|]; finish_step.
  - assert (chans_bool w !! semaphore r = Some c) as -> by congruence. simpl.
    unfold chan_send, chan_recv. finish_step.
  - unfold chan_send, chan_recv. finish_step.
Qed.

Lemma moves_length w e w' :
  moves w e w' →
  goroutines w' = goroutines w ∨ length (goroutines w') = length (goroutines w)
  ∨ (∃ p fn, e = CallRun p fn
       ∧ goroutines w' = goroutines w ++ [{| g_pool := p; g_pc := Run_acquire fn |}])
  ∨ (∃ p, e = CallWait p
       ∧ goroutines w' = goroutines w ++ [{| g_pool := p; g_pc := Wait_wg |}]).
Proof.
  destruct 1; simpl; rewrite ?length_alter; eauto 10.
Qed.

Lemma moves_pc_back w e w' i p a :
  moves w e w' → at_pc w' i p a →
  (∃ a0, at_pc w i p a0 ∧ (a0 = a ∨ (advances a0 a ∧ involves i e)))
  ∨ (goroutines w !! i = None
     ∧ ((∃ fn, e = CallRun p fn ∧ a = Run_acquire fn) ∨ (e = CallWait p ∧ a = Wait_wg))).
Proof.
  intros Hm Hi'.
  destruct (goroutines w !! i) as [g|] eqn:Hg.
  - left. rewrite (goroutine_eta g) in Hg.
    destruct (moves_pc _ _ _ _ _ _ Hm Hg) as [H|(a' & H & Hadv & Hinv)];
      destruct (at_pc_fun _ _ _ _ _ _ Hi' H) as [-> ->]; eauto.
  - right. split; [done|].
    destruct (moves_length _ _ _ Hm) as [E|[E|[(q & fn & -> & E)|(q & -> & E)]]].
    + unfold at_pc in Hi'. rewrite E in Hi'. congruence.
    + apply lookup_lt_Some in Hi'. apply lookup_ge_None in Hg. lia.
    + unfold at_pc in Hi'. rewrite E in Hi'.
      apply lookup_app_Some in Hi' as [Hi'|[_ Hi']]; [congruence|].
      apply list_lookup_singleton_Some in Hi' as [_ [= <- <-]]. eauto.
    + unfold at_pc in Hi'. rewrite E in Hi'.
      apply lookup_app_Some in Hi' as [Hi'|[_ Hi']]; [congruence|].
      apply list_lookup_singleton_Some in Hi' as [_ [= <- <-]]. eauto.
Qed.

(** A property that does not hold at the start of a schedule and holds at
    its end begins to hold at some step. *)
Lemma exec_flip (Q : world → Prop) tr w w' :
  (∀ x, Q x ∨ ¬ Q x) →
  exec tr w = Some w' → ¬ Q w → Q w' →
  ∃ tr1 e tr2 wa wb,
    tr = tr1 ++ e :: tr2 ∧ exec tr1 w = Some wa ∧ step e wa = Some wb
    ∧ exec tr2 wb = Some w' ∧ ¬ Q wa ∧ Q wb.
Proof.
  intros Hdec. revert w. induction tr as [|e tr IH]; intros w; simpl.
  - intros [= <-] Hn Hy. done.
  - destruct (step e w) as [w1|] eqn:Hs; [|done]. intros Hex Hn Hy.
    destruct (Hdec w1) as [H1|H1].
    + exists [], e, tr, w, w1. done.
    + destruct (IH _ Hex H1 Hy) as (tr1 & e' & tr2 & wa & wb & -> & H2 & H3 & H4 & H5 & H6).
      exists (e :: tr1), e', tr2, wa, wb. simpl. rewrite Hs. done.
Qed.

Lemma at_pc_dec w i p a : at_pc w i p a ∨ ¬ at_pc w i p a.
Proof. unfold at_pc. destruct (decide (goroutines w !! i = Some {| g_pool := p; g_pc := a |})); auto. Qed.

Lemma at_pc_set_pc_inv w i k p a b' :
  k ≠ i → at_pc (set_pc k b' w) i p a → at_pc w i p a.
Proof. unfold at_pc. simpl. intros Hne. by rewrite list_lookup_alter_ne. Qed.

Lemma moves_transition w e w' i p a a' :
  world_ok w → moves w e w' → at_pc w i p a → at_pc w' i p a' → a ≠ a' →
  statement_effect w i p a a' e w'.
Proof.
  intros Hok Hm Hi Hi' Hne.
  destruct Hm as [e Hpn|c Hc|c Hc|q fn n Hq Hn Hle|q Hq
      |k q fn c Hk Hs Hcl Hlt|k q v rest c Hk He Hcl Hlt|k q Hk
      |k q c b rest Hk Hs Hb|k q c Hk Hs Hb Hcl|k q n Hk Hn Hle
      |k q Hk Hn|k q c Hk He Hcl|k q c Hk Hs Hcl
      |k j q r fn c Hk Hj Hqr Hs Hcl Hb Hcap|k q v rest c Hk He Hcl Hb Hcap
      |q c v rest Hq He Hb|q c Hq He Hb Hcl];
    try (destruct (at_pc_fun _ _ _ _ _ _ Hi Hi') as [_ ?]; done);
    try (apply (at_pc_spawn _ _ _ _ q (Run_acquire fn)) in Hi;
         destruct (at_pc_fun _ _ _ _ _ _ Hi Hi') as [_ ?]; done);
    try (apply (at_pc_spawn _ _ _ _ q Wait_wg) in Hi;
         destruct (at_pc_fun _ _ _ _ _ _ Hi Hi') as [_ ?]; done).
  all: try (destruct (decide (k = i)) as [->|Hki];
    [ destruct (at_pc_fun _ _ _ _ _ _ Hi Hk) as [-> ->]
    | apply at_pc_set_pc_inv in Hi'; [|done];
      destruct (at_pc_fun _ _ _ _ _ _ Hi Hi') as [_ ?]; done ]).
  - (* acquire *)
    pose proof (at_pc_set_pc_eq _ _ _ _ (Run_body fn) Hk) as H.
    destruct (at_pc_fun _ _ _ _ _ _ Hi' H) as [_ ->]. simpl. eauto 10.
  - (* buffered push *)
    pose proof (world_ok_at _ _ _ _ Hok Hk) as Hq.
    destruct (ok_pools _ Hok _ Hq) as [(ce & Ee & Ecap & Ebuf & _) _ _].
    rewrite Ee in He. injection He as <-. rewrite Ecap, Ebuf in Hlt. simpl in Hlt. lia.
  - (* return *)
    pose proof (at_pc_set_pc_eq _ _ _ _ Run_release Hk) as H.
    destruct (at_pc_fun _ _ _ _ _ _ Hi' H) as [_ ->]. simpl. eauto 10.
  - (* release *)
    pose proof (at_pc_set_pc_eq _ _ _ _ Run_done Hk) as H.
    destruct (at_pc_fun _ _ _ _ _ _ Hi' H) as [_ ->]. simpl. eauto 10.
  - (* release on a closed, empty semaphore *)
    pose proof (world_ok_at _ _ _ _ Hok Hk) as Hq.
    destruct (ok_pools _ Hok _ Hq) as [_ (cs & Es & _ & Slen & _) _].
    rewrite Es in Hs. injection Hs as <-. rewrite Hb in Slen. simpl in Slen.
    pose proof (tally_at holds_permit _ _ _ _ Hk eq_refl). lia.
  - (* Done *)
    pose proof (at_pc_set_pc_eq _ _ _ _ Run_exit Hk) as H.
    destruct (at_pc_fun _ _ _ _ _ _ Hi' H) as [_ ->]. simpl.
    split; [done|]. split; [done|]. exists n. split; [done|]. split; [lia|].
    by replace (n - 1)%Z with (n + -1)%Z by lia.
  - pose proof (at_pc_set_pc_eq _ _ _ _ Wait_closeErrors Hk) as H.
    destruct (at_pc_fun _ _ _ _ _ _ Hi' H) as [_ ->]. simpl. eauto 10.
  - pose proof (at_pc_set_pc_eq _ _ _ _ Wait_closeSemaphore Hk) as H.
    destruct (at_pc_fun _ _ _ _ _ _ Hi' H) as [_ ->]. simpl. eauto 10.
  - pose proof (at_pc_set_pc_eq _ _ _ _ Wait_exit Hk) as H.
    destruct (at_pc_fun _ _ _ _ _ _ Hi' H) as [_ ->]. simpl. eauto 10.
  - (* handoff *)
    pose proof (world_ok_at _ _ _ _ Hok Hk) as Hq.
    pose proof (world_ok_at _ _ _ _ Hok Hj) as Hr.
    assert (q = r) as <- by (apply (ok_separate _ Hok); auto).
    destruct (ok_pools _ Hok _ Hq) as [_ (cs & Es & _ & Slen & _) _].
    rewrite Es in Hs. injection Hs as <-. rewrite Hb in Slen. simpl in Slen.
    pose proof (tally_at holds_permit _ _ _ _ Hj eq_refl). lia.
  - (* deliver *)
    pose proof (at_pc_set_pc_eq _ _ _ _ (Run_body rest) Hk) as H.
    destruct (at_pc_fun _ _ _ _ _ _ Hi' H) as [_ ->]. simpl. eauto 10.
Qed.

(** ** C7: what a non-positive capacity does *)

Lemma zero_cap_moves w e w' p c :
  world_ok w → chans_bool w !! semaphore p = Some c → cap c = 0%Z →
  moves w e w' →
  (∀ i a, at_pc w i p a → got_permit a = false) →
  ∀ i a, at_pc w' i p a → got_permit a = false.
Proof.
  intros Hok Hs Hcap Hm Hall i a Hi'.
  destruct (moves_pc_back _ _ _ _ _ _ Hm Hi')
    as [(a0 & H0 & _)|(_ & [(fn & _ & ->)|(_ & ->)])]; [|done|done].
  destruct (decide (a0 = a)) as [<-|Hne]; [by eapply Hall|].
  pose proof (Hall _ _ H0) as Hadm.
  pose proof (moves_transition _ _ _ _ _ _ _ Hok Hm H0 Hi' Hne) as Heff.
  destruct a0 as [fn|rest| | | | | | | ]; simpl in Hadm; try done; simpl in Heff.
  - destruct Heff as (_ & _ & c' & Hc' & _ & Hlt & _).
    rewrite Hs in Hc'. injection Hc' as <-. lia.
  - by destruct Heff as (-> & _).
  - by destruct Heff as (-> & _).
  - by destruct Heff as (-> & _).
Qed.

Lemma zero_cap_exec tr w w' p c :
  world_ok w → chans_bool w !! semaphore p = Some c → cap c = 0%Z →
  exec tr w = Some w' →
  (∀ i a, at_pc w i p a → got_permit a = false) →
  ∀ i a, at_pc w' i p a → got_permit a = false.
Proof.
  revert w c. induction tr as [|e tr IH]; intros w c Hok Hs Hcap; simpl.
  - by intros [= <-].
  - destruct (step e w) as [w1|] eqn:Hst; [|done]. intros Hex Hall.
    apply step_moves in Hst.
    pose proof (moves_cap_bool _ _ _ (semaphore p) Hst (lookup_lt_Some _ _ _ Hs)) as Hc.
    rewrite Hs in Hc. simpl in Hc.
    destruct (chans_bool w1 !! semaphore p) as [c1|] eqn:H1; [|done].
    injection Hc as Hc.
    eapply (IH w1 c1); [by eapply moves_ok|done|congruence|done|].
    by eapply zero_cap_moves.
Qed.

Lemma New_fresh_goroutines c w p w' i a :
  world_ok w → New c w = Returns p w' → ¬ at_pc w' i p a.
Proof.
  intros Hok HN Hi.
  pose proof (New_returns _ _ _ _ HN) as (_ & Hp & _ & _ & _ & _ & Hg & _).
  unfold at_pc in Hi. rewrite Hg in Hi.
  apply list_elem_of_lookup_2, (ok_owner _ Hok) in Hi. simpl in Hi.
  apply (ok_pools _ Hok), pool_ok_bounds in Hi. rewrite Hp in Hi. simpl in Hi. lia.
Qed.

(** C7 (amended).  With capacity zero, [New] returns a pool without any
    check, and on that pool admission is blocked for good: after any
    schedule, every goroutine started by [Run] on it is still at its
    permit acquire, so that no body has run or is running.  With a negative
    capacity [New] does not return a pool at all: it panics. *)
Theorem C7_zero_capacity_blocks (w : world) :
  reachable w →
  (∃ p w1, New 0 w = Returns p w1)
  ∧ (∀ p w1 tr w2 i a,
       New 0 w = Returns p w1 → exec tr w1 = Some w2 → at_pc w2 i p a →
       got_permit a = false)
  ∧ (∀ c, (c < 0)%Z → ∃ w1, New c w = Panics w1 ∧ panicked w1 = true).
Proof.
  intros Hr. pose proof (reachable_ok _ Hr) as Hok. split; [|split].
  - unfold New, mbind, M_bind, new_WaitGroup, make_error_chan, make_bool_chan, publish.
    simpl. eauto.
  - intros p w1 tr w2 i a HN Hex Hi.
    pose proof (New_returns _ _ _ _ HN) as (_ & _ & _ & _ & Hs & _).
    assert (world_ok w1) as Hok1 by (eapply moves_ok; [done|by eapply New_moves]).
    eapply (zero_cap_exec tr w1 w2 p); eauto.
    intros j b Hj. by apply (New_fresh_goroutines _ _ _ _ _ _ Hok HN) in Hj.
  - intros c Hc.
    unfold New, mbind, M_bind, new_WaitGroup, make_error_chan, make_bool_chan, publish.
    simpl. unfold make_chan. destruct (Z.ltb_spec c 0); [|lia]. simpl. eauto.
Qed.

Lemma C7_zero_capacity_blocks_witness :
  (∃ p w1, New 0 empty_world = Returns p w1)
  ∧ (∀ p w1 tr w2 i a,
       New 0 empty_world = Returns p w1 → exec tr w1 = Some w2 → at_pc w2 i p a →
       got_permit a = false)
  ∧ (∀ c, (c < 0)%Z → ∃ w1, New c empty_world = Panics w1 ∧ panicked w1 = true).
Proof.
  apply (C7_zero_capacity_blocks empty_world). exists []. reflexivity.
Defined.

(** The claim as written fails at capacity -1: no pool is constructed. *)
Lemma C7_counterexample :
  New (-1) empty_world
  = Panics {| chans_error := [Chan 0 [] false]; chans_bool := []; waitgroups := [0%Z];
              goroutines := []; pools := []; inbox := []; panicked := true |}.
Proof. reflexivity. Qed.

(** ** C9: pools are independent *)

Lemma drained_note p l r w :
  drained p (note l r w) = drained p w ++ (if decide (l = Errors p) then [r] else []).
Proof.
  unfold drained. simpl. rewrite filter_app, fmap_app. f_equal.
  rewrite filter_cons, filter_nil. simpl. destruct (decide (l = Errors p)); done.
Qed.

Lemma at_pc_set_pc_other w k i p q a b b' :
  at_pc w k q b → q ≠ p → at_pc (set_pc k b' w) i p a ↔ at_pc w i p a.
Proof.
  intros Hk Hne. destruct (decide (k = i)) as [->|Hki].
  - split; intros Hi.
    + pose proof (at_pc_set_pc_eq _ _ _ _ b' Hk) as H.
      destruct (at_pc_fun _ _ _ _ _ _ Hi H) as [-> _]. done.
    + destruct (at_pc_fun _ _ _ _ _ _ Hi Hk) as [-> _]. done.
  - split; [by apply at_pc_set_pc_inv|by apply at_pc_set_pc_ne].
Qed.

Lemma at_pc_spawn_other w i p q a b :
  q ≠ p → at_pc (spawn q b w) i p a ↔ at_pc w i p a.
Proof.
  intros Hne. split; [|apply at_pc_spawn].
  unfold at_pc. simpl. intros [H|[_ H]]%lookup_app_Some; [done|].
  apply list_lookup_singleton_Some in H as [_ [= ? _]]. done.
Qed.

Lemma moves_frame w e w' p q :
  world_ok w → p ∈ pools w → q ∈ pools w → p ≠ q →
  moves w e w' → acts_on p w e →
  permit_state q w' = permit_state q w
  ∧ tracker_state q w' = tracker_state q w
  ∧ stream_state q w' = stream_state q w
  ∧ drained q w' = drained q w
  ∧ ∀ i a, at_pc w' i q a ↔ at_pc w i q a.
Proof.
  intros Hok Hp Hq Hne Hm Hact.
  destruct (world_ok_ne _ _ _ Hok Hq Hp Hne) as (Ne & Ns & Nw).
  unfold permit_state, tracker_state, stream_state.
  destruct Hm as [e Hpn|c Hc|c Hc|r fn n Hr Hn Hle|r Hr
      |k r fn c Hk Hs Hcl Hlt|k r v rest c Hk He Hcl Hlt|k r Hk
      |k r c b rest Hk Hs Hb|k r c Hk Hs Hb Hcl|k r n Hk Hn Hle
      |k r Hk Hn|k r c Hk He Hcl|k r c Hk Hs Hcl
      |k j r r' fn c Hk Hj Hqr Hs Hcl Hb Hcap|k r v rest c Hk He Hcl Hb Hcap
      |r c v rest Hr He Hb|r c Hr He Hb Hcl];
    simpl in Hact; try done;
    try (match type of Hact with
         | owned_by _ _ _ =>
             destruct Hact as [? Hb0];
             destruct (at_pc_fun _ _ _ _ _ _ Hk Hb0) as [-> _]
         end);
    try subst r;
    rewrite ?drained_note; simpl;
    rewrite ?list_lookup_insert_ne by done;
    rewrite ?decide_False by done; rewrite ?app_nil_r.
  all: try (split_and!; try done; intros;
            first [ done
                  | by apply (at_pc_spawn_other w)
                  | by eapply (at_pc_set_pc_other w) ]).
  (* handoff *)
  pose proof (world_ok_at _ _ _ _ Hok Hk) as Hq1.
  pose proof (world_ok_at _ _ _ _ Hok Hj) as Hq2.
  assert (r = r') as <- by (apply (ok_separate _ Hok); auto).
  destruct (ok_pools _ Hok _ Hq1) as [_ (cs & Es & _ & Slen & _) _].
  rewrite Es in Hs. injection Hs as <-. rewrite Hb in Slen. simpl in Slen.
  pose proof (tally_at holds_permit _ _ _ _ Hj eq_refl). lia.
Qed.

Lemma New_in_pools c w p w' : New c w = Returns p w' → p ∈ pools w'.
Proof.
  intros HN. pose proof (New_returns _ _ _ _ HN) as (_ & _ & -> & _).
  apply elem_of_app. right. by apply list_elem_of_singleton.
Qed.

Lemma New_ok c w p w' : world_ok w → New c w = Returns p w' → world_ok w'.
Proof. intros Hok HN. eapply moves_ok; [done|by eapply New_moves]. Qed.

(** C9.  Two pools returned by two calls of [New] refer to different
    channels and a different wait group, and whatever operation is done on
    one of them (a call of [Run] or [Wait], a step of a goroutine these
    started, a receive on its [Errors]) leaves the other pool's semaphore,
    wait-group counter, [Errors] channel, received values and goroutines
    exactly as they were. *)
Theorem C9_pools_independent (w : world) (c1 c2 : Z) (p q : Pool)
    (w1 w2 w3 w4 : world) (tr1 tr2 : list event) :
  reachable w →
  New c1 w = Returns p w1 → exec tr1 w1 = Some w2 →
  New c2 w2 = Returns q w3 → exec tr2 w3 = Some w4 →
  (Errors p ≠ Errors q ∧ semaphore p ≠ semaphore q ∧ wg p ≠ wg q)
  ∧ ∀ e w5, step e w4 = Some w5 →
      (acts_on p w4 e →
         permit_state q w5 = permit_state q w4
         ∧ tracker_state q w5 = tracker_state q w4
         ∧ stream_state q w5 = stream_state q w4
         ∧ drained q w5 = drained q w4
         ∧ ∀ i a, at_pc w5 i q a ↔ at_pc w4 i q a)
      ∧ (acts_on q w4 e →
         permit_state p w5 = permit_state p w4
         ∧ tracker_state p w5 = tracker_state p w4
         ∧ stream_state p w5 = stream_state p w4
         ∧ drained p w5 = drained p w4
         ∧ ∀ i a, at_pc w5 i p a ↔ at_pc w4 i p a).
Proof.
  intros Hr HN1 Hex1 HN2 Hex2.
  pose proof (reachable_ok _ Hr) as Hok.
  pose proof (New_ok _ _ _ _ Hok HN1) as Hok1.
  pose proof (exec_ok _ _ _ Hok1 Hex1) as Hok2.
  pose proof (New_ok _ _ _ _ Hok2 HN2) as Hok3.
  pose proof (exec_ok _ _ _ Hok3 Hex2) as Hok4.
  pose proof (exec_pools_mono _ _ _ _ Hex1 (New_in_pools _ _ _ _ HN1)) as Hp2.
  assert (p ∈ pools w3) as Hp3.
  { eapply moves_pools_mono; [by eapply New_moves|done]. }
  pose proof (exec_pools_mono _ _ _ _ Hex2 Hp3) as Hp4.
  pose proof (exec_pools_mono _ _ _ _ Hex2 (New_in_pools _ _ _ _ HN2)) as Hq4.
  assert (p ≠ q) as Hne.
  { intros ->. pose proof (New_returns _ _ _ _ HN2) as (_ & Eq & _).
    apply (ok_pools _ Hok2), pool_ok_bounds in Hp2. rewrite Eq in Hp2. simpl in Hp2. lia. }
  split.
  - apply (world_ok_ne w4); auto.
  - intros e w5 Hs. apply step_moves in Hs. split; intros Hact.
    + exact (moves_frame _ _ _ _ _ Hok4 Hp4 Hq4 Hne Hs Hact).
    + assert (q ≠ p) as Hne' by congruence.
      exact (moves_frame _ _ _ _ _ Hok4 Hq4 Hp4 Hne' Hs Hact).
Qed.

Lemma C9_pools_independent_witness :
  (Errors P0 ≠ Errors P1 ∧ semaphore P0 ≠ semaphore P1 ∧ wg P0 ≠ wg P1)
  ∧ ∀ e w5, step e two_pools = Some w5 →
      (acts_on P0 two_pools e →
         permit_state P1 w5 = permit_state P1 two_pools
         ∧ tracker_state P1 w5 = tracker_state P1 two_pools
         ∧ stream_state P1 w5 = stream_state P1 two_pools
         ∧ drained P1 w5 = drained P1 two_pools
         ∧ ∀ i a, at_pc w5 i P1 a ↔ at_pc two_pools i P1 a)
      ∧ (acts_on P1 two_pools e →
         permit_state P0 w5 = permit_state P0 two_pools
         ∧ tracker_state P0 w5 = tracker_state P0 two_pools
         ∧ stream_state P0 w5 = stream_state P0 two_pools
         ∧ drained P0 w5 = drained P0 two_pools
         ∧ ∀ i a, at_pc w5 i P0 a ↔ at_pc two_pools i P0 a).
Proof.
  apply (C9_pools_independent empty_world 1 2 P0 P1 (one_pool 1)
           {| chans_error := [Chan 0 [] false]; chans_bool := [Chan 1 [] false];
              waitgroups := [1%Z];
              goroutines := [ {| g_pool := P0; g_pc := Run_acquire [None] |} ];
              pools := [P0]; inbox := []; panicked := false |}
           two_pools two_pools [CallRun P0 [None]] []).
  - exists []. reflexivity.
  - reflexivity.
  - reflexivity.
  - reflexivity.
  - reflexivity.
Defined.

(** ** C5: Run never waits, and activities pile up *)

Lemma Run_step w p fn :
  world_ok w → p ∈ pools w → panicked w = false →
  ∃ n, waitgroups w !! wg p = Some n
     ∧ step (CallRun p fn) w
       = Some (spawn p (Run_acquire fn) (put_wg (wg p) (n + 1)%Z w)).
Proof.
  intros Hok Hp Hnp.
  destruct (ok_pools _ Hok _ Hp) as [_ _ Ew].
  eexists. split; [exact Ew|].
  apply moves_step; [done|]. apply m_run; [done..|lia].
Qed.

Lemma fill_permits (n : nat) w p c :
  world_ok w → p ∈ pools w → panicked w = false →
  permit_state p w = Some (Chan c [] false) →
  (Z.of_nat n ≤ c)%Z →
  ∃ tr w', exec tr w = Some w' ∧ panicked w' = false
    ∧ permit_state p w' = Some (Chan c (replicate n true) false)
    ∧ tally awaits_permit p (goroutines w') = tally awaits_permit p (goroutines w).
Proof.
  intros Hok Hp Hnp Hs. induction n as [|n IH]; intros Hn.
  - exists [], w. done.
  - destruct IH as (tr & w1 & Hex & Hnp1 & Hs1 & Ht1); [lia|].
    pose proof (exec_ok _ _ _ Hok Hex) as Hok1.
    pose proof (exec_pools_mono _ _ _ _ Hex Hp) as Hp1.
    destruct (Run_step w1 p [] Hok1 Hp1 Hnp1) as (m & Hm & Hrun).
    set (w2 := spawn p (Run_acquire []) (put_wg (wg p) (m + 1)%Z w1)) in *.
    set (i := length (goroutines w1)).
    assert (at_pc w2 i p (Run_acquire [])) as Hi.
    { unfold at_pc, w2. simpl. by rewrite list_lookup_middle. }
    assert (step (Go i) w2
            = Some (set_pc i (Run_body [])
                 (put_bool (semaphore p) (Chan c (replicate n true ++ [true]) false) w2)))
      as Hgo.
    { apply moves_step; [done|].
      apply (m_acquire w2 i p [] (Chan c (replicate n true) false)); try done.
      simpl. rewrite length_replicate. lia. }
    eexists (tr ++ [CallRun p []; Go i]), _. split; [|split; [|split]].
    + rewrite exec_app, Hex. simpl. rewrite Hrun. fold w2. rewrite Hgo. done.
    + done.
    + unfold permit_state in *. simpl.
      rewrite list_lookup_insert_eq by (by eapply lookup_lt_Some).
      f_equal. f_equal. change [true] with (replicate 1 true).
      rewrite <- replicate_add. by replace (n + 1) with (S n) by lia.
    + rewrite <- Ht1. simpl.
      pose proof (tally_alter awaits_permit p i _ _ _ (Run_body []) Hi) as H.
      rewrite !counts_same in H. simpl in H.
      unfold w2 in H. simpl in H. rewrite tally_app in H. simpl in H.
      rewrite counts_same in H. simpl in H. lia.
Qed.

Lemma pile_up (k : nat) w p :
  world_ok w → p ∈ pools w → panicked w = false →
  ∃ tr w', exec tr w = Some w' ∧ panicked w' = false
    ∧ permit_state p w' = permit_state p w
    ∧ tally awaits_permit p (goroutines w') = tally awaits_permit p (goroutines w) + k.
Proof.
  intros Hok Hp Hnp. induction k as [|k IH].
  - exists [], w. split; [done|]. split; [done|]. split; [done|]. lia.
  - destruct IH as (tr & w1 & Hex & Hnp1 & Hs1 & Ht1).
    pose proof (exec_ok _ _ _ Hok Hex) as Hok1.
    pose proof (exec_pools_mono _ _ _ _ Hex Hp) as Hp1.
    destruct (Run_step w1 p [] Hok1 Hp1 Hnp1) as (m & Hm & Hrun).
    eexists (tr ++ [CallRun p []]), _. split; [|split; [|split]].
    + rewrite exec_app, Hex. simpl. rewrite Hrun. done.
    + done.
    + rewrite <- Hs1. done.
    + simpl. rewrite tally_app, Ht1. simpl. rewrite counts_same. simpl. lia.
Qed.

Lemma full_semaphore_blocks w i p fn c :
  at_pc w i p (Run_acquire fn) →
  permit_state p w = Some c → closed c = false →
  (cap c ≤ Z.of_nat (length (buf c)))%Z →
  step (Go i) w = None.
Proof.
  unfold at_pc, permit_state, step. intros Hi Hs Hcl Hfull.
  destruct (panicked w); [done|]. rewrite Hi. simpl.
  unfold mbind, M_bind, send_bool. rewrite Hs. unfold chan_send. rewrite Hcl.
  destruct (Z.ltb_spec (Z.of_nat (length (buf c))) (cap c)); [lia|done].
Qed.

Lemma awaiting_blocked w e i p fn c :
  world_ok w →
  at_pc w i p (Run_acquire fn) →
  permit_state p w = Some c → closed c = false →
  (cap c ≤ Z.of_nat (length (buf c)))%Z →
  involves i e → step e w = None.
Proof.
  intros Hok Hi Hs Hcl Hfull Hinv.
  destruct (step e w) as [w'|] eqn:Hst; [exfalso|done].
  apply step_moves in Hst. unfold permit_state in Hs.
  destruct Hst as [e Hpn|c' Hc|c' Hc|q fn' n Hq Hn Hle|q Hq
      |k q fn' c' Hk Hs' Hcl' Hlt|k q v rest c' Hk He Hcl' Hlt|k q Hk
      |k q c' b rest Hk Hs' Hb|k q c' Hk Hs' Hb Hcl'|k q n Hk Hn Hle
      |k q Hk Hn|k q c' Hk He Hcl'|k q c' Hk Hs' Hcl'
      |k j q r fn' c' Hk Hj Hqr Hs' Hcl' Hb Hcap|k q v rest c' Hk He Hcl' Hb Hcap
      |q c' v rest Hq He Hb|q c' Hq He Hb Hcl']; simpl in Hinv; try done;
    try (subst k; destruct (at_pc_fun _ _ _ _ _ _ Hi Hk) as [? ?]; simplify_eq; done).
  - destruct Hpn as [p' fn' Hin Hw|k p' fn' c' Hk Hs' Hcl'|k p' v rest c' Hk He Hcl'
      |k p' Hk Hw|k p' Hk Hw|k p' Hk Hc|k p' Hk Hc]; simpl in Hinv; try done;
      subst k; destruct (at_pc_fun _ _ _ _ _ _ Hi Hk) as [? ?]; simplify_eq.
    congruence.
  - subst k. destruct (at_pc_fun _ _ _ _ _ _ Hi Hk) as [? ?]; simplify_eq. lia.
  - pose proof (world_ok_at _ _ _ _ Hok Hk) as Hq1.
    pose proof (world_ok_at _ _ _ _ Hok Hj) as Hq2.
    assert (q = r) as <- by (apply (ok_separate _ Hok); auto).
    destruct (ok_pools _ Hok _ Hq1) as [_ (cs & Es & _ & Slen & _) _].
    rewrite Es in Hs'. injection Hs' as <-. rewrite Hb in Slen. simpl in Slen.
    pose proof (tally_at holds_permit _ _ _ _ Hj eq_refl). lia.
Qed.

(** C5.  On a pool made by [New N], after any schedule that has not
    panicked, a call of [Run] completes at once: it only bumps the wait
    group and starts one more goroutine, without looking at the semaphore.
    Nothing caps the number of goroutines so started: for every [k] there
    is a schedule after which all [N] permits are taken and [k] further
    goroutines sit at their permit acquire, none of them able to move. *)
Theorem C5_run_never_blocks (w : world) (N : Z) (p : Pool) (w1 : world) :
  reachable w → panicked w = false → New N w = Returns p w1 →
  (∀ tr w2 fn, exec tr w1 = Some w2 → panicked w2 = false →
     ∃ w3, step (CallRun p fn) w2 = Some w3 ∧ panicked w3 = false
       ∧ goroutines w3 = goroutines w2 ++ [{| g_pool := p; g_pc := Run_acquire fn |}]
       ∧ permit_state p w3 = permit_state p w2)
  ∧ (∀ k : nat, ∃ tr w2, exec tr w1 = Some w2
       ∧ Z.of_nat (executing p w2) = N
       ∧ tally awaits_permit p (goroutines w2) = k
       ∧ ∀ i fn e, at_pc w2 i p (Run_acquire fn) → involves i e → step e w2 = None).
Proof.
  intros Hr Hnp HN.
  pose proof (reachable_ok _ Hr) as Hok.
  pose proof (New_ok _ _ _ _ Hok HN) as Hok1.
  pose proof (New_in_pools _ _ _ _ HN) as Hp1.
  pose proof (New_returns _ _ _ _ HN) as (HN0 & _ & _ & _ & Hs1 & _ & Hg1 & Hnp1).
  rewrite Hnp in Hnp1.
  split.
  - intros tr w2 fn Hex Hnp2.
    pose proof (exec_ok _ _ _ Hok1 Hex) as Hok2.
    pose proof (exec_pools_mono _ _ _ _ Hex Hp1) as Hp2.
    destruct (Run_step w2 p fn Hok2 Hp2 Hnp2) as (n & Hn & Hrun).
    eexists. split; [exact Hrun|]. done.
  - intros k.
    destruct (fill_permits (Z.to_nat N) w1 p N Hok1 Hp1 Hnp1 Hs1) as
      (tr & w2 & Hex & Hnp2 & Hs2 & Ht2); [lia|].
    pose proof (exec_ok _ _ _ Hok1 Hex) as Hok2.
    pose proof (exec_pools_mono _ _ _ _ Hex Hp1) as Hp2.
    destruct (pile_up k w2 p Hok2 Hp2 Hnp2) as (tr' & w3 & Hex' & Hnp3 & Hs3 & Ht3).
    pose proof (exec_ok _ _ _ Hok2 Hex') as Hok3.
    pose proof (exec_pools_mono _ _ _ _ Hex' Hp2) as Hp3.
    exists (tr ++ tr'), w3. split; [|split; [|split]].
    + rewrite exec_app, Hex. done.
    + destruct (ok_pools _ Hok3 _ Hp3) as [_ (cs & Es & _ & Slen & _) _].
      unfold permit_state in *. rewrite Hs3, Hs2 in Es. injection Es as <-.
      simpl in Slen. rewrite length_replicate in Slen. unfold executing. lia.
    + rewrite Ht3, Ht2, Hg1. rewrite tally_absent; [done|].
      intros g Hg Heq. apply (ok_owner _ Hok) in Hg. rewrite Heq in Hg.
      apply (ok_pools _ Hok), pool_ok_bounds in Hg.
      pose proof (New_returns _ _ _ _ HN) as (_ & -> & _). simpl in Hg. lia.
    + intros i fn e Hi Hinv.
      eapply awaiting_blocked; try done.
      * rewrite Hs3. exact Hs2.
      * done.
      * simpl. rewrite length_replicate. lia.
Qed.

Lemma C5_run_never_blocks_witness :
  (∀ tr w2 fn, exec tr (one_pool 2) = Some w2 → panicked w2 = false →
     ∃ w3, step (CallRun P0 fn) w2 = Some w3 ∧ panicked w3 = false
       ∧ goroutines w3 = goroutines w2 ++ [{| g_pool := P0; g_pc := Run_acquire fn |}]
       ∧ permit_state P0 w3 = permit_state P0 w2)
  ∧ (∀ k : nat, ∃ tr w2, exec tr (one_pool 2) = Some w2
       ∧ Z.of_nat (executing P0 w2) = 2%Z
       ∧ tally awaits_permit P0 (goroutines w2) = k
       ∧ ∀ i fn e, at_pc w2 i P0 (Run_acquire fn) → involves i e → step e w2 = None).
Proof.
  apply (C5_run_never_blocks empty_world 2 P0 (one_pool 2)).
  - exists []. reflexivity.
  - reflexivity.
  - reflexivity.
Defined.

(** ** C4: the life of one unit *)

Lemma unit_progress_of_effect w i p a a' e w' :
  statement_effect w i p a a' e w' → unit_progress p a a' w w'.
Proof.
  unfold statement_effect, unit_progress, permits_held, permit_state, tracker_state.
  destruct a as [fn|[|v rest]| | | | | | | ]; try done.
  - intros (-> & _ & c & Hc & _ & _ & ->). simpl.
    rewrite list_lookup_insert_eq by (by eapply lookup_lt_Some).
    rewrite Hc. simpl. rewrite length_app. simpl.
    split; [done|]. split; [|done]. f_equal. lia.
  - intros (-> & _ & ->). done.
  - intros (-> & _ & ->). done.
  - intros (-> & _ & c & b & rest & Hc & Hb & ->). simpl.
    rewrite list_lookup_insert_eq by (by eapply lookup_lt_Some).
    rewrite Hc. simpl. rewrite Hb. done.
  - intros (-> & _ & n & Hn & _ & ->). simpl.
    rewrite list_lookup_insert_eq by (by eapply lookup_lt_Some).
    rewrite Hn. done.
Qed.

(** C4.  On a pool made by [New], at any later moment:
    - [Run] first adds one to the wait group and only then starts the
      goroutine, which begins at its permit acquire: in the world between
      the two statements the counter is already one higher and the
      goroutine does not exist yet;
    - in any world, if [Run] panics (in [p.wg.Add(1)]), it has started no
      goroutine;
    - at every step, a goroutine started by [Run] stays where it is or
      moves to the next program point in the order acquire, body, release,
      done, exit; the permit is taken exactly by the move out of the
      acquire, given back exactly by the move out of the release, and the
      counter goes down by one exactly by the move out of [Done], which
      comes after the release; a goroutine that has exited never moves
      again;
    - the counter always equals the number of goroutines started by [Run]
      that have not yet executed [Done]: each unit is counted from inside
      [Run] until its own, single, decrement;
    - the deferred function does run: as long as the program has not
      panicked, a goroutine whose [fn] has returned can always take its
      next step, and so can one at the deferred receive and one at
      [Done]; that step does not panic and takes the goroutine to the
      release, from the release to [Done] with one permit fewer taken,
      and from [Done] to its exit with the counter one lower. *)
Theorem C4_unit_lifecycle (w : world) (N : Z) (p : Pool) (w1 : world)
    (tr : list event) (w2 : world) :
  reachable w → New N w = Returns p w1 → exec tr w1 = Some w2 →
  (∀ fn w3, panicked w2 = false → Run p fn w2 = Returns () w3 →
     ∃ n wm, tracker_state p w2 = Some n
       ∧ wg_Add (wg p) 1 w2 = Returns () wm
       ∧ tracker_state p wm = Some (n + 1)%Z
       ∧ goroutines wm = goroutines w2
       ∧ go p (Run_acquire fn) wm = Returns () w3
       ∧ tracker_state p w3 = Some (n + 1)%Z
       ∧ at_pc w3 (length (goroutines w2)) p (Run_acquire fn))
  ∧ (∀ fn wx wx', Run p fn wx = Panics wx' → goroutines wx' = goroutines wx)
  ∧ (∀ e w3 i a, step e w2 = Some w3 → at_pc w2 i p a →
       ∃ a', at_pc w3 i p a' ∧ (a' = a ∨ unit_progress p a a' w2 w3))
  ∧ tracker_state p w2 = Some (Z.of_nat (tally outstanding p (goroutines w2)))
  ∧ (∀ i a a', panicked w2 = false → at_pc w2 i p a →
       (a = Run_body [] ∧ a' = Run_release) ∨ (a = Run_release ∧ a' = Run_done)
       ∨ (a = Run_done ∧ a' = Run_exit) →
       ∃ w3, step (Go i) w2 = Some w3 ∧ at_pc w3 i p a' ∧ panicked w3 = false
         ∧ unit_progress p a a' w2 w3).
Proof.
  intros Hr HN Hex.
  pose proof (reachable_ok _ Hr) as Hok.
  pose proof (New_ok _ _ _ _ Hok HN) as Hok1.
  pose proof (New_in_pools _ _ _ _ HN) as Hp1.
  pose proof (exec_ok _ _ _ Hok1 Hex) as Hok2.
  pose proof (exec_pools_mono _ _ _ _ Hex Hp1) as Hp2.
  destruct (ok_pools _ Hok2 _ Hp2) as [_ (cs & Es & _ & Slen & _) Ew].
  split_and!.
  - intros fn w3 Hnp. unfold Run, mbind, M_bind, wg_Add, tracker_state.
    rewrite Ew. unfold WaitGroup_Add.
    destruct (Z.ltb_spec (Z.of_nat (tally outstanding p (goroutines w2)) + 1) 0); [lia|].
    unfold go. intros [= <-]. eexists _, _. split; [done|]. split; [done|]. simpl.
    rewrite list_lookup_insert_eq by (by eapply lookup_lt_Some).
    split; [done|]. split; [done|]. split; [done|]. split; [done|].
    unfold at_pc. simpl. by rewrite list_lookup_middle.
  - intros fn wx wx'. unfold Run, mbind, M_bind, wg_Add, go.
    destruct (waitgroups wx !! wg p) as [n|]; [|by intros [= <-]].
    destruct (WaitGroup_Add n 1); [done|by intros [= <-]].
  - intros e w3 i a Hs Hi. apply step_moves in Hs.
    destruct (moves_pc _ _ _ _ _ _ Hs Hi) as [H|(a' & H & _)].
    + exists a. auto.
    + exists a'. split; [done|].
      destruct (decide (a = a')) as [->|Hne]; [by left|]. right.
      eapply unit_progress_of_effect. by eapply moves_transition.
  - exact Ew.
  - intros i a a' Hnp Hi Hcase.
    assert (∀ w3, moves w2 (Go i) w3 → at_pc w3 i p a' → a ≠ a' →
              panicked w3 = panicked w2 →
              ∃ w3, step (Go i) w2 = Some w3 ∧ at_pc w3 i p a' ∧ panicked w3 = false
                ∧ unit_progress p a a' w2 w3) as Hgo.
    { intros w3 Hm Hi' Hne Hp3. exists w3. split_and!.
      - by apply moves_step.
      - done.
      - congruence.
      - eapply unit_progress_of_effect.
        eapply (moves_transition w2 (Go i) w3 i p a a'); done. }
    destruct Hcase as [[-> ->]|[[-> ->]|[-> ->]]].
    + apply (Hgo (set_pc i Run_release w2)); try done.
      * by apply (m_return w2 i p).
      * by eapply at_pc_set_pc_eq.
    + pose proof (tally_at holds_permit _ _ _ _ Hi eq_refl) as Hh.
      destruct (buf cs) as [|b rest] eqn:Hb; [simpl in Slen; lia|].
      apply (Hgo (set_pc i Run_done
                    (put_bool (semaphore p) (Chan (cap cs) rest (closed cs)) w2)));
        try done.
      * by apply (m_release w2 i p cs b rest).
      * apply (at_pc_set_pc_eq
                 (put_bool (semaphore p) (Chan (cap cs) rest (closed cs)) w2)
                 _ _ Run_release). exact Hi.
    + pose proof (tally_at outstanding _ _ _ _ Hi eq_refl) as Ho.
      apply (Hgo (set_pc i Run_exit
                    (put_wg (wg p)
                       (Z.of_nat (tally outstanding p (goroutines w2)) + -1)%Z w2)));
        try done.
      * apply (m_done w2 i p _ Hi Ew). lia.
      * apply (at_pc_set_pc_eq
                 (put_wg (wg p)
                    (Z.of_nat (tally outstanding p (goroutines w2)) + -1)%Z w2)
                 _ _ Run_done). exact Hi.
Qed.

Lemma C4_unit_lifecycle_witness :
  (∀ fn w3, panicked winding_down = false → Run P0 fn winding_down = Returns () w3 →
     ∃ n wm, tracker_state P0 winding_down = Some n
       ∧ wg_Add (wg P0) 1 winding_down = Returns () wm
       ∧ tracker_state P0 wm = Some (n + 1)%Z
       ∧ goroutines wm = goroutines winding_down
       ∧ go P0 (Run_acquire fn) wm = Returns () w3
       ∧ tracker_state P0 w3 = Some (n + 1)%Z
       ∧ at_pc w3 (length (goroutines winding_down)) P0 (Run_acquire fn))
  ∧ (∀ fn wx wx', Run P0 fn wx = Panics wx' → goroutines wx' = goroutines wx)
  ∧ (∀ e w3 i a, step e winding_down = Some w3 → at_pc winding_down i P0 a →
       ∃ a', at_pc w3 i P0 a' ∧ (a' = a ∨ unit_progress P0 a a' winding_down w3))
  ∧ tracker_state P0 winding_down
    = Some (Z.of_nat (tally outstanding P0 (goroutines winding_down)))
  ∧ (∀ i a a', panicked winding_down = false → at_pc winding_down i P0 a →
       (a = Run_body [] ∧ a' = Run_release) ∨ (a = Run_release ∧ a' = Run_done)
       ∨ (a = Run_done ∧ a' = Run_exit) →
       ∃ w3, step (Go i) winding_down = Some w3 ∧ at_pc w3 i P0 a'
         ∧ panicked w3 = false ∧ unit_progress P0 a a' winding_down w3).
Proof.
  apply (C4_unit_lifecycle empty_world 2 P0 (one_pool 2)
           [CallRun P0 []; CallRun P0 []; Go 0; Go 0; Go 0; Go 1; Go 1] winding_down).
  - exists []. reflexivity.
  - reflexivity.
  - vm_compute. reflexivity.
Defined.

(** ** C2: when the result stream is closed *)

Lemma tally_pos P p (gs : list goroutine) :
  1 ≤ tally P p gs → ∃ i a, gs !! i = Some {| g_pool := p; g_pc := a |} ∧ P a = true.
Proof.
  induction gs as [|g gs IH]; simpl; [lia|]. intros H.
  unfold counts in H.
  destruct (bool_decide (g_pool g = p) && P (g_pc g)) eqn:E.
  - apply andb_true_iff in E as [E1%bool_decide_eq_true E2].
    exists 0, (g_pc g). simpl. split; [|done]. rewrite <- E1. f_equal. apply goroutine_eta.
  - destruct IH as (i & a & Hi & Ha); [simpl in H; lia|]. exists (S i), a. done.
Qed.

Lemma waiter_progress_of_effect w i p a a' e w' :
  statement_effect w i p a a' e w' → waiter_progress p a a' w w'.
Proof.
  unfold statement_effect, waiter_progress, permit_state, tracker_state, stream_state.
  destruct a as [fn|[|v rest]| | | | | | | ]; try done.
  - intros (-> & _ & Hn & _). done.
  - intros (-> & _ & c & Hc & Hcl & ->). simpl.
    rewrite list_lookup_insert_eq by (by eapply lookup_lt_Some).
    rewrite Hc. simpl. by rewrite Hcl.
  - intros (-> & _ & c & Hc & Hcl & ->). simpl.
    rewrite list_lookup_insert_eq by (by eapply lookup_lt_Some).
    rewrite Hc. simpl. by rewrite Hcl.
Qed.

(** The step at which goroutine [i] of pool [p] arrives at program point
    [a'], in a schedule that starts where it is not there. *)
Lemma exec_arrival tr w w' i p a' :
  world_ok w →
  exec tr w = Some w' → ¬ at_pc w i p a' → at_pc w' i p a' →
  ∃ tr1 e tr2 wa wb,
    tr = tr1 ++ e :: tr2 ∧ exec tr1 w = Some wa ∧ step e wa = Some wb
    ∧ exec tr2 wb = Some w' ∧ world_ok wa ∧ at_pc wb i p a'
    ∧ ((∃ a, at_pc wa i p a ∧ a ≠ a' ∧ statement_effect wa i p a a' e wb)
       ∨ (goroutines wa !! i = None
          ∧ ((∃ fn, e = CallRun p fn ∧ a' = Run_acquire fn)
             ∨ (e = CallWait p ∧ a' = Wait_wg)))).
Proof.
  intros Hok Hex Hn Hy.
  destruct (exec_flip (λ x, at_pc x i p a') tr w w' (λ x, at_pc_dec x i p a') Hex Hn Hy)
    as (tr1 & e & tr2 & wa & wb & -> & H1 & H2 & H3 & Hna & Hyb).
  exists tr1, e, tr2, wa, wb.
  pose proof (exec_ok _ _ _ Hok H1) as Hoka.
  split_and!; try done.
  pose proof (step_moves _ _ _ H2) as Hm.
  destruct (moves_pc_back _ _ _ _ _ _ Hm Hyb) as [(a0 & H0 & _)|Hsp]; [|by right].
  left. exists a0. assert (a0 ≠ a') as Hne by (intros ->; done).
  split; [done|]. split; [done|]. by eapply moves_transition.
Qed.

Lemma seen_zero_extend p w1 tr i tr' : seen_zero p w1 tr i → seen_zero p w1 (tr ++ tr') i.
Proof.
  intros (tr0 & tr0' & tr2 & wa & -> & H).
  exists tr0, tr0', (tr2 ++ tr'), wa. split; [|done].
  by rewrite <- !app_assoc.
Qed.

Section history.
Context (p : Pool) (w1 : world).
Hypothesis Hok : world_ok w1.
Hypothesis Hfresh : ∀ i a, ¬ at_pc w1 i p a.

Lemma waiter_was_started tr w2 i :
  exec tr w1 = Some w2 → at_pc w2 i p Wait_wg →
  ∃ tr0 tr0', tr = tr0 ++ CallWait p :: tr0'.
Proof.
  intros Hex Hi.
  destruct (exec_arrival _ _ _ _ _ _ Hok Hex (Hfresh _ _) Hi)
    as (tr1 & e & tr2 & wa & wb & -> & _ & _ & _ & _ & _ & Hhow).
  destruct Hhow as [(a & _ & _ & Heff)|(_ & [(fn & _ & ?)|(-> & _)])]; [|done|eauto].
  destruct a as [fn|[|v rest]| | | | | | | ]; simpl in Heff; try done;
    by destruct Heff as (? & _).
Qed.

Lemma passed_barrier tr w2 i :
  exec tr w1 = Some w2 → at_pc w2 i p Wait_closeErrors → seen_zero p w1 tr i.
Proof.
  intros Hex Hi.
  destruct (exec_arrival _ _ _ _ _ _ Hok Hex (Hfresh _ _) Hi)
    as (tr1 & e & tr2 & wa & wb & -> & H1 & _ & _ & _ & _ & Hhow).
  destruct Hhow as [(a & Ha & _ & Heff)|(_ & [(fn & _ & ?)|(_ & ?)])]; [|done|done].
  destruct a as [fn|[|v rest]| | | | | | | ]; simpl in Heff; try done;
    try (by destruct Heff as (? & _)).
  destruct Heff as (_ & -> & Hz & _).
  destruct (waiter_was_started _ _ _ H1 Ha) as (tr0 & tr0' & ->).
  exists tr0, tr0', tr2, wa. done.
Qed.

Lemma closed_Errors_history tr w2 i :
  exec tr w1 = Some w2 → at_pc w2 i p Wait_closeSemaphore → seen_zero p w1 tr i.
Proof.
  intros Hex Hi.
  destruct (exec_arrival _ _ _ _ _ _ Hok Hex (Hfresh _ _) Hi)
    as (tr1 & e & tr2 & wa & wb & -> & H1 & _ & _ & _ & _ & Hhow).
  destruct Hhow as [(a & Ha & _ & Heff)|(_ & [(fn & _ & ?)|(_ & ?)])]; [|done|done].
  destruct a as [fn|[|v rest]| | | | | | | ]; simpl in Heff; try done;
    try (by destruct Heff as (? & _)).
  apply seen_zero_extend. by eapply passed_barrier.
Qed.

Lemma closed_semaphore_history tr w2 i :
  exec tr w1 = Some w2 → at_pc w2 i p Wait_exit → seen_zero p w1 tr i.
Proof.
  intros Hex Hi.
  destruct (exec_arrival _ _ _ _ _ _ Hok Hex (Hfresh _ _) Hi)
    as (tr1 & e & tr2 & wa & wb & -> & H1 & _ & _ & _ & _ & Hhow).
  destruct Hhow as [(a & Ha & _ & Heff)|(_ & [(fn & _ & ?)|(_ & ?)])]; [|done|done].
  destruct a as [fn|[|v rest]| | | | | | | ]; simpl in Heff; try done;
    try (by destruct Heff as (? & _)).
  apply seen_zero_extend. by eapply closed_Errors_history.
Qed.

Lemma closed_history tr w2 :
  p ∈ pools w1 →
  exec tr w1 = Some w2 →
  closed <$> stream_state p w2 = Some true →
  ∃ i, seen_zero p w1 tr i.
Proof.
  intros Hp Hex Hcl.
  pose proof (exec_ok _ _ _ Hok Hex) as Hok2.
  pose proof (exec_pools_mono _ _ _ _ Hex Hp) as Hp2.
  destruct (ok_pools _ Hok2 _ Hp2) as [(ce & Ee & _ & _ & Ecl) _ _].
  unfold stream_state in Hcl. rewrite Ee in Hcl. simpl in Hcl. injection Hcl as Hcl.
  rewrite Hcl in Ecl. simpl in Ecl.
  destruct (tally_pos has_closed_Errors p (goroutines w2)) as (i & a & Hi & Ha); [lia|].
  exists i. destruct a; try done.
  - by eapply closed_Errors_history.
  - by eapply closed_semaphore_history.
Qed.
End history.

Lemma tally_mono P Q p gs :
  (∀ a, P a = true → Q a = true) → tally P p gs ≤ tally Q p gs.
Proof.
  intros HPQ. induction gs as [|g gs IH]; simpl; [done|].
  unfold counts. destruct (bool_decide (g_pool g = p)); simpl; [|lia].
  destruct (P (g_pc g)) eqn:E; [rewrite (HPQ _ E)|destruct (Q (g_pc g))]; lia.
Qed.

(** C2.  On a pool made by [New], after any schedule [tr]:
    - if [p.Errors] is closed, then earlier in [tr] there was a call of
      [Wait] and, after it, a moment at which the goroutine it started
      found the wait-group counter at zero;
    - conversely, once a goroutine started by [Wait] stands at
      [p.wg.Wait()] with the counter at zero and [p.Errors] still open,
      nothing holds it back: its three statements can run, they close
      [p.Errors] and then [p.semaphore], and none of them panics;
    - [Wait] itself returns at once: it only starts that goroutine;
    - the number of goroutines that have executed [close(p.Errors)] is one
      if the channel is closed and zero if not, and likewise for
      [close(p.semaphore)]: neither close ever takes effect twice;
    - a goroutine started by [Wait] executes its statements in order,
      each once: it gets past [p.wg.Wait()] only with the counter at zero,
      then closes [p.Errors], then [p.semaphore], and never moves again. *)
Theorem C2_close_protocol (w : world) (N : Z) (p : Pool) (w1 : world)
    (tr : list event) (w2 : world) :
  reachable w → New N w = Returns p w1 → exec tr w1 = Some w2 →
  (closed <$> stream_state p w2 = Some true → ∃ i, seen_zero p w1 tr i)
  ∧ (∀ i, panicked w2 = false → at_pc w2 i p Wait_wg →
       tracker_state p w2 = Some 0%Z → closed <$> stream_state p w2 = Some false →
       ∃ w3 w4 w5,
         step (Go i) w2 = Some w3 ∧ step (Go i) w3 = Some w4 ∧ step (Go i) w4 = Some w5
         ∧ at_pc w3 i p Wait_closeErrors
         ∧ at_pc w4 i p Wait_closeSemaphore ∧ closed <$> stream_state p w4 = Some true
         ∧ at_pc w5 i p Wait_exit ∧ closed <$> permit_state p w5 = Some true
         ∧ panicked w5 = false)
  ∧ (panicked w2 = false → step (CallWait p) w2 = Some (spawn p Wait_wg w2))
  ∧ (∃ ce cs, stream_state p w2 = Some ce ∧ permit_state p w2 = Some cs
       ∧ tally has_closed_Errors p (goroutines w2) = Nat.b2n (closed ce)
       ∧ tally has_closed_semaphore p (goroutines w2) = Nat.b2n (closed cs))
  ∧ (∀ e w3 i a, step e w2 = Some w3 → at_pc w2 i p a →
       ∃ a', at_pc w3 i p a' ∧ (a' = a ∨ waiter_progress p a a' w2 w3)).
Proof.
  intros Hr HN Hex.
  pose proof (reachable_ok _ Hr) as Hok.
  pose proof (New_ok _ _ _ _ Hok HN) as Hok1.
  pose proof (New_in_pools _ _ _ _ HN) as Hp1.
  pose proof (exec_ok _ _ _ Hok1 Hex) as Hok2.
  pose proof (exec_pools_mono _ _ _ _ Hex Hp1) as Hp2.
  destruct (ok_pools _ Hok2 _ Hp2)
    as [(ce & Ee & Ecap & Ebuf & Ecl) (cs & Es & Scap & Slen & Sle & Scl) Ew].
  split_and!.
  - intros Hcl.
    exact (closed_history p w1 Hok1 (λ i a, New_fresh_goroutines _ _ _ _ i a Hok HN)
             tr w2 Hp1 Hex Hcl).
  - intros i Hnp Hi Hz Hopen.
    unfold stream_state in Hopen. rewrite Ee in Hopen. simpl in Hopen.
    injection Hopen as Hopen.
    assert (closed cs = false) as Hsopen.
    { destruct (closed cs) eqn:E; [|done]. rewrite Hopen in Ecl. simpl in *.
      assert (tally has_closed_semaphore p (goroutines w2)
              ≤ tally has_closed_Errors p (goroutines w2)) as H
        by (apply tally_mono; by intros []).
      lia. }
    set (w3 := set_pc i Wait_closeErrors w2).
    set (w4 := set_pc i Wait_closeSemaphore
                 (put_error (Errors p) (Chan (cap ce) (buf ce) true) w3)).
    set (w5 := set_pc i Wait_exit
                 (put_bool (semaphore p) (Chan (cap cs) (buf cs) true) w4)).
    assert (at_pc w3 i p Wait_closeErrors) as H3 by (by eapply at_pc_set_pc_eq).
    assert (at_pc w4 i p Wait_closeSemaphore) as H4.
    { apply (at_pc_set_pc_eq (put_error (Errors p) (Chan (cap ce) (buf ce) true) w3)
               _ _ Wait_closeErrors). exact H3. }
    assert (at_pc w5 i p Wait_exit) as H5.
    { apply (at_pc_set_pc_eq (put_bool (semaphore p) (Chan (cap cs) (buf cs) true) w4)
               _ _ Wait_closeSemaphore). exact H4. }
    exists w3, w4, w5. split_and!; try done.
    + apply moves_step; [done|]. by apply (m_barrier w2 i p).
    + apply moves_step; [done|]. by apply (m_closeErrors w3 i p ce).
    + apply moves_step; [done|]. by apply (m_closeSemaphore w4 i p cs).
    + unfold stream_state. simpl.
      rewrite list_lookup_insert_eq by (by eapply lookup_lt_Some). done.
    + unfold permit_state. simpl.
      rewrite list_lookup_insert_eq by (by eapply lookup_lt_Some). done.
  - intros Hnp. apply moves_step; [done|]. by apply m_wait.
  - exists ce, cs. done.
  - intros e w3 i a Hs Hi. apply step_moves in Hs.
    destruct (moves_pc _ _ _ _ _ _ Hs Hi) as [H|(a' & H & _)].
    + exists a. auto.
    + exists a'. split; [done|].
      destruct (decide (a = a')) as [->|Hne]; [by left|]. right.
      eapply waiter_progress_of_effect. by eapply moves_transition.
Qed.

Lemma C2_close_protocol_witness :
  (closed <$> stream_state P0 closing_pool = Some true →
     ∃ i, seen_zero P0 (one_pool 1) [CallWait P0; Go 0; Go 0] i)
  ∧ (∀ i, panicked closing_pool = false → at_pc closing_pool i P0 Wait_wg →
       tracker_state P0 closing_pool = Some 0%Z →
       closed <$> stream_state P0 closing_pool = Some false →
       ∃ w3 w4 w5,
         step (Go i) closing_pool = Some w3 ∧ step (Go i) w3 = Some w4
         ∧ step (Go i) w4 = Some w5
         ∧ at_pc w3 i P0 Wait_closeErrors
         ∧ at_pc w4 i P0 Wait_closeSemaphore ∧ closed <$> stream_state P0 w4 = Some true
         ∧ at_pc w5 i P0 Wait_exit ∧ closed <$> permit_state P0 w5 = Some true
         ∧ panicked w5 = false)
  ∧ (panicked closing_pool = false →
       step (CallWait P0) closing_pool = Some (spawn P0 Wait_wg closing_pool))
  ∧ (∃ ce cs, stream_state P0 closing_pool = Some ce ∧ permit_state P0 closing_pool = Some cs
       ∧ tally has_closed_Errors P0 (goroutines closing_pool) = Nat.b2n (closed ce)
       ∧ tally has_closed_semaphore P0 (goroutines closing_pool) = Nat.b2n (closed cs))
  ∧ (∀ e w3 i a, step e closing_pool = Some w3 → at_pc closing_pool i P0 a →
       ∃ a', at_pc w3 i P0 a' ∧ (a' = a ∨ waiter_progress P0 a a' closing_pool w3)).
Proof.
  apply (C2_close_protocol empty_world 1 P0 (one_pool 1)
           [CallWait P0; Go 0; Go 0] closing_pool).
  - exists []. reflexivity.
  - reflexivity.
  - vm_compute. reflexivity.
Defined.

(** ** The documented use: invariants *)

Lemma use_inv early p e cl w cl' w' :
  use early p e (cl, w) = Some (cl', w') →
  step e w = Some w'
  ∧ match e with
    | CallNew _ => False
    | CallRun q fn =>
        q = p ∧ todo cl = fn :: todo cl' ∧ waited cl' = waited cl
        ∧ ranging cl' = ranging cl
    | CallWait q =>
        q = p ∧ todo cl = [] ∧ waited cl = false
        ∧ todo cl' = [] ∧ waited cl' = true ∧ ranging cl' = ranging cl
    | Recv q =>
        q = p ∧ receiving early cl = true ∧ todo cl' = todo cl
        ∧ waited cl' = waited cl ∧ ranging cl' = negb (saw_Closed p w')
    | Deliver _ => receiving early cl = true ∧ cl' = cl
    | Go _ | Handoff _ _ => cl' = cl
    end.
Proof.
  unfold use. simpl. destruct e as [c|q fn|q|i|i j|i|q].
  - done.
  - destruct (todo cl) as [|f rest] eqn:Ht; [done|].
    case_bool_decide as Hd; [|done]. destruct Hd as [-> ->].
    destruct (step _ w) as [w1|]; simpl; [|done]. intros [= <- <-]. done.
  - case_bool_decide as Hd; [|done]. destruct Hd as (-> & Ht & Hw).
    destruct (step _ w) as [w1|]; simpl; [|done]. intros [= <- <-]. done.
  - destruct (step _ w) as [w1|]; simpl; [|done]. intros [= <- <-]. done.
  - destruct (step _ w) as [w1|]; simpl; [|done]. intros [= <- <-]. done.
  - destruct (receiving early cl) eqn:Hr; [|done].
    destruct (step _ w) as [w1|]; simpl; [|done]. intros [= <- <-]. done.
  - case_bool_decide as Hd; simpl; [|done]. subst q.
    destruct (receiving early cl) eqn:Hr; [|done].
    destruct (step _ w) as [w1|]; simpl; [|done]. intros [= <- <-]. done.
Qed.

Lemma pending_app gs gs' : pending (gs ++ gs') = pending gs ++ pending gs'.
Proof. unfold pending. by rewrite fmap_app, join_app. Qed.

Lemma pending_alter i (gs : list goroutine) q a a' :
  gs !! i = Some {| g_pool := q; g_pc := a |} →
  pending (alter (λ g, {| g_pool := g_pool g; g_pc := a' |}) i gs) ++ pending_of a
  ≡ₚ pending gs ++ pending_of a'.
Proof.
  revert i. induction gs as [|g gs IH]; intros [|i] Hi; simpl in *; try done.
  - injection Hi as ->. unfold pending. simpl. solve_Permutation.
  - specialize (IH _ Hi). unfold pending in *. simpl. unfold alter in IH.
    rewrite <- !app_assoc. by rewrite IH.
Qed.

Lemma work_alter i (gs : list goroutine) q a a' :
  gs !! i = Some {| g_pool := q; g_pc := a |} →
  sum_list_with (λ g, remaining (g_pc g))
    (alter (λ g, {| g_pool := g_pool g; g_pc := a' |}) i gs) + remaining a
  = sum_list_with (λ g, remaining (g_pc g)) gs + remaining a'.
Proof.
  revert i. induction gs as [|g gs IH]; intros [|i] Hi; simpl in *; try done.
  - injection Hi as ->. simpl. lia.
  - specialize (IH _ Hi). unfold alter in *. lia.
Qed.

Lemma pending_cons g gs : pending (g :: gs) = pending_of (g_pc g) ++ pending gs.
Proof. done. Qed.

Lemma pending_none p gs :
  (∀ g, g ∈ gs → g_pool g = p) → tally outstanding p gs = 0 → pending gs = [].
Proof.
  induction gs as [|g gs IH]; intros Hall Ht; [done|]. simpl in Ht.
  rewrite pending_cons.
  rewrite IH; [|intros; apply Hall; by right|lia].
  unfold counts in Ht. rewrite bool_decide_eq_true_2 in Ht by (apply Hall; by left).
  simpl in Ht. destruct (g_pc g); simpl in *; try done; lia.
Qed.

Lemma tally_disjoint P Q R p gs :
  (∀ a, P a = true → R a = true) → (∀ a, Q a = true → R a = true) →
  (∀ a, P a = true → Q a = true → False) →
  tally P p gs + tally Q p gs ≤ tally R p gs.
Proof.
  intros HP HQ HPQ. induction gs as [|g gs IH]; simpl; [done|].
  unfold counts. destruct (bool_decide (g_pool g = p)); simpl; [|lia].
  destruct (P (g_pc g)) eqn:EP, (Q (g_pc g)) eqn:EQ;
    try (exfalso; by eapply HPQ);
    try rewrite (HP _ EP); try rewrite (HQ _ EQ); try destruct (R (g_pc g)); lia.
Qed.

Lemma values_app rs rs' : values (rs ++ rs') = values rs ++ values rs'.
Proof. unfold values. by rewrite omap_app. Qed.

Lemma values_Got vs : values (Got <$> vs) = vs.
Proof.
  induction vs as [|v vs IH]; [done|].
  change (values (Got <$> v :: vs)) with (v :: values (Got <$> vs)). by rewrite IH.
Qed.

Lemma pending_alter_same i (gs : list goroutine) q a a' :
  gs !! i = Some {| g_pool := q; g_pc := a |} → pending_of a = pending_of a' →
  pending (alter (λ g, {| g_pool := g_pool g; g_pc := a' |}) i gs) ≡ₚ pending gs.
Proof.
  intros Hi Heq. pose proof (pending_alter i gs q a a' Hi) as H.
  rewrite Heq in H. by apply Permutation_app_inv_r in H.
Qed.

Lemma pending_alter_push i (gs : list goroutine) q v rest :
  gs !! i = Some {| g_pool := q; g_pc := Run_body (v :: rest) |} →
  v :: pending (alter (λ g, {| g_pool := g_pool g; g_pc := Run_body rest |}) i gs)
  ≡ₚ pending gs.
Proof.
  intros Hi. pose proof (pending_alter i gs q _ (Run_body rest) Hi) as H. simpl in H.
  apply (Permutation_app_inv_r rest). rewrite <- H. simpl. solve_Permutation.
Qed.

Lemma drained_Closed p w : saw_Closed p (note (Errors p) Closed w) = true.
Proof.
  unfold saw_Closed. rewrite drained_note; rewrite decide_True by done.
  by rewrite last_snoc.
Qed.

Lemma single_pool w p i q a : world_ok w → pools w = [p] → at_pc w i q a → q = p.
Proof.
  intros Hok Hs Hi. apply (world_ok_at _ _ _ _ Hok) in Hi. rewrite Hs in Hi.
  by apply list_elem_of_singleton in Hi.
Qed.

Ltac census Hi p a' :=
  pose proof (tally_alter holds_permit p _ _ _ _ a' Hi);
  pose proof (tally_alter outstanding p _ _ _ _ a' Hi);
  pose proof (tally_alter has_closed_Errors p _ _ _ _ a' Hi);
  pose proof (tally_alter has_closed_semaphore p _ _ _ _ a' Hi);
  pose proof (tally_alter is_waiter p _ _ _ _ a' Hi);
  pose proof (tally_alter past_barrier p _ _ _ _ a' Hi);
  rewrite !counts_same in *; simpl in *.

Lemma waiters_bound p gs :
  tally has_closed_Errors p gs ≤ tally past_barrier p gs
  ∧ tally has_closed_semaphore p gs ≤ tally has_closed_Errors p gs
  ∧ tally past_barrier p gs ≤ tally is_waiter p gs.
Proof. split_and!; apply tally_mono; by intros []. Qed.

Lemma use_step_ok early p fns e s s' :
  use_ok p fns s → use early p e s = Some s' → use_ok p fns s'.
Proof.
  destruct s as [cl w], s' as [cl' w'].
  intros [Hok Hsingle Hlive Hwt Hwd Hbar Hrg (vs & Hdr & Hperm)] Huse.
  simpl in *.
  apply use_inv in Huse as [Hstep Hcl].
  apply step_moves in Hstep.
  pose proof (moves_ok _ _ _ Hok Hstep) as Hok'.
  assert (p ∈ pools w) as Hp by (rewrite Hsingle; by apply list_elem_of_singleton).
  destruct (ok_pools _ Hok _ Hp)
    as [(ce & Ee & Ecap & Ebuf & Ecl) (cs & Es & Scap & Slen & Sle & Scl) Ew].
  pose proof (waiters_bound p (goroutines w)) as (Hb1 & Hb2 & Hb3).
  destruct Hstep as [e Hpn|c Hc|c Hc|q fn n Hq Hn Hle|q Hq
      |k q fn c Hk Hs Hcl' Hlt|k q v rest c Hk He Hcl' Hlt|k q Hk
      |k q c b rest Hk Hs Hb|k q c Hk Hs Hb Hcl'|k q n Hk Hn Hle
      |k q Hk Hn|k q c Hk He Hcl'|k q c Hk Hs Hcl'
      |k j q r fn c Hk Hj Hqr Hs Hcl' Hb Hcap|k q v rest c Hk He Hcl' Hb Hcap
      |q c v rest Hq He Hb|q c Hq He Hb Hcl'];
    try done;
    try (pose proof (single_pool _ _ _ _ _ Hok Hsingle Hk); subst q).
  - (* panics do not occur *)
    exfalso.
    destruct Hpn as [q fn Hin Hw|k q fn c Hk Hs Hcl'|k q v rest c Hk He Hcl'
      |k q Hk Hw|k q Hk Hw|k q Hk Hc|k q Hk Hc];
      try (pose proof (single_pool _ _ _ _ _ Hok Hsingle Hk); subst q).
    + destruct Hcl as (-> & _). unfold wg_add_panics in Hw. rewrite Ew in Hw. lia.
    + rewrite Es in Hs. injection Hs as <-. rewrite Hcl' in Scl. simpl in Scl.
      pose proof (tally_at outstanding _ _ _ _ Hk eq_refl). lia.
    + rewrite Ee in He. injection He as <-. rewrite Hcl' in Ecl. simpl in Ecl.
      pose proof (tally_at outstanding _ _ _ _ Hk eq_refl). lia.
    + unfold wg_add_panics in Hw. rewrite Ew in Hw.
      pose proof (tally_at outstanding _ _ _ _ Hk eq_refl). lia.
    + congruence.
    + unfold close_panics in Hc. rewrite Ee in Hc. rewrite Hc in Ecl. simpl in Ecl.
      assert (tally has_closed_Errors p (goroutines w)
              + tally (λ a, bool_decide (a = Wait_closeErrors)) p (goroutines w)
              ≤ tally is_waiter p (goroutines w)) as H.
      { apply tally_disjoint; intros []; done. }
      pose proof (tally_at (λ a, bool_decide (a = Wait_closeErrors)) _ _ _ _ Hk eq_refl).
      assert (tally is_waiter p (goroutines w) ≤ 1)
        by (rewrite Hwt; destruct (waited cl); simpl; lia).
      lia.
    + unfold close_panics in Hc. rewrite Es in Hc. rewrite Hc in Scl. simpl in Scl.
      assert (tally has_closed_semaphore p (goroutines w)
              + tally (λ a, bool_decide (a = Wait_closeSemaphore)) p (goroutines w)
              ≤ tally is_waiter p (goroutines w)) as H.
      { apply tally_disjoint; intros []; done. }
      pose proof (tally_at (λ a, bool_decide (a = Wait_closeSemaphore)) _ _ _ _ Hk eq_refl).
      assert (tally is_waiter p (goroutines w) ≤ 1)
        by (rewrite Hwt; destruct (waited cl); simpl; lia).
      lia.
  - (* Run *)
    destruct Hcl as (-> & Htodo & Hw' & Hr').
    split; simpl; rewrite ?Hw', ?Hr'; try done.
    all: rewrite ?tally_app; simpl; rewrite ?counts_same; simpl.
    + lia.
    + intros Hw. rewrite (Hwd Hw) in Htodo. done.
    + intros Hge. destruct Hbar as [Ht _]; [lia|]. rewrite Ht in Htodo. done.
    + exists vs. split; [exact Hdr|]. rewrite pending_app, <- Hperm, Htodo.
      unfold pending. simpl. solve_Permutation.
  - (* Wait *)
    destruct Hcl as (-> & Ht & Hw & Ht' & Hw' & Hr').
    split; simpl; rewrite ?Hw', ?Hr', ?Ht'; try done.
    all: rewrite ?tally_app; simpl; rewrite ?counts_same; simpl.
    + rewrite Hw in Hwt. simpl in Hwt. lia.
    + intros Hge. destruct Hbar as [_ ?]; [lia|]. split; [done|lia].
    + exists vs. split; [exact Hdr|]. rewrite pending_app, <- Hperm, Ht.
      unfold pending. simpl. solve_Permutation.
  - (* acquire *)
    subst cl'. census Hk p (Run_body fn).
    split; simpl; try done.
    + lia.
    + intros Hge. destruct Hbar as [? ?]; [lia|]. split; [done|lia].
    + exists vs. split; [exact Hdr|]. by rewrite (pending_alter_same _ _ _ _ _ Hk).
  - (* a buffered send on Errors *)
    rewrite Ee in He. injection He as <-. rewrite Ecap, Ebuf in Hlt. simpl in Hlt. lia.
  - (* fn returns *)
    subst cl'. census Hk p Run_release.
    split; simpl; try done.
    + lia.
    + intros Hge. destruct Hbar as [? ?]; [lia|]. split; [done|lia].
    + exists vs. split; [exact Hdr|]. by rewrite (pending_alter_same _ _ _ _ _ Hk).
  - (* release *)
    subst cl'. census Hk p Run_done.
    split; simpl; try done.
    + lia.
    + intros Hge. destruct Hbar as [? ?]; [lia|]. split; [done|lia].
    + exists vs. split; [exact Hdr|]. by rewrite (pending_alter_same _ _ _ _ _ Hk).
  - (* release on a closed, empty semaphore *)
    rewrite Es in Hs. injection Hs as <-. rewrite Hb in Slen. simpl in Slen.
    pose proof (tally_at holds_permit _ _ _ _ Hk eq_refl). lia.
  - (* Done *)
    subst cl'. census Hk p Run_exit.
    split; simpl; try done.
    + lia.
    + intros Hge. destruct Hbar as [? ?]; [lia|]. split; [done|lia].
    + exists vs. split; [exact Hdr|]. by rewrite (pending_alter_same _ _ _ _ _ Hk).
  - (* wg.Wait returns *)
    subst cl'. census Hk p Wait_closeErrors.
    pose proof (tally_at is_waiter _ _ _ _ Hk eq_refl).
    split; simpl; try done.
    + lia.
    + intros _. rewrite Ew in Hn. injection Hn as Hn.
      split; [|lia]. apply Hwd. destruct (waited cl); [done|simpl in *; lia].
    + exists vs. split; [exact Hdr|]. by rewrite (pending_alter_same _ _ _ _ _ Hk).
  - (* close(p.Errors) *)
    subst cl'. census Hk p Wait_closeSemaphore.
    split; simpl; try done.
    + lia.
    + intros Hge. destruct Hbar as [? ?]; [lia|]. split; [done|lia].
    + intros _. unfold stream_state. simpl.
      rewrite list_lookup_insert_eq by (by eapply lookup_lt_Some). done.
    + exists vs. split; [exact Hdr|]. by rewrite (pending_alter_same _ _ _ _ _ Hk).
  - (* close(p.semaphore) *)
    subst cl'. census Hk p Wait_exit.
    split; simpl; try done.
    + lia.
    + intros Hge. destruct Hbar as [? ?]; [lia|]. split; [done|lia].
    + exists vs. split; [exact Hdr|]. by rewrite (pending_alter_same _ _ _ _ _ Hk).
  - (* handoff *)
    pose proof (single_pool _ _ _ _ _ Hok Hsingle Hj); subst r.
    rewrite Es in Hs. injection Hs as <-. rewrite Hb in Slen. simpl in Slen.
    pose proof (tally_at holds_permit _ _ _ _ Hj eq_refl). lia.
  - (* deliver *)
    destruct Hcl as [Hrecv ->]. census Hk p (Run_body rest).
    assert (ranging cl = true) as Hrt.
    { unfold receiving in Hrecv. by apply andb_true_iff in Hrecv as [? _]. }
    rewrite Hrt in *.
    split; simpl; try done.
    + lia.
    + intros Hge. destruct Hbar as [? ?]; [lia|]. split; [done|lia].
    + intros ?. congruence.
    + rewrite ?Hrt. exists (vs ++ [v]). split.
      * rewrite drained_note; rewrite decide_True by done.
        change (drained p (set_pc k (Run_body rest) w)) with (drained p w).
        rewrite Hdr, fmap_app, !app_nil_r. done.
      * rewrite <- Hperm, <- (pending_alter_push _ _ _ _ _ Hk). solve_Permutation.
  - (* a consumer takes a parked value *)
    destruct Hcl as (-> & _). rewrite Ee in He. injection He as <-.
    by rewrite Ebuf in Hb.
  - (* a consumer sees the stream closed *)
    destruct Hcl as (-> & Hrecv & Ht' & Hw' & Hr').
    rewrite drained_Closed in Hr'. simpl in Hr'.
    assert (ranging cl = true) as Hrt.
    { unfold receiving in Hrecv. by apply andb_true_iff in Hrecv as [? _]. }
    rewrite Hrt in *.
    split; simpl; rewrite ?Ht', ?Hw', ?Hr'; try done.
    + intros _. unfold stream_state. simpl. rewrite He. simpl. by rewrite Hcl'.
    + exists vs. split; [|done].
      rewrite drained_note; rewrite decide_True by done. rewrite Hdr, app_nil_r. done.
Qed.

(** Every step of the documented use brings the program strictly closer
    to its end. *)
Lemma use_effort early p fns e s s' :
  use_ok p fns s → use early p e s = Some s' → effort s' < effort s.
Proof.
  intros Hu Huse. pose proof (use_step_ok _ _ _ _ _ _ Hu Huse) as Hu'.
  destruct s as [cl w], s' as [cl' w'].
  destruct Hu as [Hok Hsingle Hlive Hwt Hwd Hbar Hrg (vs & Hdr & Hperm)].
  pose proof (u_live _ _ _ Hu') as Hlive'.
  simpl in *.
  apply use_inv in Huse as [Hstep Hcl].
  apply step_moves in Hstep.
  assert (p ∈ pools w) as Hp by (rewrite Hsingle; by apply list_elem_of_singleton).
  destruct (ok_pools _ Hok _ Hp)
    as [(ce & Ee & Ecap & Ebuf & Ecl) (cs & Es & Scap & Slen & Sle & Scl) Ew].
  unfold effort.
  destruct Hstep as [e Hpn|c Hc|c Hc|q fn n Hq Hn Hle|q Hq
      |k q fn c Hk Hs Hcl' Hlt|k q v rest c Hk He Hcl' Hlt|k q Hk
      |k q c b rest Hk Hs Hb|k q c Hk Hs Hb Hcl'|k q n Hk Hn Hle
      |k q Hk Hn|k q c Hk He Hcl'|k q c Hk Hs Hcl'
      |k j q r fn c Hk Hj Hqr Hs Hcl' Hb Hcap|k q v rest c Hk He Hcl' Hb Hcap
      |q c v rest Hq He Hb|q c Hq He Hb Hcl'];
    try done; simpl;
    try (match goal with
         | |- context [alter (λ g, {| g_pool := g_pool g; g_pc := ?a' |}) k _] =>
             pose proof (work_alter k _ _ _ a' Hk) as Hwork; simpl in Hwork
         end).
  - destruct Hcl as (-> & Htodo & Hw' & Hr'). rewrite Htodo, Hw', Hr'.
    rewrite sum_list_with_app. simpl. lia.
  - destruct Hcl as (-> & Ht & Hw & Ht' & Hw' & Hr'). rewrite Ht, Hw, Ht', Hw', Hr'.
    rewrite sum_list_with_app. simpl. lia.
  - subst cl'. lia.
  - subst cl'. lia.
  - subst cl'. lia.
  - subst cl'. lia.
  - subst cl'. lia.
  - subst cl'. lia.
  - subst cl'. lia.
  - subst cl'. lia.
  - subst cl'. lia.
  - pose proof (single_pool _ _ _ _ _ Hok Hsingle Hk); subst q.
    pose proof (single_pool _ _ _ _ _ Hok Hsingle Hj); subst r.
    rewrite Es in Hs. injection Hs as <-. rewrite Hb in Slen. simpl in Slen.
    pose proof (tally_at holds_permit _ _ _ _ Hj eq_refl). lia.
  - destruct Hcl as [_ ->]. lia.
  - destruct Hcl as (-> & _). rewrite Ee in He. injection He as <-.
    by rewrite Ebuf in Hb.
  - destruct Hcl as (-> & Hrecv & Ht' & Hw' & Hr').
    rewrite drained_Closed in Hr'. simpl in Hr'.
    assert (ranging cl = true) as Hrt.
    { unfold receiving in Hrecv. by apply andb_true_iff in Hrecv as [? _]. }
    rewrite Ht', Hw', Hr', Hrt. lia.
Qed.

Lemma uses_ok early p fns tr s s' :
  use_ok p fns s → uses early p tr s = Some s' →
  use_ok p fns s' ∧ length tr + effort s' ≤ effort s.
Proof.
  revert s. induction tr as [|e tr IH]; intros s Hu; simpl.
  - intros [= <-]. split; [done|lia].
  - destruct (use early p e s) as [s1|] eqn:Hs; [|done]. intros Hex.
    pose proof (use_effort _ _ _ _ _ _ Hu Hs).
    destruct (IH s1) as [? ?]; [by eapply use_step_ok|done|]. split; [done|lia].
Qed.

Lemma use_ok_start c p w1 fns :
  New c empty_world = Returns p w1 → use_ok p fns (start fns, w1).
Proof.
  intros HN.
  pose proof (New_returns _ _ _ _ HN) as (_ & _ & Hpools & _ & _ & _ & Hg & Hnp).
  pose proof (New_ok _ _ _ _ world_ok_empty HN) as Hok.
  split; simpl; try done.
  - by rewrite Hg.
  - rewrite Hg. simpl. lia.
  - exists []. rewrite Hg. split; [|done].
    revert HN.
    unfold New, mbind, M_bind, new_WaitGroup, make_error_chan, make_bool_chan, publish.
    simpl. unfold make_chan. destruct (Z.ltb_spec c 0); simpl; [done|].
    by intros [= <- <-].
Qed.

(** ** The documented use: the end is reached, and is right *)

Lemma use_final p fns cl w :
  use_ok p fns (cl, w) → ranging cl = false →
  ∃ vs, drained p w = (Got <$> vs) ++ [Closed] ∧ vs ≡ₚ mjoin fns.
Proof.
  intros [Hok Hsingle Hlive Hwt Hwd Hbar Hrg (vs & Hdr & Hperm)] Hr. simpl in *.
  assert (p ∈ pools w) as Hp by (rewrite Hsingle; by apply list_elem_of_singleton).
  destruct (ok_pools _ Hok _ Hp) as [(ce & Ee & _ & _ & Ecl) _ _].
  pose proof (waiters_bound p (goroutines w)) as (Hb1 & _ & _).
  specialize (Hrg Hr). unfold stream_state in Hrg. rewrite Ee in Hrg.
  simpl in Hrg. injection Hrg as Hrg. rewrite Hrg in Ecl. simpl in Ecl.
  destruct Hbar as [Ht Hout]; [lia|].
  rewrite Hr in Hdr. exists vs. split; [done|].
  rewrite <- Hperm, Ht. rewrite (pending_none p); [| |done].
  - simpl. by rewrite app_nil_r.
  - intros g Hg. apply (ok_owner _ Hok) in Hg. rewrite Hsingle in Hg.
    by apply list_elem_of_singleton in Hg.
Qed.

Lemma use_Go early p i cl w w' :
  step (Go i) w = Some w' → use early p (Go i) (cl, w) = Some (cl, w').
Proof. intros H. unfold use. simpl. by rewrite H. Qed.

Lemma use_Deliver early p i cl w w' :
  receiving early cl = true → step (Deliver i) w = Some w' →
  use early p (Deliver i) (cl, w) = Some (cl, w').
Proof. intros Hr H. unfold use. simpl. by rewrite Hr, H. Qed.

Lemma use_progress early p fns cl w cs :
  use_ok p fns (cl, w) → permit_state p w = Some cs → (1 ≤ cap cs)%Z →
  ranging cl = true →
  ∃ e s', use early p e (cl, w) = Some s'.
Proof.
  intros [Hok Hsingle Hlive Hwt Hwd Hbar Hrg (vs & Hdr & Hperm)] Hcs Hcap Hr.
  simpl in *.
  assert (p ∈ pools w) as Hp by (rewrite Hsingle; by apply list_elem_of_singleton).
  destruct (ok_pools _ Hok _ Hp)
    as [(ce & Ee & Ecap & Ebuf & Ecl) (cs' & Es & Scap & Slen & Sle & Scl) Ew].
  unfold permit_state in Hcs. rewrite Es in Hcs. injection Hcs as ->.
  pose proof (waiters_bound p (goroutines w)) as (Hb1 & Hb2 & Hb3).
  destruct (todo cl) as [|f rest] eqn:Ht.
  2:{ destruct (Run_step w p f Hok Hp Hlive) as (n & _ & Hrun).
      exists (CallRun p f). eexists. unfold use. simpl. rewrite Ht.
      rewrite bool_decide_eq_true_2 by done. rewrite Hrun. done. }
  destruct (waited cl) eqn:Hw.
  2:{ exists (CallWait p). eexists. unfold use. simpl.
      rewrite bool_decide_eq_true_2 by done.
      rewrite (moves_step _ _ _ Hlive (m_wait w p Hp)). done. }
  assert (receiving early cl = true) as Hrecv.
  { unfold receiving. rewrite Hr, Hw. by rewrite orb_true_r. }
  simpl in Hwt.
  destruct (tally_pos is_waiter p (goroutines w)) as (j & a & Hj & Ha); [lia|].
  destruct a; try done.
  - (* the waiter is at p.wg.Wait() *)
    assert (tally past_barrier p (goroutines w) = 0) as Hpast.
    { assert (tally past_barrier p (goroutines w)
              + tally (λ a, bool_decide (a = Wait_wg)) p (goroutines w)
              ≤ tally is_waiter p (goroutines w)) as H
        by (apply tally_disjoint; intros []; done).
      pose proof (tally_at (λ a, bool_decide (a = Wait_wg)) w j p _ Hj eq_refl). lia. }
    assert (closed ce = false) as Hce by (destruct (closed ce); simpl in *; [lia|done]).
    assert (closed cs = false) as Hcsf by (destruct (closed cs); simpl in *; [lia|done]).
    destruct (tally outstanding p (goroutines w)) as [|n] eqn:Hout.
    { exists (Go j). eexists. apply use_Go, moves_step; [done|].
      by apply (m_barrier w j p). }
    destruct (tally holds_permit p (goroutines w)) as [|m] eqn:Hh.
    + destruct (tally_pos outstanding p (goroutines w)) as (i & b & Hi & Hb); [lia|].
      destruct b as [fn|rest| | | | | | | ]; try done.
      * exists (Go i). eexists. apply use_Go, moves_step; [done|].
        apply (m_acquire w i p fn cs); try done. lia.
      * pose proof (tally_at holds_permit w i p _ Hi eq_refl). lia.
      * pose proof (tally_at holds_permit w i p _ Hi eq_refl). lia.
      * exists (Go i). eexists. apply use_Go, moves_step; [done|].
        apply (m_done w i p _ Hi Ew). lia.
    + destruct (tally_pos holds_permit p (goroutines w)) as (i & b & Hi & Hb); [lia|].
      destruct b as [fn|[|v rest]| | | | | | | ]; try done.
      * exists (Go i). eexists. apply use_Go, moves_step; [done|].
        by apply (m_return w i p).
      * exists (Deliver i). eexists. apply use_Deliver; [done|]. apply moves_step; [done|].
        apply (m_deliver w i p v rest ce); try done. lia.
      * destruct (buf cs) as [|b0 rest] eqn:Hbuf; [simpl in Slen; lia|].
        exists (Go i). eexists. apply use_Go, moves_step; [done|].
        by apply (m_release w i p cs b0 rest).
  - (* the waiter is at close(p.Errors) *)
    exists (Go j).
    destruct (closed ce) eqn:Hce; eexists; apply use_Go, moves_step; try done.
    + apply m_panic. apply (pn_closeErrors w j p Hj).
      unfold close_panics. by rewrite Ee.
    + by apply (m_closeErrors w j p ce).
  - (* the waiter is at close(p.semaphore) *)
    exists (Go j).
    destruct (closed cs) eqn:Hcsf; eexists; apply use_Go, moves_step; try done.
    + apply m_panic. apply (pn_closeSemaphore w j p Hj).
      unfold close_panics. by rewrite Es.
    + by apply (m_closeSemaphore w j p cs).
  - (* the waiter has finished *)
    pose proof (tally_at has_closed_Errors w j p _ Hj eq_refl).
    assert (closed ce = true) as Hce by (destruct (closed ce); simpl in *; [done|lia]).
    exists (Recv p). eexists. unfold use. simpl.
    rewrite bool_decide_eq_true_2 by done. rewrite Hrecv. simpl.
    rewrite (moves_step _ _ _ Hlive (m_recv_closed w p ce Hp Ee Ebuf Hce)). done.
Qed.

Lemma uses_exec early p tr s s' :
  uses early p tr s = Some s' → exec tr s.2 = Some s'.2.
Proof.
  revert s. induction tr as [|e tr IH]; intros [cl w]; simpl.
  - by intros [= <-].
  - destruct (use early p e (cl, w)) as [[cl1 w1]|] eqn:Hu; [|done].
    apply use_inv in Hu as [-> _]. apply IH.
Qed.

(** The four facts about a run of the documented use, for units that
    push any number of values. *)
Lemma use_outcome early c p w1 fns tr cl w :
  (1 ≤ c)%Z →
  New c empty_world = Returns p w1 →
  uses early p tr (start fns, w1) = Some (cl, w) →
  length tr ≤ effort (start fns, w1)
  ∧ (ranging cl = true → ∃ e s', use early p e (cl, w) = Some s')
  ∧ (ranging cl = true → ∃ got, drained p w = Got <$> got ∧ got ⊆+ mjoin fns)
  ∧ (ranging cl = false →
       ∃ got, drained p w = (Got <$> got) ++ [Closed] ∧ got ≡ₚ mjoin fns).
Proof.
  intros Hc HN Hrun.
  pose proof (use_ok_start _ _ _ fns HN) as Hu0.
  destruct (uses_ok _ _ _ _ _ _ Hu0 Hrun) as [Hu Hlen].
  split_and!.
  - lia.
  - intros Hr.
    pose proof (New_returns _ _ _ _ HN) as (_ & _ & _ & _ & Hs & _).
    apply uses_exec in Hrun. simpl in Hrun.
    destruct (exec_cap_bool _ _ _ _ _ Hrun Hs) as (cs & Hcs & Hcap). simpl in Hcap.
    eapply use_progress; try done. lia.
  - intros Hr. destruct (u_drained _ _ _ Hu) as (got & Hdr & Hperm). simpl in *.
    rewrite Hr, app_nil_r in Hdr. exists got. split; [done|].
    rewrite <- Hperm. by apply submseteq_inserts_r.
  - intros Hr. by eapply use_final.
Qed.

Lemma effort_start fns w1 :
  goroutines w1 = [] →
  effort (start fns, w1) = sum_list_with (λ fn : list (option string), 5 + length fn) fns + 5.
Proof. intros Hg. unfold effort. simpl. rewrite Hg. simpl. lia. Qed.

Lemma one_push_each (fns : list (list (option string))) :
  Forall (λ fn, length fn = 1) fns →
  length (mjoin fns) = length fns
  ∧ sum_list_with (λ fn : list (option string), 5 + length fn) fns = 6 * length fns.
Proof.
  induction 1 as [|fn fns Hfn _ [IH1 IH2]]; [done|]. simpl in *.
  rewrite length_app, IH1. lia.
Qed.

Lemma inbox_known_moves w e w' : moves w e w' → inbox_known w → inbox_known w'.
Proof.
  intros Hm Hin l r.
  destruct Hm; simpl; rewrite ?length_app, ?length_insert; simpl;
    try (intros Hx; apply Hin in Hx; lia);
    intros [Hx|Hx%list_elem_of_singleton]%elem_of_app;
    try (apply Hin in Hx; lia);
    injection Hx as -> ->;
    match goal with
    | He : chans_error _ !! _ = Some _ |- _ => by apply lookup_lt_Some in He
    end.
Qed.

Lemma inbox_known_reachable w : reachable w → inbox_known w.
Proof.
  intros [tr Htr]. revert Htr.
  assert (inbox_known empty_world) as H0 by (intros l r H; by apply not_elem_of_nil in H).
  revert H0. generalize empty_world. induction tr as [|e tr IH]; intros w0 H0; simpl.
  - by intros [= <-].
  - destruct (step e w0) as [w1|] eqn:Hs; [|done].
    apply IH. eapply inbox_known_moves; [by apply step_moves|done].
Qed.

Lemma filter_none {A : Type} (P : A → Prop) `{∀ x, Decision (P x)} (l : list A) :
  (∀ x, x ∈ l → ¬ P x) → filter P l = [].
Proof.
  induction l as [|x l IH]; intros Hall; [done|].
  rewrite filter_cons, decide_False by (apply Hall; by left).
  apply IH. intros y Hy. apply Hall. by right.
Qed.

Lemma New_extends c w :
  match New c w with
  | Returns _ w1 =>
      (∃ se, chans_error w1 = chans_error w ++ se)
      ∧ (∃ sb, chans_bool w1 = chans_bool w ++ sb)
      ∧ (∃ sw, waitgroups w1 = waitgroups w ++ sw)
      ∧ goroutines w1 = goroutines w ∧ inbox w1 = inbox w
  | Panics w1 =>
      (c < 0)%Z
      ∧ (∃ se, chans_error w1 = chans_error w ++ se)
      ∧ (∃ sb, chans_bool w1 = chans_bool w ++ sb)
      ∧ (∃ sw, waitgroups w1 = waitgroups w ++ sw)
      ∧ goroutines w1 = goroutines w ∧ inbox w1 = inbox w
  | Blocks => False
  end.
Proof.
  unfold New, mbind, M_bind, new_WaitGroup, make_error_chan, make_bool_chan, publish.
  simpl. unfold make_chan. destruct (Z.ltb_spec c 0); simpl.
  - split_and!; eauto. exists []. by rewrite app_nil_r.
  - split_and!; eauto.
Qed.

(** ** The documented use inside a larger program: invariants *)

Lemma own_goroutine w i p q a :
  at_pc w i q a →
  bool_decide (g_pool <$> goroutines w !! i = Some p) = bool_decide (q = p).
Proof.
  unfold at_pc. intros ->. simpl. apply bool_decide_ext. split; congruence.
Qed.

Lemma own_acts_on p w e : own p w e = true ↔ acts_on p w e.
Proof.
  assert (∀ i, bool_decide (g_pool <$> goroutines w !! i = Some p) = true
               ↔ owned_by p w i) as Hg.
  { intros i. rewrite bool_decide_eq_true. unfold owned_by, at_pc.
    destruct (goroutines w !! i) as [[q a]|]; simpl; split.
    - intros [= ->]. by exists a.
    - by intros (b & [= -> _]).
    - done.
    - by intros (b & ?). }
  destruct e; simpl; rewrite ?orb_true_iff, ?Hg, ?bool_decide_eq_true; done.
Qed.

Lemma pending_in_app p gs gs' :
  pending_in p (gs ++ gs') = pending_in p gs ++ pending_in p gs'.
Proof. unfold pending_in. by rewrite fmap_app, join_app. Qed.

Lemma work_in_app p gs gs' : work_in p (gs ++ gs') = work_in p gs + work_in p gs'.
Proof. unfold work_in. by rewrite sum_list_with_app. Qed.

Lemma pending_in_alter p i (gs : list goroutine) a a' :
  gs !! i = Some {| g_pool := p; g_pc := a |} →
  pending_in p (alter (λ g, {| g_pool := g_pool g; g_pc := a' |}) i gs) ++ pending_of a
  ≡ₚ pending_in p gs ++ pending_of a'.
Proof.
  revert i. induction gs as [|g gs IH]; intros [|i] Hi; simpl in *; try done.
  - injection Hi as ->. unfold pending_in. simpl.
    rewrite bool_decide_eq_true_2 by done. solve_Permutation.
  - specialize (IH _ Hi). unfold pending_in in *. simpl.
    rewrite <- !app_assoc. apply Permutation_app_head. exact IH.
Qed.

Lemma pending_in_same p i (gs : list goroutine) a a' :
  gs !! i = Some {| g_pool := p; g_pc := a |} → pending_of a = pending_of a' →
  pending_in p (alter (λ g, {| g_pool := g_pool g; g_pc := a' |}) i gs)
  ≡ₚ pending_in p gs.
Proof.
  intros Hi Heq. pose proof (pending_in_alter p i gs a a' Hi) as H.
  rewrite Heq in H. by apply Permutation_app_inv_r in H.
Qed.

Lemma pending_in_push p i (gs : list goroutine) v rest :
  gs !! i = Some {| g_pool := p; g_pc := Run_body (v :: rest) |} →
  v :: pending_in p (alter (λ g, {| g_pool := g_pool g; g_pc := Run_body rest |}) i gs)
  ≡ₚ pending_in p gs.
Proof.
  intros Hi. pose proof (pending_in_alter p i gs _ (Run_body rest) Hi) as H. simpl in H.
  apply (Permutation_app_inv_r rest). rewrite <- H. simpl. solve_Permutation.
Qed.

Lemma work_in_alter p i (gs : list goroutine) a a' :
  gs !! i = Some {| g_pool := p; g_pc := a |} →
  work_in p (alter (λ g, {| g_pool := g_pool g; g_pc := a' |}) i gs) + remaining a
  = work_in p gs + remaining a'.
Proof.
  revert i. induction gs as [|g gs IH]; intros [|i] Hi; simpl in *; try done.
  - injection Hi as ->. unfold work_in. simpl.
    rewrite bool_decide_eq_true_2 by done. lia.
  - specialize (IH _ Hi). unfold work_in, alter in *. simpl. lia.
Qed.

Lemma apart_alter p q i (gs : list goroutine) a a' :
  gs !! i = Some {| g_pool := q; g_pc := a |} → q ≠ p →
  pending_in p (alter (λ g, {| g_pool := g_pool g; g_pc := a' |}) i gs) = pending_in p gs
  ∧ work_in p (alter (λ g, {| g_pool := g_pool g; g_pc := a' |}) i gs) = work_in p gs.
Proof.
  intros Hi Hne. revert i Hi.
  induction gs as [|g gs IH]; intros [|i] Hi; simpl in *; try done.
  - injection Hi as ->. unfold pending_in, work_in. simpl.
    by rewrite bool_decide_eq_false_2 by done.
  - destruct (IH _ Hi) as [IH1 IH2]. unfold pending_in, work_in in *. simpl.
    split; f_equal; [exact IH1|exact IH2].
Qed.

Lemma apart_absent p gs :
  (∀ g, g ∈ gs → g_pool g ≠ p) → pending_in p gs = [] ∧ work_in p gs = 0.
Proof.
  induction gs as [|g gs IH]; intros Hall; [done|].
  destruct IH as [IH1 IH2]; [intros; apply Hall; by right|].
  unfold pending_in, work_in in *. simpl.
  rewrite bool_decide_eq_false_2 by (apply Hall; by left). simpl.
  split; [exact IH1|exact IH2].
Qed.

Lemma pending_in_cons p g gs :
  pending_in p (g :: gs)
  = (if bool_decide (g_pool g = p) then pending_of (g_pc g) else []) ++ pending_in p gs.
Proof. done. Qed.

Lemma pending_in_none p gs : tally outstanding p gs = 0 → pending_in p gs = [].
Proof.
  induction gs as [|g gs IH]; intros Ht; [done|]. simpl in Ht.
  rewrite pending_in_cons, IH by lia. rewrite app_nil_r.
  unfold counts in Ht. case_bool_decide; [|done].
  simpl in Ht. destruct (g_pc g); simpl in *; try done; lia.
Qed.

(** What is not an operation on [p] leaves [p] as it is. *)
Lemma moves_apart w e w' p :
  world_ok w → p ∈ pools w → moves w e w' → own p w e = false →
  (∀ P, tally P p (goroutines w') = tally P p (goroutines w))
  ∧ pending_in p (goroutines w') = pending_in p (goroutines w)
  ∧ work_in p (goroutines w') = work_in p (goroutines w)
  ∧ stream_state p w' = stream_state p w
  ∧ drained p w' = drained p w.
Proof.
  intros Hok Hp Hm Hown.
  pose proof (pool_ok_bounds _ _ (ok_pools _ Hok _ Hp)) as (Be & Bs & Bw).
  assert (∀ k q a, at_pc w k q a →
            bool_decide (g_pool <$> goroutines w !! k = Some p) = false →
            q ≠ p ∧ Errors q ≠ Errors p) as Hother.
  { intros k q a Hk Hb. rewrite (own_goroutine _ _ _ _ _ Hk) in Hb.
    apply bool_decide_eq_false in Hb. split; [done|].
    by apply (world_ok_ne w p q Hok Hp (world_ok_at _ _ _ _ Hok Hk) Hb). }
  unfold stream_state.
  destruct Hm as [e Hpn|c Hc|c Hc|q fn n Hq Hn Hle|q Hq
      |k q fn c Hk Hs Hcl' Hlt|k q v rest c Hk He Hcl' Hlt|k q Hk
      |k q c b rest Hk Hs Hb|k q c Hk Hs Hb Hcl'|k q n Hk Hn Hle
      |k q Hk Hn|k q c Hk He Hcl'|k q c Hk Hs Hcl'
      |k j q r fn c Hk Hj Hqr Hs Hcl' Hb Hcap|k q v rest c Hk He Hcl' Hb Hcap
      |q c v rest Hq He Hb|q c Hq He Hb Hcl'];
    simpl in Hown;
    try (apply orb_false_iff in Hown as [Hown Hown']);
    try (destruct (Hother _ _ _ Hk Hown) as [Hne HneE]).
  all: try (apply bool_decide_eq_false in Hown;
            pose proof (world_ok_ne w p q Hok Hp Hq Hown) as (HneE & _)).
  all: rewrite ?drained_note; simpl; rewrite ?decide_False by done;
    rewrite ?app_nil_r, ?list_lookup_insert_ne by done;
    rewrite ?lookup_app_l by done.
  all: try (split_and!; try done;
            first [ intros P; by apply (tally_alter_other P p q k _ _ _ Hk Hne)
                  | by apply (apart_alter p q k _ _ _ Hk Hne) ]).
  all: try (rewrite pending_in_app, work_in_app; unfold pending_in, work_in; simpl;
            rewrite bool_decide_eq_false_2 by done; simpl;
            rewrite ?app_nil_r, ?Nat.add_0_r;
            split_and!; try done; intros P;
            rewrite tally_app; simpl; rewrite counts_other by done; lia).
  (* handoff *)
  pose proof (world_ok_at _ _ _ _ Hok Hk) as Hq1.
  pose proof (world_ok_at _ _ _ _ Hok Hj) as Hq2.
  assert (q = r) as <- by (apply (ok_separate _ Hok); auto).
  destruct (ok_pools _ Hok _ Hq1) as [_ (cs & Es & _ & Slen & _) _].
  rewrite Es in Hs. injection Hs as <-. rewrite Hb in Slen. simpl in Slen.
  pose proof (tally_at holds_permit _ _ _ _ Hj eq_refl). lia.
Qed.

Lemma step_live e w w' : step e w = Some w' → panicked w = false.
Proof. unfold step. by destruct (panicked w). Qed.

(** An operation on [p] within the documented use keeps the invariant, and
    does not panic. *)
Lemma among_own_ok early p fns e s s' :
  among_ok p fns s → own p s.2 e = true → use early p e s = Some s' →
  among_ok p fns s' ∧ panicked s'.2 = false.
Proof.
  destruct s as [cl w], s' as [cl' w'].
  intros [Hok Hp Hwt Hwd Hbar Hrg (vs & Hdr & Hperm)] Hown Huse.
  simpl in *.
  apply use_inv in Huse as [Hstep Hcl].
  pose proof (step_live _ _ _ Hstep) as Hlive.
  apply step_moves in Hstep.
  pose proof (moves_ok _ _ _ Hok Hstep) as Hok'.
  destruct (ok_pools _ Hok _ Hp)
    as [(ce & Ee & Ecap & Ebuf & Ecl) (cs & Es & Scap & Slen & Sle & Scl) Ew].
  pose proof (waiters_bound p (goroutines w)) as (Hb1 & Hb2 & Hb3).
  assert (∀ k q a, at_pc w k q a →
            bool_decide (g_pool <$> goroutines w !! k = Some p) = true → q = p)
    as Hmine.
  { intros k q a Hk Hb. rewrite (own_goroutine _ _ _ _ _ Hk) in Hb.
    by apply bool_decide_eq_true in Hb. }
  destruct Hstep as [e Hpn|c Hc|c Hc|q fn n Hq Hn Hle|q Hq
      |k q fn c Hk Hs Hcl' Hlt|k q v rest c Hk He Hcl' Hlt|k q Hk
      |k q c b rest Hk Hs Hb|k q c Hk Hs Hb Hcl'|k q n Hk Hn Hle
      |k q Hk Hn|k q c Hk He Hcl'|k q c Hk Hs Hcl'
      |k j q r fn c Hk Hj Hqr Hs Hcl' Hb Hcap|k q v rest c Hk He Hcl' Hb Hcap
      |q c v rest Hq He Hb|q c Hq He Hb Hcl'];
    simpl in Hown; try done;
    try (pose proof (Hmine _ _ _ Hk Hown); subst q).
  - (* panics do not occur *)
    exfalso.
    destruct Hpn as [q fn Hin Hw|k q fn c Hk Hs Hcl'|k q v rest c Hk He Hcl'
      |k q Hk Hw|k q Hk Hw|k q Hk Hc|k q Hk Hc];
      simpl in Hown;
      try (pose proof (Hmine _ _ _ Hk Hown); subst q).
    + destruct Hcl as (-> & _). unfold wg_add_panics in Hw. rewrite Ew in Hw. lia.
    + rewrite Es in Hs. injection Hs as <-. rewrite Hcl' in Scl. simpl in Scl.
      pose proof (tally_at outstanding _ _ _ _ Hk eq_refl). lia.
    + rewrite Ee in He. injection He as <-. rewrite Hcl' in Ecl. simpl in Ecl.
      pose proof (tally_at outstanding _ _ _ _ Hk eq_refl). lia.
    + unfold wg_add_panics in Hw. rewrite Ew in Hw.
      pose proof (tally_at outstanding _ _ _ _ Hk eq_refl). lia.
    + congruence.
    + unfold close_panics in Hc. rewrite Ee in Hc. rewrite Hc in Ecl. simpl in Ecl.
      assert (tally has_closed_Errors p (goroutines w)
              + tally (λ a, bool_decide (a = Wait_closeErrors)) p (goroutines w)
              ≤ tally is_waiter p (goroutines w)) as H.
      { apply tally_disjoint; intros []; done. }
      pose proof (tally_at (λ a, bool_decide (a = Wait_closeErrors)) _ _ _ _ Hk eq_refl).
      assert (tally is_waiter p (goroutines w) ≤ 1)
        by (rewrite Hwt; destruct (waited cl); simpl; lia).
      lia.
    + unfold close_panics in Hc. rewrite Es in Hc. rewrite Hc in Scl. simpl in Scl.
      assert (tally has_closed_semaphore p (goroutines w)
              + tally (λ a, bool_decide (a = Wait_closeSemaphore)) p (goroutines w)
              ≤ tally is_waiter p (goroutines w)) as H.
      { apply tally_disjoint; intros []; done. }
      pose proof (tally_at (λ a, bool_decide (a = Wait_closeSemaphore)) _ _ _ _ Hk eq_refl).
      assert (tally is_waiter p (goroutines w) ≤ 1)
        by (rewrite Hwt; destruct (waited cl); simpl; lia).
      lia.
  - (* Run *)
    destruct Hcl as (-> & Htodo & Hw' & Hr').
    split; [|done]. split; simpl; rewrite ?Hw', ?Hr'; try done.
    all: rewrite ?tally_app; simpl; rewrite ?counts_same; simpl.
    + lia.
    + intros Hw. rewrite (Hwd Hw) in Htodo. done.
    + intros Hge. destruct Hbar as [Ht _]; [lia|]. rewrite Ht in Htodo. done.
    + exists vs. split; [exact Hdr|]. rewrite pending_in_app, <- Hperm, Htodo.
      unfold pending_in. simpl. rewrite bool_decide_eq_true_2 by done.
      solve_Permutation.
  - (* Wait *)
    destruct Hcl as (-> & Ht & Hw & Ht' & Hw' & Hr').
    split; [|done]. split; simpl; rewrite ?Hw', ?Hr', ?Ht'; try done.
    all: rewrite ?tally_app; simpl; rewrite ?counts_same; simpl.
    + rewrite Hw in Hwt. simpl in Hwt. lia.
    + intros Hge. destruct Hbar as [_ ?]; [lia|]. split; [done|lia].
    + exists vs. split; [exact Hdr|]. rewrite pending_in_app, <- Hperm, Ht.
      unfold pending_in. simpl. rewrite bool_decide_eq_true_2 by done.
      solve_Permutation.
  - (* acquire *)
    subst cl'. census Hk p (Run_body fn).
    split; [|done]. split; simpl; try done.
    + lia.
    + intros Hge. destruct Hbar as [? ?]; [lia|]. split; [done|lia].
    + exists vs. split; [exact Hdr|]. by rewrite (pending_in_same _ _ _ _ _ Hk).
  - (* a buffered send on Errors *)
    rewrite Ee in He. injection He as <-. rewrite Ecap, Ebuf in Hlt. simpl in Hlt. lia.
  - (* fn returns *)
    subst cl'. census Hk p Run_release.
    split; [|done]. split; simpl; try done.
    + lia.
    + intros Hge. destruct Hbar as [? ?]; [lia|]. split; [done|lia].
    + exists vs. split; [exact Hdr|]. by rewrite (pending_in_same _ _ _ _ _ Hk).
  - (* release *)
    subst cl'. census Hk p Run_done.
    split; [|done]. split; simpl; try done.
    + lia.
    + intros Hge. destruct Hbar as [? ?]; [lia|]. split; [done|lia].
    + exists vs. split; [exact Hdr|]. by rewrite (pending_in_same _ _ _ _ _ Hk).
  - (* release on a closed, empty semaphore *)
    rewrite Es in Hs. injection Hs as <-. rewrite Hb in Slen. simpl in Slen.
    pose proof (tally_at holds_permit _ _ _ _ Hk eq_refl). lia.
  - (* Done *)
    subst cl'. census Hk p Run_exit.
    split; [|done]. split; simpl; try done.
    + lia.
    + intros Hge. destruct Hbar as [? ?]; [lia|]. split; [done|lia].
    + exists vs. split; [exact Hdr|]. by rewrite (pending_in_same _ _ _ _ _ Hk).
  - (* wg.Wait returns *)
    subst cl'. census Hk p Wait_closeErrors.
    pose proof (tally_at is_waiter _ _ _ _ Hk eq_refl).
    split; [|done]. split; simpl; try done.
    + lia.
    + intros _. rewrite Ew in Hn. injection Hn as Hn.
      split; [|lia]. apply Hwd. destruct (waited cl); [done|simpl in *; lia].
    + exists vs. split; [exact Hdr|]. by rewrite (pending_in_same _ _ _ _ _ Hk).
  - (* close(p.Errors) *)
    subst cl'. census Hk p Wait_closeSemaphore.
    split; [|done]. split; simpl; try done.
    + lia.
    + intros Hge. destruct Hbar as [? ?]; [lia|]. split; [done|lia].
    + intros _. unfold stream_state. simpl.
      rewrite list_lookup_insert_eq by (by eapply lookup_lt_Some). done.
    + exists vs. split; [exact Hdr|]. by rewrite (pending_in_same _ _ _ _ _ Hk).
  - (* close(p.semaphore) *)
    subst cl'. census Hk p Wait_exit.
    split; [|done]. split; simpl; try done.
    + lia.
    + intros Hge. destruct Hbar as [? ?]; [lia|]. split; [done|lia].
    + exists vs. split; [exact Hdr|]. by rewrite (pending_in_same _ _ _ _ _ Hk).
  - (* handoff *)
    pose proof (world_ok_at _ _ _ _ Hok Hk) as Hq1.
    pose proof (world_ok_at _ _ _ _ Hok Hj) as Hq2.
    assert (q = r) as <- by (apply (ok_separate _ Hok); auto).
    destruct (ok_pools _ Hok _ Hq1) as [_ (cq & Eq & _ & Qlen & _) _].
    rewrite Eq in Hs. injection Hs as <-. rewrite Hb in Qlen. simpl in Qlen.
    pose proof (tally_at holds_permit _ _ _ _ Hj eq_refl). lia.
  - (* deliver *)
    destruct Hcl as [Hrecv ->]. census Hk p (Run_body rest).
    assert (ranging cl = true) as Hrt.
    { unfold receiving in Hrecv. by apply andb_true_iff in Hrecv as [? _]. }
    rewrite Hrt in *.
    split; [|done]. split; simpl; try done.
    + lia.
    + intros Hge. destruct Hbar as [? ?]; [lia|]. split; [done|lia].
    + intros ?. congruence.
    + rewrite ?Hrt. exists (vs ++ [v]). split.
      * rewrite drained_note; rewrite decide_True by done.
        change (drained p (set_pc k (Run_body rest) w)) with (drained p w).
        rewrite Hdr, fmap_app, !app_nil_r. done.
      * rewrite <- Hperm, <- (pending_in_push _ _ _ _ _ Hk). solve_Permutation.
  - (* a consumer takes a parked value *)
    destruct Hcl as (-> & _). rewrite Ee in He. injection He as <-.
    by rewrite Ebuf in Hb.
  - (* a consumer sees the stream closed *)
    destruct Hcl as (-> & Hrecv & Ht' & Hw' & Hr').
    rewrite drained_Closed in Hr'. simpl in Hr'.
    assert (ranging cl = true) as Hrt.
    { unfold receiving in Hrecv. by apply andb_true_iff in Hrecv as [? _]. }
    rewrite Hrt in *.
    split; [|done]. split; simpl; rewrite ?Ht', ?Hw', ?Hr'; try done.
    + intros _. unfold stream_state. simpl. rewrite He. simpl. by rewrite Hcl'.
    + exists vs. split; [|done].
      rewrite drained_note; rewrite decide_True by done. rewrite Hdr, app_nil_r. done.
Qed.

(** Every operation on [p] within the documented use brings its use
    strictly closer to its end. *)
Lemma among_own_effort early p fns e s s' :
  among_ok p fns s → own p s.2 e = true → use early p e s = Some s' →
  effort_in p s' < effort_in p s.
Proof.
  intros Hu Hown Huse.
  destruct (among_own_ok _ _ _ _ _ _ Hu Hown Huse) as [_ Hlive'].
  destruct s as [cl w], s' as [cl' w'].
  destruct Hu as [Hok Hp Hwt Hwd Hbar Hrg (vs & Hdr & Hperm)].
  simpl in *.
  apply use_inv in Huse as [Hstep Hcl].
  apply step_moves in Hstep.
  destruct (ok_pools _ Hok _ Hp)
    as [(ce & Ee & Ecap & Ebuf & Ecl) (cs & Es & Scap & Slen & Sle & Scl) Ew].
  assert (∀ k q a, at_pc w k q a →
            bool_decide (g_pool <$> goroutines w !! k = Some p) = true → q = p)
    as Hmine.
  { intros k q a Hk Hb. rewrite (own_goroutine _ _ _ _ _ Hk) in Hb.
    by apply bool_decide_eq_true in Hb. }
  unfold effort_in.
  destruct Hstep as [e Hpn|c Hc|c Hc|q fn n Hq Hn Hle|q Hq
      |k q fn c Hk Hs Hcl' Hlt|k q v rest c Hk He Hcl' Hlt|k q Hk
      |k q c b rest Hk Hs Hb|k q c Hk Hs Hb Hcl'|k q n Hk Hn Hle
      |k q Hk Hn|k q c Hk He Hcl'|k q c Hk Hs Hcl'
      |k j q r fn c Hk Hj Hqr Hs Hcl' Hb Hcap|k q v rest c Hk He Hcl' Hb Hcap
      |q c v rest Hq He Hb|q c Hq He Hb Hcl'];
    simpl in Hown; try done; simpl;
    try (pose proof (Hmine _ _ _ Hk Hown); subst q);
    try (match goal with
         | |- context [alter (λ g, {| g_pool := g_pool g; g_pc := ?a' |}) k _] =>
             pose proof (work_in_alter p k _ _ a' Hk) as Hwork; simpl in Hwork
         end).
  - destruct Hcl as (-> & Htodo & Hw' & Hr'). rewrite Htodo, Hw', Hr'.
    rewrite work_in_app. unfold work_in at 2. simpl.
    rewrite bool_decide_eq_true_2 by done. simpl. lia.
  - destruct Hcl as (-> & Ht & Hw & Ht' & Hw' & Hr'). rewrite Ht, Hw, Ht', Hw', Hr'.
    rewrite work_in_app. unfold work_in at 2. simpl.
    rewrite bool_decide_eq_true_2 by done. simpl. lia.
  - subst cl'. lia.
  - subst cl'. lia.
  - subst cl'. lia.
  - subst cl'. lia.
  - subst cl'. lia.
  - subst cl'. lia.
  - subst cl'. lia.
  - subst cl'. lia.
  - subst cl'. lia.
  - pose proof (world_ok_at _ _ _ _ Hok Hk) as Hq1.
    pose proof (world_ok_at _ _ _ _ Hok Hj) as Hq2.
    assert (q = r) as <- by (apply (ok_separate _ Hok); auto).
    destruct (ok_pools _ Hok _ Hq1) as [_ (cq & Eq & _ & Qlen & _) _].
    rewrite Eq in Hs. injection Hs as <-. rewrite Hb in Qlen. simpl in Qlen.
    pose proof (tally_at holds_permit _ _ _ _ Hj eq_refl). lia.
  - destruct Hcl as [_ ->]. lia.
  - destruct Hcl as (-> & _). rewrite Ee in He. injection He as <-.
    by rewrite Ebuf in Hb.
  - destruct Hcl as (-> & Hrecv & Ht' & Hw' & Hr').
    rewrite drained_Closed in Hr'. simpl in Hr'.
    assert (ranging cl = true) as Hrt.
    { unfold receiving in Hrecv. by apply andb_true_iff in Hrecv as [? _]. }
    rewrite Ht', Hw', Hr', Hrt. lia.
Qed.

(** Whatever else the program does leaves the use of [p] where it is. *)
Lemma among_other_ok p fns cl w e w' :
  among_ok p fns (cl, w) → own p w e = false → step e w = Some w' →
  among_ok p fns (cl, w') ∧ effort_in p (cl, w') = effort_in p (cl, w).
Proof.
  intros [Hok Hp Hwt Hwd Hbar Hrg (vs & Hdr & Hperm)] Hown Hstep. simpl in *.
  apply step_moves in Hstep.
  destruct (moves_apart _ _ _ _ Hok Hp Hstep Hown) as (Ht & Hpe & Hwo & Hst & Hd).
  split; [split; simpl|].
  - by eapply moves_ok.
  - by eapply moves_pools_mono.
  - by rewrite Ht.
  - done.
  - by rewrite !Ht.
  - by rewrite Hst.
  - exists vs. by rewrite Hd, Hpe.
  - unfold effort_in. simpl. by rewrite Hwo.
Qed.

Lemma uses_among_ok early p fns tr s s' :
  among_ok p fns s → uses_among early p tr s = Some s' →
  among_ok p fns s' ∧ own_steps p tr s.2 + effort_in p s' ≤ effort_in p s
  ∧ exec tr s.2 = Some s'.2.
Proof.
  revert s. induction tr as [|e tr IH]; intros [cl w] Hu; simpl.
  - intros [= <-]. split_and!; [done|lia|done].
  - unfold use_among. simpl. destruct (own p w e) eqn:Hown.
    + destruct (use early p e (cl, w)) as [[cl1 w1]|] eqn:Hs; [|done]. intros Hrun.
      destruct (among_own_ok _ _ _ _ _ _ Hu Hown Hs) as [Hu1 _].
      pose proof (among_own_effort _ _ _ _ _ _ Hu Hown Hs) as Hlt.
      apply use_inv in Hs as [-> _].
      destruct (IH _ Hu1 Hrun) as (? & ? & ?). simpl in *. split_and!; [done|lia|done].
    + destruct (step e w) as [w1|] eqn:Hs; [|done]. simpl. intros Hrun.
      destruct (among_other_ok _ _ _ _ _ _ Hu Hown Hs) as [Hu1 Heq].
      destruct (IH _ Hu1 Hrun) as (? & ? & ?). simpl in *. split_and!; [done|lia|done].
Qed.

(** A pool just made by [New], in any program, is ready for its use. *)
Lemma among_ok_start w c p w1 fns :
  reachable w → New c w = Returns p w1 →
  among_ok p fns (start fns, w1)
  ∧ effort_in p (start fns, w1)
    = sum_list_with (λ fn : list (option string), 5 + length fn) fns + 5.
Proof.
  intros Hr HN.
  pose proof (reachable_ok _ Hr) as Hok0.
  pose proof (New_ok _ _ _ _ Hok0 HN) as Hok.
  pose proof (New_in_pools _ _ _ _ HN) as Hp.
  pose proof (New_returns _ _ _ _ HN) as (_ & Ep & _ & _ & _ & _ & Hg & _).
  assert (∀ g, g ∈ goroutines w1 → g_pool g ≠ p) as Habs.
  { intros [q a] [i Hi]%list_elem_of_lookup. simpl. intros ->.
    by apply (New_fresh_goroutines _ _ _ _ i a Hok0 HN). }
  destruct (apart_absent p _ Habs) as [Hpe Hwo].
  assert (drained p w1 = []) as Hd.
  { pose proof (New_extends c w) as Hx. rewrite HN in Hx.
    destruct Hx as (_ & _ & _ & _ & Hin). unfold drained. rewrite Hin.
    rewrite filter_none; [done|].
    intros [l r] Hlr Heq. simpl in Heq.
    apply (inbox_known_reachable _ Hr) in Hlr. rewrite Heq, Ep in Hlr. simpl in Hlr. lia. }
  split; [split; simpl; try done|].
  - by rewrite tally_absent.
  - rewrite tally_absent by done. lia.
  - exists []. rewrite Hd, Hpe. done.
  - unfold effort_in. simpl. rewrite Hwo. lia.
Qed.

(** ** The documented use inside a larger program: the end is reached,
    and is right *)

Lemma among_final p fns cl w :
  among_ok p fns (cl, w) → ranging cl = false →
  ∃ vs, drained p w = (Got <$> vs) ++ [Closed] ∧ vs ≡ₚ mjoin fns.
Proof.
  intros [Hok Hp Hwt Hwd Hbar Hrg (vs & Hdr & Hperm)] Hr. simpl in *.
  destruct (ok_pools _ Hok _ Hp) as [(ce & Ee & _ & _ & Ecl) _ _].
  pose proof (waiters_bound p (goroutines w)) as (Hb1 & _ & _).
  specialize (Hrg Hr). unfold stream_state in Hrg. rewrite Ee in Hrg.
  simpl in Hrg. injection Hrg as Hrg. rewrite Hrg in Ecl. simpl in Ecl.
  destruct Hbar as [Ht Hout]; [lia|].
  rewrite Hr in Hdr. exists vs. split; [done|].
  rewrite <- Hperm, Ht. rewrite (pending_in_none p) by done.
  simpl. by rewrite app_nil_r.
Qed.

Lemma use_among_own early p e s :
  own p s.2 e = true → use_among early p e s = use early p e s.
Proof. intros H. unfold use_among. by rewrite H. Qed.

Lemma own_Go p w i a : at_pc w i p a → own p w (Go i) = true.
Proof.
  intros Hi. simpl. rewrite (own_goroutine _ _ _ _ _ Hi). by apply bool_decide_eq_true.
Qed.

Lemma among_progress early p fns cl w cs :
  among_ok p fns (cl, w) → panicked w = false →
  permit_state p w = Some cs → (1 ≤ cap cs)%Z →
  ranging cl = true →
  ∃ e s', own p w e = true ∧ use_among early p e (cl, w) = Some s'.
Proof.
  intros [Hok Hp Hwt Hwd Hbar Hrg (vs & Hdr & Hperm)] Hlive Hcs Hcap Hr.
  simpl in *.
  destruct (ok_pools _ Hok _ Hp)
    as [(ce & Ee & Ecap & Ebuf & Ecl) (cs' & Es & Scap & Slen & Sle & Scl) Ew].
  unfold permit_state in Hcs. rewrite Es in Hcs. injection Hcs as ->.
  pose proof (waiters_bound p (goroutines w)) as (Hb1 & Hb2 & Hb3).
  assert (∀ i a w', at_pc w i p a → moves w (Go i) w' →
            ∃ e s', own p w e = true ∧ use_among early p e (cl, w) = Some s') as Hgo.
  { intros i a w' Hi Hm. exists (Go i), (cl, w').
    pose proof (own_Go _ _ _ _ Hi) as Ho. split; [done|].
    rewrite use_among_own by done. by apply use_Go, moves_step. }
  destruct (todo cl) as [|f rest] eqn:Ht.
  2:{ destruct (Run_step w p f Hok Hp Hlive) as (n & _ & Hrun).
      exists (CallRun p f). eexists. split; [by apply bool_decide_eq_true|].
      rewrite use_among_own by (by apply bool_decide_eq_true).
      unfold use. simpl. rewrite Ht.
      rewrite bool_decide_eq_true_2 by done. rewrite Hrun. done. }
  destruct (waited cl) eqn:Hw.
  2:{ exists (CallWait p). eexists. split; [by apply bool_decide_eq_true|].
      rewrite use_among_own by (by apply bool_decide_eq_true).
      unfold use. simpl.
      rewrite bool_decide_eq_true_2 by done.
      rewrite (moves_step _ _ _ Hlive (m_wait w p Hp)). done. }
  assert (receiving early cl = true) as Hrecv.
  { unfold receiving. rewrite Hr, Hw. by rewrite orb_true_r. }
  simpl in Hwt.
  destruct (tally_pos is_waiter p (goroutines w)) as (j & a & Hj & Ha); [lia|].
  destruct a; try done.
  - (* the waiter is at p.wg.Wait() *)
    assert (tally past_barrier p (goroutines w) = 0) as Hpast.
    { assert (tally past_barrier p (goroutines w)
              + tally (λ a, bool_decide (a = Wait_wg)) p (goroutines w)
              ≤ tally is_waiter p (goroutines w)) as H
        by (apply tally_disjoint; intros []; done).
      pose proof (tally_at (λ a, bool_decide (a = Wait_wg)) w j p _ Hj eq_refl). lia. }
    assert (closed ce = false) as Hce by (destruct (closed ce); simpl in *; [lia|done]).
    assert (closed cs = false) as Hcsf by (destruct (closed cs); simpl in *; [lia|done]).
    destruct (tally outstanding p (goroutines w)) as [|n] eqn:Hout.
    { eapply (Hgo j _ _ Hj (m_barrier w j p Hj Ew)). }
    destruct (tally holds_permit p (goroutines w)) as [|m] eqn:Hh.
    + destruct (tally_pos outstanding p (goroutines w)) as (i & b & Hi & Hb); [lia|].
      destruct b as [fn|rest| | | | | | | ]; try done.
      * eapply (Hgo i _ _ Hi). apply (m_acquire w i p fn cs); try done. lia.
      * pose proof (tally_at holds_permit w i p _ Hi eq_refl). lia.
      * pose proof (tally_at holds_permit w i p _ Hi eq_refl). lia.
      * eapply (Hgo i _ _ Hi). apply (m_done w i p _ Hi Ew). lia.
    + destruct (tally_pos holds_permit p (goroutines w)) as (i & b & Hi & Hb); [lia|].
      destruct b as [fn|[|v rest]| | | | | | | ]; try done.
      * eapply (Hgo i _ _ Hi). by apply (m_return w i p).
      * exists (Deliver i). eexists.
        assert (own p w (Deliver i) = true) as Ho by exact (own_Go _ _ _ _ Hi).
        split; [done|]. rewrite use_among_own by done.
        apply use_Deliver; [done|]. apply moves_step; [done|].
        apply (m_deliver w i p v rest ce); try done. lia.
      * destruct (buf cs) as [|b0 rest] eqn:Hbuf; [simpl in Slen; lia|].
        eapply (Hgo i _ _ Hi). by apply (m_release w i p cs b0 rest).
  - (* the waiter is at close(p.Errors) *)
    destruct (closed ce) eqn:Hce.
    + eapply (Hgo j _ _ Hj). apply m_panic. apply (pn_closeErrors w j p Hj).
      unfold close_panics. by rewrite Ee.
    + eapply (Hgo j _ _ Hj). by apply (m_closeErrors w j p ce).
  - (* the waiter is at close(p.semaphore) *)
    destruct (closed cs) eqn:Hcsf.
    + eapply (Hgo j _ _ Hj). apply m_panic. apply (pn_closeSemaphore w j p Hj).
      unfold close_panics. by rewrite Es.
    + eapply (Hgo j _ _ Hj). by apply (m_closeSemaphore w j p cs).
  - (* the waiter has finished *)
    pose proof (tally_at has_closed_Errors w j p _ Hj eq_refl).
    assert (closed ce = true) as Hce by (destruct (closed ce); simpl in *; [done|lia]).
    exists (Recv p). eexists. split; [by apply bool_decide_eq_true|].
    rewrite use_among_own by (by apply bool_decide_eq_true).
    unfold use. simpl.
    rewrite bool_decide_eq_true_2 by done. rewrite Hrecv. simpl.
    rewrite (moves_step _ _ _ Hlive (m_recv_closed w p ce Hp Ee Ebuf Hce)). done.
Qed.

(** In a program whose only pool is [p], every step of [use] is an
    operation on [p]: the runs of [uses] are runs of [uses_among]. *)
Lemma use_is_own early p e cl w s' :
  world_ok w → pools w = [p] → use early p e (cl, w) = Some s' → own p w e = true.
Proof.
  intros Hok Hsingle Huse. destruct s' as [cl' w'].
  apply use_inv in Huse as [Hstep Hcl]. apply step_moves in Hstep.
  assert (∀ k q a, at_pc w k q a →
            bool_decide (g_pool <$> goroutines w !! k = Some p) = true) as Hmine.
  { intros k q a Hk. pose proof (single_pool _ _ _ _ _ Hok Hsingle Hk) as ->.
    exact (own_Go _ _ _ _ Hk). }
  destruct Hstep as [e Hpn|c Hc|c Hc|q fn n Hq Hn Hle|q Hq
      |k q fn c Hk Hs Hcl' Hlt|k q v rest c Hk He Hcl' Hlt|k q Hk
      |k q c b rest Hk Hs Hb|k q c Hk Hs Hb Hcl'|k q n Hk Hn Hle
      |k q Hk Hn|k q c Hk He Hcl'|k q c Hk Hs Hcl'
      |k j q r fn c Hk Hj Hqr Hs Hcl' Hb Hcap|k q v rest c Hk He Hcl' Hb Hcap
      |q c v rest Hq He Hb|q c Hq He Hb Hcl'];
    simpl; try done; try (by eapply Hmine);
    try (match goal with
         | |- bool_decide (_ = p) = true =>
             apply bool_decide_eq_true; by destruct Hcl as [? _]
         end).
  - destruct Hpn as [q fn Hin Hw|k q fn c Hk Hs Hcl'|k q v rest c Hk He Hcl'
      |k q Hk Hw|k q Hk Hw|k q Hk Hc|k q Hk Hc];
      simpl; try (by eapply Hmine).
    destruct Hcl as [-> _]. by apply bool_decide_eq_true.
  - rewrite (Hmine _ _ _ Hk). done.
Qed.

Lemma uses_among_closed early p fns tr s s' :
  use_ok p fns s → uses early p tr s = Some s' →
  uses_among early p tr s = Some s' ∧ own_steps p tr s.2 = length tr.
Proof.
  revert s. induction tr as [|e tr IH]; intros [cl w] Hu; simpl; [done|].
  destruct (use early p e (cl, w)) as [[cl1 w1]|] eqn:Hs; [|done]. intros Hrun.
  pose proof (use_is_own _ _ _ _ _ _ (u_world _ _ _ Hu) (u_single _ _ _ Hu) Hs) as Hown.
  simpl in Hown.
  destruct (IH _ (use_step_ok _ _ _ _ _ _ Hu Hs) Hrun) as [IH1 IH2].
  unfold use_among. simpl. rewrite Hown, Hs.
  apply use_inv in Hs as [-> _]. simpl in *. by rewrite IH1, IH2.
Qed.

(** ** C3: exactly M values, then closed *)

(** C3 (amended).  Take any program state, make a pool [p] of capacity at
    least one in it, and use [p] as documented with [M] units, each of
    which sends exactly one value on [p.Errors]: the units are submitted,
    [Wait] is called after the last [Run], and a consumer ranges over
    [p.Errors] (from the start, or only after [Wait]).  The rest of the
    program is free: it may make and use other pools in any way, in any
    interleaving with the use of [p].  Then for every interleaving [tr]:
    - the use of [p] is finite: [tr] has at most [6 M + 5] operations on
      [p];
    - no operation on [p] panics;
    - as long as the consumer's loop has not ended, and nothing else in
      the program has panicked, some operation on [p] is possible: the
      use of [p] does not get stuck before;
    - the values received so far are among the values sent, none twice;
    - when the loop has ended, the consumer has received exactly the [M]
      values (in some order) and then the closed signal.
    Together: every use of [p] that cannot be continued has drained
    exactly [M] values and then seen the stream closed.  (For capacity
    zero this fails: see the counterexample below.) *)
Theorem C3_drain_exactly_M (early : bool) (w0 : world) (c : Z) (p : Pool)
    (w1 : world) (fns : list func) (tr : list event) (cl : client) (w : world) :
  reachable w0 →
  (1 ≤ c)%Z →
  Forall (λ fn, length fn = 1) fns →
  New c w0 = Returns p w1 →
  uses_among early p tr (start fns, w1) = Some (cl, w) →
  own_steps p tr w1 ≤ 6 * length fns + 5
  ∧ (∀ e s', own p w e = true → use_among early p e (cl, w) = Some s' →
       panicked s'.2 = false)
  ∧ (ranging cl = true → panicked w = false →
       ∃ e s', own p w e = true ∧ use_among early p e (cl, w) = Some s')
  ∧ (ranging cl = true → ∃ got, drained p w = Got <$> got ∧ got ⊆+ mjoin fns)
  ∧ (ranging cl = false →
       ∃ got, drained p w = (Got <$> got) ++ [Closed]
         ∧ got ≡ₚ mjoin fns ∧ length got = length fns).
Proof.
  intros Hr Hc Hone HN Hrun.
  destruct (among_ok_start _ _ _ _ fns Hr HN) as [Hu0 Heff].
  destruct (uses_among_ok _ _ _ _ _ _ Hu0 Hrun) as (Hu & Hlen & Hex).
  destruct (one_push_each _ Hone) as [HM Hsum]. simpl in *.
  split_and!.
  - lia.
  - intros e s' Hown Huse. rewrite use_among_own in Huse by done.
    by destruct (among_own_ok _ _ _ _ _ _ Hu Hown Huse).
  - intros Hrg Hlive.
    pose proof (New_returns _ _ _ _ HN) as (_ & _ & _ & _ & Hs & _).
    destruct (exec_cap_bool _ _ _ _ _ Hex Hs) as (cs & Hcs & Hcap). simpl in Hcap.
    eapply among_progress; try done. lia.
  - intros Hrg. destruct (a_drained _ _ _ Hu) as (got & Hdr & Hperm). simpl in *.
    rewrite Hrg, app_nil_r in Hdr. exists got. split; [done|].
    rewrite <- Hperm. by apply submseteq_inserts_r.
  - intros Hrg. destruct (among_final _ _ _ _ Hu Hrg) as (got & Hdr & Hperm).
    exists got. split_and!; try done. by rewrite Hperm.
Qed.

Lemma C3_drain_exactly_M_witness :
  own_steps P1 mixed_run idle_pools ≤ 6 * length [[Some "a"]; [Some "b"]] + 5
  ∧ (∀ e s', own P1 mixed_done e = true →
       use_among false P1 e (finished, mixed_done) = Some s' → panicked s'.2 = false)
  ∧ (ranging finished = true → panicked mixed_done = false →
       ∃ e s', own P1 mixed_done e = true
         ∧ use_among false P1 e (finished, mixed_done) = Some s')
  ∧ (ranging finished = true →
       ∃ got, drained P1 mixed_done = Got <$> got
         ∧ got ⊆+ mjoin [[Some "a"]; [Some "b"]])
  ∧ (ranging finished = false →
       ∃ got, drained P1 mixed_done = (Got <$> got) ++ [Closed]
         ∧ got ≡ₚ mjoin [[Some "a"]; [Some "b"]]
         ∧ length got = length [[Some "a"]; [Some "b"]]).
Proof.
  apply (C3_drain_exactly_M false (one_pool 1) 2 P1 idle_pools
           [[Some "a"]; [Some "b"]] mixed_run finished mixed_done).
  - exists [CallNew 1]. reflexivity.
  - lia.
  - repeat constructor.
  - reflexivity.
  - vm_compute. reflexivity.
Defined.

(** With capacity zero the same use yields nothing: [New 0] returns a
    pool; one unit that sends one value is submitted and [Wait] is called;
    then no operation on the pool is possible any more, the consumer is
    still in its loop, it has received nothing, and [p.Errors] is open. *)
Lemma C3_counterexample :
  New 0 empty_world = Returns P0 (one_pool 0)
  ∧ Forall (λ fn : func, length fn = 1) [[None]]
  ∧ uses_among false P0 [CallRun P0 [None]; CallWait P0] (start [[None]], one_pool 0)
    = Some (waiting, stuck_pool)
  ∧ (∀ e, own P0 stuck_pool e = true →
       use_among false P0 e (waiting, stuck_pool) = None)
  ∧ ranging waiting = true
  ∧ drained P0 stuck_pool = []
  ∧ closed <$> stream_state P0 stuck_pool = Some false.
Proof.
  split_and!; try (vm_compute; done).
  - repeat constructor.
  - intros e He. rewrite use_among_own by done.
    destruct e as [c|q fn|q|i|i j|i|q]; try done.
    + unfold use. simpl. case_bool_decide as H; [by destruct H as (_ & _ & ?)|done].
    + by destruct i as [|[|i]].
    + by destruct i as [|[|i]], j as [|[|j]].
    + by destruct i as [|[|i]].
    + simpl in He. apply bool_decide_eq_true in He. by subst q.
Qed.

(** ** C8: a unit that sends nothing *)

(** C8 (amended).  A unit that returns without sending a value does not
    block the pool: its goroutine still gives its permit back and calls
    [Done].  Under the documented use of a pool of capacity at least one,
    whatever number of values each unit sends (none included), for every
    interleaving: the run is finite; as long as the consumer's loop has
    not ended some step is possible; and when the loop has ended, the
    goroutine started by [Wait] has found the counter at zero, and the
    consumer has received exactly the values that were sent and then the
    closed signal. *)
Theorem C8_silent_unit_no_hang (early : bool) (c : Z) (p : Pool) (w1 : world)
    (fns : list func) (tr : list event) (cl : client) (w : world) :
  (1 ≤ c)%Z →
  New c empty_world = Returns p w1 →
  uses early p tr (start fns, w1) = Some (cl, w) →
  length tr ≤ sum_list_with (λ fn : list (option string), 5 + length fn) fns + 5
  ∧ (ranging cl = true → ∃ e s', use early p e (cl, w) = Some s')
  ∧ (ranging cl = false →
       (∃ i, seen_zero p w1 tr i)
       ∧ ∃ got, drained p w = (Got <$> got) ++ [Closed] ∧ got ≡ₚ mjoin fns).
Proof.
  intros Hc HN Hrun.
  destruct (use_outcome _ _ _ _ _ _ _ _ Hc HN Hrun) as (Hlen & Hprog & _ & Hfin).
  pose proof (New_returns _ _ _ _ HN) as (_ & _ & _ & _ & _ & _ & Hg & _).
  rewrite effort_start in Hlen by done.
  split_and!; try done.
  intros Hr. split; [|by apply Hfin].
  pose proof (use_ok_start _ _ _ fns HN) as Hu0.
  destruct (uses_ok _ _ _ _ _ _ Hu0 Hrun) as [Hu _].
  pose proof (u_ranging _ _ _ Hu Hr) as Hcl. simpl in Hcl.
  apply uses_exec in Hrun. simpl in Hrun.
  apply (closed_history p w1 (New_ok _ _ _ _ world_ok_empty HN)
           (λ i a, New_fresh_goroutines _ _ _ _ i a world_ok_empty HN)
           tr w (New_in_pools _ _ _ _ HN) Hrun Hcl).
Qed.

Lemma C8_silent_unit_no_hang_witness :
  length silent_run ≤ sum_list_with (λ fn : list (option string), 5 + length fn) [[]] + 5
  ∧ (ranging finished = true →
       ∃ e s', use false P0 e (finished, silent_done) = Some s')
  ∧ (ranging finished = false →
       (∃ i, seen_zero P0 (one_pool 1) silent_run i)
       ∧ ∃ got, drained P0 silent_done = (Got <$> got) ++ [Closed] ∧ got ≡ₚ mjoin [[]]).
Proof.
  apply (C8_silent_unit_no_hang false 1 P0 (one_pool 1) [[]] silent_run
           finished silent_done).
  - lia.
  - reflexivity.
  - vm_compute. reflexivity.
Defined.

(** The claim as written fails for one unit that sends nothing: the
    goroutine started by [Wait] does find the counter at zero (its step
    [Go 1] after the unit's four steps), and the drain is signalled
    closed, having received no value. *)
Lemma C8_counterexample :
  New 1 empty_world = Returns P0 (one_pool 1)
  ∧ uses false P0 silent_run (start [[]], one_pool 1) = Some (finished, silent_done)
  ∧ (tracker_state P0 <$>
       exec [CallRun P0 []; CallWait P0; Go 0; Go 0; Go 0; Go 0] (one_pool 1))
     = Some (Some 0%Z)
  ∧ drained P0 silent_done = [Closed].
Proof. vm_compute. done. Qed.

(** ** C6: what misuse leads to *)

(** C6 (amended).  The pool checks nothing itself: [New], [Run] and
    [Wait] accept every misuse silently.  What the misuse leads to differs
    from case to case:
    - capacity zero: permanent blocking (no goroutine started by [Run]
      ever gets past its permit acquire);
    - negative capacity: [New] panics;
    - [Run] after the close has taken effect: the new goroutine panics at
      its permit acquire (send on closed channel), or, if only
      [p.Errors] is closed yet, at its first send on it;
    - [Wait] more than once: a goroutine that reaches [close(p.Errors)]
      when the channel is already closed panics;
    - a unit that sends no value, or several: neither blocking nor panic
      by itself; under the otherwise documented use, with a pool of
      capacity at least one, no run panics, every run can be continued
      until the consumer's loop ends, and then the consumer has received
      exactly the values sent and the closed signal. *)
Theorem C6_misuse_outcomes (w : world) :
  reachable w →
  (∀ p w1 tr w2 i a,
     New 0 w = Returns p w1 → exec tr w1 = Some w2 → at_pc w2 i p a →
     got_permit a = false)
  ∧ (∀ c, (c < 0)%Z → ∃ w1, New c w = Panics w1 ∧ panicked w1 = true)
  ∧ (∀ c p w1 tr w2,
       New c w = Returns p w1 → exec tr w1 = Some w2 → panicked w2 = false →
       (∀ fn, ∃ w3, step (CallRun p fn) w2 = Some w3 ∧ panicked w3 = false)
       ∧ step (CallWait p) w2 = Some (spawn p Wait_wg w2)
       ∧ (∀ i fn, closed <$> permit_state p w2 = Some true →
            at_pc w2 i p (Run_acquire fn) → step (Go i) w2 = Some (crashed w2))
       ∧ (∀ i v rest, closed <$> stream_state p w2 = Some true →
            at_pc w2 i p (Run_body (v :: rest)) → step (Go i) w2 = Some (crashed w2))
       ∧ (∀ j, closed <$> stream_state p w2 = Some true →
            at_pc w2 j p Wait_closeErrors → step (Go j) w2 = Some (crashed w2)))
  ∧ (∀ early c p w1 fns tr cl w2,
       (1 ≤ c)%Z → New c empty_world = Returns p w1 →
       uses early p tr (start fns, w1) = Some (cl, w2) →
       panicked w2 = false
       ∧ (ranging cl = true → ∃ e s', use early p e (cl, w2) = Some s')
       ∧ (ranging cl = false →
            ∃ got, drained p w2 = (Got <$> got) ++ [Closed] ∧ got ≡ₚ mjoin fns)).
Proof.
  intros Hr. pose proof (reachable_ok _ Hr) as Hok. split_and!.
  - intros p w1 tr w2 i a HN Hex Hi.
    pose proof (New_returns _ _ _ _ HN) as (_ & _ & _ & _ & Hs & _).
    eapply (zero_cap_exec tr w1 w2 p); eauto using New_ok.
    intros j b Hj. by apply (New_fresh_goroutines _ _ _ _ _ _ Hok HN) in Hj.
  - intros c Hc.
    unfold New, mbind, M_bind, new_WaitGroup, make_error_chan, make_bool_chan, publish.
    simpl. unfold make_chan. destruct (Z.ltb_spec c 0); [|lia]. simpl. eauto.
  - intros c p w1 tr w2 HN Hex Hnp.
    pose proof (New_ok _ _ _ _ Hok HN) as Hok1.
    pose proof (exec_ok _ _ _ Hok1 Hex) as Hok2.
    pose proof (exec_pools_mono _ _ _ _ Hex (New_in_pools _ _ _ _ HN)) as Hp2.
    split_and!.
    + intros fn. destruct (Run_step w2 p fn Hok2 Hp2 Hnp) as (n & _ & Hrun). eauto.
    + apply moves_step; [done|]. by apply m_wait.
    + intros i fn Hcl Hi. unfold permit_state in Hcl.
      destruct (chans_bool w2 !! semaphore p) as [cs|] eqn:Es; [|done].
      injection Hcl as Hcl.
      apply moves_step; [done|]. apply m_panic. by eapply pn_acquire.
    + intros i v rest Hcl Hi. unfold stream_state in Hcl.
      destruct (chans_error w2 !! Errors p) as [ce|] eqn:Ee; [|done].
      injection Hcl as Hcl.
      apply moves_step; [done|]. apply m_panic. by eapply pn_push.
    + intros j Hcl Hj. unfold stream_state in Hcl.
      destruct (chans_error w2 !! Errors p) as [ce|] eqn:Ee; [|done].
      injection Hcl as Hcl.
      apply moves_step; [done|]. apply m_panic. eapply pn_closeErrors; [done|].
      unfold close_panics. by rewrite Ee.
  - intros early c p w1 fns tr cl w2 Hc HN Hrun.
    destruct (use_outcome _ _ _ _ _ _ _ _ Hc HN Hrun) as (_ & Hprog & _ & Hfin).
    split_and!; try done.
    pose proof (use_ok_start _ _ _ fns HN) as Hu0.
    destruct (uses_ok _ _ _ _ _ _ Hu0 Hrun) as [Hu _].
    exact (u_live _ _ _ Hu).
Qed.

Lemma C6_misuse_outcomes_witness :
  (∀ p w1 tr w2 i a,
     New 0 empty_world = Returns p w1 → exec tr w1 = Some w2 → at_pc w2 i p a →
     got_permit a = false)
  ∧ (∀ c, (c < 0)%Z → ∃ w1, New c empty_world = Panics w1 ∧ panicked w1 = true)
  ∧ (∀ c p w1 tr w2,
       New c empty_world = Returns p w1 → exec tr w1 = Some w2 → panicked w2 = false →
       (∀ fn, ∃ w3, step (CallRun p fn) w2 = Some w3 ∧ panicked w3 = false)
       ∧ step (CallWait p) w2 = Some (spawn p Wait_wg w2)
       ∧ (∀ i fn, closed <$> permit_state p w2 = Some true →
            at_pc w2 i p (Run_acquire fn) → step (Go i) w2 = Some (crashed w2))
       ∧ (∀ i v rest, closed <$> stream_state p w2 = Some true →
            at_pc w2 i p (Run_body (v :: rest)) → step (Go i) w2 = Some (crashed w2))
       ∧ (∀ j, closed <$> stream_state p w2 = Some true →
            at_pc w2 j p Wait_closeErrors → step (Go j) w2 = Some (crashed w2)))
  ∧ (∀ early c p w1 fns tr cl w2,
       (1 ≤ c)%Z → New c empty_world = Returns p w1 →
       uses early p tr (start fns, w1) = Some (cl, w2) →
       panicked w2 = false
       ∧ (ranging cl = true → ∃ e s', use early p e (cl, w2) = Some s')
       ∧ (ranging cl = false →
            ∃ got, drained p w2 = (Got <$> got) ++ [Closed] ∧ got ≡ₚ mjoin fns)).
Proof.
  apply (C6_misuse_outcomes empty_world). exists []. reflexivity.
Defined.

(** The claim as written fails when [Wait] is called twice: the second
    goroutine to reach [close(p.Errors)] panics, which ends the program
    with a run-time error instead of blocking it. *)
Lemma C6_counterexample :
  exec double_Wait empty_world = Some after_double_Wait
  ∧ panicked after_double_Wait = true.
Proof. vm_compute. done. Qed.

(* ================================================================= *)
(** * Further properties of New, Run and Wait *)

Lemma pool_facts w N p w1 tr w2 :
  reachable w → New N w = Returns p w1 → exec tr w1 = Some w2 →
  world_ok w2 ∧ p ∈ pools w2 ∧ pool_ok w2 p.
Proof.
  intros Hr HN Hex.
  pose proof (New_ok _ _ _ _ (reachable_ok _ Hr) HN) as Hok1.
  pose proof (exec_ok _ _ _ Hok1 Hex) as Hok2.
  pose proof (exec_pools_mono _ _ _ _ Hex (New_in_pools _ _ _ _ HN)) as Hp2.
  split_and!; try done. by apply (ok_pools _ Hok2).
Qed.

(** ** Permits are neither lost nor duplicated *)

(** X1.  On a pool made by [New], after any schedule, the number of values
    parked in [p.semaphore] is exactly the number of goroutines between
    their completed permit acquire and their permit release: no permit is
    ever lost, and none is held twice. *)
Theorem X1_permit_conservation (w : world) (N : Z) (p : Pool) (w1 : world)
    (tr : list event) (w2 : world) :
  reachable w → New N w = Returns p w1 → exec tr w1 = Some w2 →
  permits_held p w2 = Some (executing p w2).
Proof.
  intros Hr HN Hex.
  destruct (pool_facts _ _ _ _ _ _ Hr HN Hex) as (_ & _ & [_ (cs & Es & _ & Slen & _) _]).
  unfold permits_held, permit_state, executing. rewrite Es. simpl. by rewrite Slen.
Qed.

Lemma X1_permit_conservation_witness :
  permits_held P0 busy_pool = Some (executing P0 busy_pool).
Proof.
  apply (X1_permit_conservation empty_world 1 P0 (one_pool 1)
           [CallRun P0 [None]; CallRun P0 [None]; Go 0] busy_pool).
  - exists []. reflexivity.
  - reflexivity.
  - vm_compute. reflexivity.
Defined.

(** ** The order of the two closes *)

(** X2.  [Wait]'s goroutine closes [p.Errors] before [p.semaphore]: on a
    pool made by [New], after any schedule (misuse included), if the
    semaphore is closed then [p.Errors] is closed too. *)
Theorem X2_semaphore_closed_after_Errors (w : world) (N : Z) (p : Pool) (w1 : world)
    (tr : list event) (w2 : world) :
  reachable w → New N w = Returns p w1 → exec tr w1 = Some w2 →
  closed <$> permit_state p w2 = Some true →
  closed <$> stream_state p w2 = Some true.
Proof.
  intros Hr HN Hex.
  destruct (pool_facts _ _ _ _ _ _ Hr HN Hex)
    as (_ & _ & [(ce & Ee & _ & _ & Ecl) (cs & Es & _ & _ & _ & Scl) _]).
  unfold permit_state, stream_state. rewrite Es, Ee. simpl. intros [= Hcl].
  rewrite Hcl in Scl. simpl in Scl.
  pose proof (waiters_bound p (goroutines w2)) as (_ & Hb & _).
  destruct (closed ce); [done|]. simpl in Ecl. lia.
Qed.

Lemma X2_semaphore_closed_after_Errors_witness :
  closed <$> stream_state P0 finished_pool = Some true.
Proof.
  apply (X2_semaphore_closed_after_Errors empty_world 1 P0 (one_pool 1)
           full_run finished_pool).
  - exists []. reflexivity.
  - reflexivity.
  - vm_compute. reflexivity.
  - reflexivity.
Defined.

(** ** The deferred cleanup always completes *)

(** X3.  Once [fn] has returned, nothing can hold its goroutine back, in
    any use of the pool: without waiting and without panic it leaves the
    body, receives from [p.semaphore] (there is always a value to take)
    and calls [p.wg.Done()] (the counter is never at zero then).  After
    these three statements it has exited, there is one permit less taken
    and the counter is one lower. *)
Theorem X3_cleanup_completes (w : world) (N : Z) (p : Pool) (w1 : world)
    (tr : list event) (w2 : world) (i : nat) :
  reachable w → New N w = Returns p w1 → exec tr w1 = Some w2 →
  panicked w2 = false →
  at_pc w2 i p (Run_body []) →
  ∃ wa wb wc,
    step (Go i) w2 = Some wa ∧ step (Go i) wa = Some wb ∧ step (Go i) wb = Some wc
    ∧ at_pc wa i p Run_release ∧ at_pc wb i p Run_done ∧ at_pc wc i p Run_exit
    ∧ panicked wc = false
    ∧ S <$> permits_held p wc = permits_held p w2
    ∧ tracker_state p wc = (λ n, n - 1)%Z <$> tracker_state p w2.
Proof.
  intros Hr HN Hex Hnp Hi.
  destruct (pool_facts _ _ _ _ _ _ Hr HN Hex)
    as (Hok & Hp & [_ (cs & Es & _ & Slen & _) Ew]).
  pose proof (tally_at holds_permit _ _ _ _ Hi eq_refl) as Hh.
  pose proof (tally_at outstanding _ _ _ _ Hi eq_refl) as Ho.
  destruct (buf cs) as [|b rest] eqn:Hb; [simpl in Slen; lia|].
  set (n := Z.of_nat (tally outstanding p (goroutines w2))) in *.
  set (wa := set_pc i Run_release w2).
  set (wb := set_pc i Run_done (put_bool (semaphore p) (Chan (cap cs) rest (closed cs)) wa)).
  set (wc := set_pc i Run_exit (put_wg (wg p) (n + -1)%Z wb)).
  assert (at_pc wa i p Run_release) as Ha by (by eapply at_pc_set_pc_eq).
  assert (at_pc wb i p Run_done) as Hb'.
  { apply (at_pc_set_pc_eq (put_bool (semaphore p) (Chan (cap cs) rest (closed cs)) wa)
             _ _ Run_release). exact Ha. }
  assert (at_pc wc i p Run_exit) as Hc.
  { apply (at_pc_set_pc_eq (put_wg (wg p) (n + -1)%Z wb) _ _ Run_done). exact Hb'. }
  exists wa, wb, wc. split_and!; try done.
  - apply moves_step; [done|]. by apply (m_return w2 i p).
  - apply moves_step; [done|]. by apply (m_release wa i p cs b rest).
  - apply moves_step; [done|]. apply (m_done wb i p n); try done. lia.
  - unfold permits_held, permit_state. simpl.
    rewrite list_lookup_insert_eq by (by eapply lookup_lt_Some).
    rewrite Es. simpl. by rewrite Hb.
  - unfold tracker_state. simpl.
    rewrite list_lookup_insert_eq by (by eapply lookup_lt_Some).
    rewrite Ew. simpl. f_equal.
Qed.

Lemma X3_cleanup_completes_witness :
  ∃ wa wb wc,
    step (Go 0) returning_pool = Some wa ∧ step (Go 0) wa = Some wb
    ∧ step (Go 0) wb = Some wc
    ∧ at_pc wa 0 P0 Run_release ∧ at_pc wb 0 P0 Run_done ∧ at_pc wc 0 P0 Run_exit
    ∧ panicked wc = false
    ∧ S <$> permits_held P0 wc = permits_held P0 returning_pool
    ∧ tracker_state P0 wc = (λ n, n - 1)%Z <$> tracker_state P0 returning_pool.
Proof.
  apply (X3_cleanup_completes empty_world 1 P0 (one_pool 1)
           [CallRun P0 []; Go 0] returning_pool 0).
  - exists []. reflexivity.
  - reflexivity.
  - vm_compute. reflexivity.
  - reflexivity.
  - reflexivity.
Defined.

(** ** What a consumer can receive *)

Lemma moves_drained w e w' p :
  world_ok w → p ∈ pools w → moves w e w' →
  drained p w' = drained p w
  ∨ (e = Recv p ∧ closed <$> stream_state p w = Some true
     ∧ drained p w' = drained p w ++ [Closed])
  ∨ (∃ i v rest, e = Deliver i ∧ at_pc w i p (Run_body (v :: rest))
       ∧ drained p w' = drained p w ++ [Got v]).
Proof.
  intros Hok Hp Hs.
  destruct Hs as [e Hpn|c Hc|c Hc|q fn n Hq Hn Hle|q Hq
      |k q fn c Hk Hs Hcl Hlt|k q v rest c Hk He Hcl Hlt|k q Hk
      |k q c b rest Hk Hs Hb|k q c Hk Hs Hb Hcl|k q n Hk Hn Hle
      |k q Hk Hn|k q c Hk He Hcl|k q c Hk Hs Hcl
      |k j q r fn c Hk Hj Hqr Hs Hcl Hb Hcap|k q v rest c Hk He Hcl Hb Hcap
      |q c v rest Hq He Hb|q c Hq He Hb Hcl];
    try (by left).
  - (* deliver *)
    pose proof (world_ok_at _ _ _ _ Hok Hk) as Hq.
    rewrite drained_note.
    change (drained p (set_pc k (Run_body rest) w)) with (drained p w).
    destruct (decide (Errors q = Errors p)) as [Heq|Hne].
    + assert (q = p) as -> by (apply (ok_separate _ Hok); auto).
      right. right. eauto 10.
    + left. by rewrite app_nil_r.
  - (* a parked value: there is none *)
    destruct (ok_pools _ Hok _ Hq) as [(ce & Ee & _ & Ebuf & _) _ _].
    rewrite Ee in He. injection He as <-. by rewrite Ebuf in Hb.
  - (* closed *)
    rewrite drained_note.
    destruct (decide (Errors q = Errors p)) as [Heq|Hne].
    + assert (q = p) as -> by (apply (ok_separate _ Hok); auto).
      right. left. split; [done|]. split; [|done].
      unfold stream_state. rewrite He. simpl. by rewrite Hcl.
    + left. by rewrite app_nil_r.
Qed.

(** X4.  On a pool made by [New], in any use, one step changes what
    consumers have received on [p.Errors] in one of two ways only: a
    receive that completes on its own yields the closed signal, and only
    if [p.Errors] is closed; a value [v] is received only in the very step
    in which a goroutine of this pool sends [v].  So no value is received
    that was not sent, none from another pool, and a consumer gets no
    value out of a pool whose units are not sending. *)
Theorem X4_received_values_were_sent (w : world) (N : Z) (p : Pool) (w1 : world)
    (tr : list event) (w2 : world) (e : event) (w3 : world) :
  reachable w → New N w = Returns p w1 → exec tr w1 = Some w2 →
  step e w2 = Some w3 →
  drained p w3 = drained p w2
  ∨ (e = Recv p ∧ closed <$> stream_state p w2 = Some true
     ∧ drained p w3 = drained p w2 ++ [Closed])
  ∨ (∃ i v rest, e = Deliver i ∧ at_pc w2 i p (Run_body (v :: rest))
       ∧ drained p w3 = drained p w2 ++ [Got v]).
Proof.
  intros Hr HN Hex Hs.
  destruct (pool_facts _ _ _ _ _ _ Hr HN Hex) as (Hok & Hp & _).
  apply step_moves in Hs. by apply moves_drained.
Qed.

Lemma X4_received_values_were_sent_witness :
  drained P0 (note (Errors P0) Closed finished_pool) = drained P0 finished_pool
  ∨ (Recv P0 = Recv P0 ∧ closed <$> stream_state P0 finished_pool = Some true
     ∧ drained P0 (note (Errors P0) Closed finished_pool)
       = drained P0 finished_pool ++ [Closed])
  ∨ (∃ i v rest, Recv P0 = Deliver i ∧ at_pc finished_pool i P0 (Run_body (v :: rest))
       ∧ drained P0 (note (Errors P0) Closed finished_pool)
         = drained P0 finished_pool ++ [Got v]).
Proof.
  apply (X4_received_values_were_sent empty_world 1 P0 (one_pool 1)
           full_run finished_pool (Recv P0) (note (Errors P0) Closed finished_pool)).
  - exists []. reflexivity.
  - reflexivity.
  - vm_compute. reflexivity.
  - reflexivity.
Defined.

(** ** Constructing a pool *)

(** X5.  [New] touches nothing that exists: whether it returns or panics,
    every pool made before keeps its semaphore, counter, [Errors] channel,
    received values and goroutines.  When it returns, the new pool is
    idle: both channels open and empty, the semaphore with the requested
    capacity, the counter at zero, nothing received and no goroutine. *)
Theorem X5_New_is_fresh (w : world) (c : Z) (q : Pool) :
  reachable w → q ∈ pools w →
  match New c w with
  | Returns p w1 =>
      p ≠ q
      ∧ permit_state q w1 = permit_state q w
      ∧ tracker_state q w1 = tracker_state q w
      ∧ stream_state q w1 = stream_state q w
      ∧ drained q w1 = drained q w
      ∧ (∀ i a, at_pc w1 i q a ↔ at_pc w i q a)
      ∧ permit_state p w1 = Some (Chan c [] false)
      ∧ tracker_state p w1 = Some 0%Z
      ∧ stream_state p w1 = Some (Chan 0 [] false)
      ∧ drained p w1 = []
      ∧ (∀ i a, ¬ at_pc w1 i p a)
  | Panics w1 =>
      (c < 0)%Z
      ∧ permit_state q w1 = permit_state q w
      ∧ tracker_state q w1 = tracker_state q w
      ∧ stream_state q w1 = stream_state q w
      ∧ drained q w1 = drained q w
      ∧ (∀ i a, at_pc w1 i q a ↔ at_pc w i q a)
  | Blocks => False
  end.
Proof.
  intros Hr Hq. pose proof (reachable_ok _ Hr) as Hok.
  pose proof (pool_ok_bounds _ _ (ok_pools _ Hok _ Hq)) as (Be & Bs & Bw).
  pose proof (New_extends c w) as Hext.
  destruct (New c w) as [p w1| w1|] eqn:HN; [| |done].
  - destruct Hext as ((se & Ee) & (sb & Eb) & (sw & Ew) & Eg & Ei).
    pose proof (New_returns _ _ _ _ HN) as (_ & Ep & _ & He & Hs & Hw & _).
    unfold permit_state, tracker_state, stream_state, drained, at_pc.
    rewrite Ee, Eb, Ew, Eg, Ei in *. rewrite !lookup_app_l by done.
    split_and!; try done.
    + intros ->. rewrite Ep in Be. simpl in Be. lia.
    + pose proof (inbox_known_reachable _ Hr) as Hin.
      assert (filter (λ x : nat * received, x.1 = Errors p) (inbox w) = []) as ->; [|done].
      apply filter_none. intros [l r] Hlr Heq.
      apply Hin in Hlr. rewrite Ep in Heq. simpl in Heq. lia.
    + intros i a Hi.
      apply list_elem_of_lookup_2, (ok_owner _ Hok) in Hi. simpl in Hi.
      apply (ok_pools _ Hok), pool_ok_bounds in Hi. rewrite Ep in Hi. simpl in Hi. lia.
  - destruct Hext as (Hc & (se & Ee) & (sb & Eb) & (sw & Ew) & Eg & Ei).
    unfold permit_state, tracker_state, stream_state, drained, at_pc.
    rewrite Ee, Eb, Ew, Eg, Ei. rewrite !lookup_app_l by done. done.
Qed.

Lemma X5_New_is_fresh_witness :
  match New 2 (one_pool 1) with
  | Returns p w1 =>
      p ≠ P0
      ∧ permit_state P0 w1 = permit_state P0 (one_pool 1)
      ∧ tracker_state P0 w1 = tracker_state P0 (one_pool 1)
      ∧ stream_state P0 w1 = stream_state P0 (one_pool 1)
      ∧ drained P0 w1 = drained P0 (one_pool 1)
      ∧ (∀ i a, at_pc w1 i P0 a ↔ at_pc (one_pool 1) i P0 a)
      ∧ permit_state p w1 = Some (Chan 2 [] false)
      ∧ tracker_state p w1 = Some 0%Z
      ∧ stream_state p w1 = Some (Chan 0 [] false)
      ∧ drained p w1 = []
      ∧ (∀ i a, ¬ at_pc w1 i p a)
  | Panics w1 =>
      (2 < 0)%Z
      ∧ permit_state P0 w1 = permit_state P0 (one_pool 1)
      ∧ tracker_state P0 w1 = tracker_state P0 (one_pool 1)
      ∧ stream_state P0 w1 = stream_state P0 (one_pool 1)
      ∧ drained P0 w1 = drained P0 (one_pool 1)
      ∧ (∀ i a, at_pc w1 i P0 a ↔ at_pc (one_pool 1) i P0 a)
  | Blocks => False
  end.
Proof.
  apply (X5_New_is_fresh (one_pool 1) 2 P0).
  - exists [CallNew 1]. reflexivity.
  - apply list_elem_of_here.
Defined.

(** ** The documented use: closing waits for the last unit *)

(** X6.  Under the documented use, whatever capacity [New] accepted and
    whatever the units send, no run panics, and [p.Errors] is not closed
    before everything is over: if it is closed, every unit has been
    submitted, every goroutine started by [Run] has exited, and every
    value the units had to send has been received.  No send ever meets the
    closed channel. *)
Theorem X6_close_after_last_unit (early : bool) (c : Z) (p : Pool) (w1 : world)
    (fns : list func) (tr : list event) (cl : client) (w : world) :
  New c empty_world = Returns p w1 →
  uses early p tr (start fns, w1) = Some (cl, w) →
  panicked w = false
  ∧ (closed <$> stream_state p w = Some true →
       todo cl = []
       ∧ (∀ i a, at_pc w i p a → a = Run_exit ∨ is_waiter a = true)
       ∧ values (drained p w) ≡ₚ mjoin fns).
Proof.
  intros HN Hrun.
  pose proof (use_ok_start _ _ _ fns HN) as Hu0.
  destruct (uses_ok _ _ _ _ _ _ Hu0 Hrun)
    as [[Hok Hsingle Hlive Hwt Hwd Hbar Hrg (vs & Hdr & Hperm)] _].
  simpl in *. split; [done|]. intros Hcl.
  assert (p ∈ pools w) as Hp by (rewrite Hsingle; by apply list_elem_of_singleton).
  destruct (ok_pools _ Hok _ Hp) as [(ce & Ee & _ & _ & Ecl) _ _].
  pose proof (waiters_bound p (goroutines w)) as (Hb1 & _ & _).
  unfold stream_state in Hcl. rewrite Ee in Hcl. simpl in Hcl. injection Hcl as Hcl.
  rewrite Hcl in Ecl. simpl in Ecl.
  destruct Hbar as [Ht Hout]; [lia|].
  split_and!; [done| |].
  - intros i a Hi. destruct a; auto;
      pose proof (tally_at outstanding _ _ _ _ Hi eq_refl); lia.
  - rewrite Hdr, values_app, values_Got.
    assert (values (if ranging cl then [] else [Closed]) = []) as ->
      by (by destruct (ranging cl)).
    rewrite app_nil_r, <- Hperm, Ht. rewrite (pending_none p); [| |done].
    + simpl. by rewrite app_nil_r.
    + intros g Hg. apply (ok_owner _ Hok) in Hg. rewrite Hsingle in Hg.
      by apply list_elem_of_singleton in Hg.
Qed.

Lemma X6_close_after_last_unit_witness :
  panicked finished_pool = false
  ∧ (closed <$> stream_state P0 finished_pool = Some true →
       todo finished = []
       ∧ (∀ i a, at_pc finished_pool i P0 a → a = Run_exit ∨ is_waiter a = true)
       ∧ values (drained P0 finished_pool) ≡ₚ mjoin [[Some "boom"]]).
Proof.
  apply (X6_close_after_last_unit false 1 P0 (one_pool 1) [[Some "boom"]] full_run
           finished finished_pool).
  - reflexivity.
  - vm_compute. reflexivity.
Defined.

(** ** Capacity zero under the documented use *)

Lemma outstanding_grows w e w' p :
  world_ok w → moves w e w' →
  (∀ i a, at_pc w i p a → got_permit a = false) →
  tally outstanding p (goroutines w) ≤ tally outstanding p (goroutines w')
  ∧ (∀ fn, e = CallRun p fn → 1 ≤ tally outstanding p (goroutines w')).
Proof.
  intros Hok Hm Hz.
  destruct Hm as [e Hpn|c Hc|c Hc|q fn n Hq Hn Hle|q Hq
      |k q fn c Hk Hs Hcl Hlt|k q v rest c Hk He Hcl Hlt|k q Hk
      |k q c b rest Hk Hs Hb|k q c Hk Hs Hb Hcl|k q n Hk Hn Hle
      |k q Hk Hn|k q c Hk He Hcl|k q c Hk Hs Hcl
      |k j q r fn c Hk Hj Hqr Hs Hcl Hb Hcap|k q v rest c Hk He Hcl Hb Hcap
      |q c v rest Hq He Hb|q c Hq He Hb Hcl];
    simpl; try done;
    try (match goal with
         | |- context [alter (λ g, {| g_pool := g_pool g; g_pc := ?a' |}) k _] =>
             destruct (decide (q = p)) as [->|Hne];
             [ pose proof (tally_alter outstanding p k _ _ _ a' Hk) as Ht;
               rewrite !counts_same in Ht; simpl in Ht;
               first [ by specialize (Hz _ _ Hk) | split; [lia|done] ]
             | rewrite (tally_alter_other outstanding p q k _ a' _ Hk Hne);
               split; [lia|done] ]
         end);
    try (split; [lia|done]).
  - split; [lia|]. intros fn ->. exfalso.
    inversion Hpn as [p' fn' Hin Hw| | | | | | ]; subst.
    destruct (ok_pools _ Hok _ Hin) as [_ _ Ew].
    unfold wg_add_panics in Hw. rewrite Ew in Hw. lia.
  - rewrite tally_app. simpl. split; [lia|]. intros fn' [= -> _].
    rewrite counts_same. simpl. lia.
  - rewrite tally_app. simpl. split; [lia|done].
  - (* handoff *)
    exfalso.
    pose proof (world_ok_at _ _ _ _ Hok Hk) as Hq1.
    pose proof (world_ok_at _ _ _ _ Hok Hj) as Hq2.
    assert (q = r) as <- by (apply (ok_separate _ Hok); auto).
    destruct (ok_pools _ Hok _ Hq1) as [_ (cs & Es & _ & Slen & _) _].
    rewrite Es in Hs. injection Hs as <-. rewrite Hb in Slen. simpl in Slen.
    pose proof (tally_at holds_permit _ _ _ _ Hj eq_refl). lia.
Qed.

Lemma stalled_not_closed p fns s :
  use_ok p fns s → stalled p s → closed <$> stream_state p s.2 = Some false.
Proof.
  destruct s as [cl w].
  intros [Hok Hsingle Hlive Hwt Hwd Hbar Hrg _] [_ _ Hsub _ _]. simpl in *.
  assert (p ∈ pools w) as Hp by (rewrite Hsingle; by apply list_elem_of_singleton).
  destruct (ok_pools _ Hok _ Hp) as [(ce & Ee & _ & _ & Ecl) _ _].
  pose proof (waiters_bound p (goroutines w)) as (Hb1 & _ & _).
  unfold stream_state. rewrite Ee. simpl. destruct (closed ce); [|done].
  simpl in Ecl. destruct Hbar as [Ht Hout]; [lia|]. specialize (Hsub Ht). lia.
Qed.

Lemma use_stalled early p fns e s s' :
  use_ok p fns s → stalled p s → use early p e s = Some s' → stalled p s'.
Proof.
  intros Hu Hst Huse.
  pose proof (stalled_not_closed _ _ _ Hu Hst) as Hopen.
  destruct s as [cl w], s' as [cl' w'].
  destruct Hst as [(cs & Hcs & Hcap) Hz Hsub Hno Hr].
  pose proof (u_world _ _ _ Hu) as Hok.
  pose proof (u_single _ _ _ Hu) as Hsingle.
  simpl in *.
  assert (p ∈ pools w) as Hp by (rewrite Hsingle; by apply list_elem_of_singleton).
  apply use_inv in Huse as [Hstep Hcl].
  apply step_moves in Hstep.
  destruct (outstanding_grows _ _ _ p Hok Hstep Hz) as [Hle Hrun].
  assert (drained p w' = []) as Hno'.
  { destruct (moves_drained _ _ _ p Hok Hp Hstep)
      as [E|[(_ & Hc & _)|(i & v & rest & _ & Hi & _)]].
    - by rewrite E.
    - rewrite Hopen in Hc. done.
    - by specialize (Hz _ _ Hi). }
  split; simpl.
  - unfold permit_state in *.
    pose proof (moves_cap_bool _ _ _ (semaphore p) Hstep (lookup_lt_Some _ _ _ Hcs)) as Hc.
    rewrite Hcs in Hc. simpl in Hc.
    destruct (chans_bool w' !! semaphore p) as [c1|]; [|done].
    injection Hc as Hc. exists c1. split; [done|congruence].
  - by eapply zero_cap_moves.
  - intros Ht'. destruct e as [c|q fn|q|i|i j|i|q]; try done.
    + destruct Hcl as (-> & _). by eapply Hrun.
    + destruct Hcl as (_ & Ht & _). specialize (Hsub Ht). lia.
    + subst cl'. specialize (Hsub Ht'). lia.
    + subst cl'. specialize (Hsub Ht'). lia.
    + destruct Hcl as [_ ->]. specialize (Hsub Ht'). lia.
    + destruct Hcl as (_ & _ & Ht & _). rewrite Ht in Ht'. specialize (Hsub Ht'). lia.
  - done.
  - destruct e as [c|q fn|q|i|i j|i|q]; try done.
    + destruct Hcl as (_ & _ & _ & ->). done.
    + destruct Hcl as (_ & _ & _ & _ & _ & ->). done.
    + by subst cl'.
    + by subst cl'.
    + by destruct Hcl as [_ ->].
    + destruct Hcl as (_ & _ & _ & _ & ->). unfold saw_Closed. by rewrite Hno'.
Qed.

Lemma uses_stalled early p fns tr s s' :
  use_ok p fns s → stalled p s → uses early p tr s = Some s' → stalled p s'.
Proof.
  revert s. induction tr as [|e tr IH]; intros s Hu Hst; simpl.
  - by intros [= <-].
  - destruct (use early p e s) as [s1|] eqn:Hs; [|done].
    apply IH; [by eapply use_step_ok|by eapply use_stalled].
Qed.

(** X7.  With capacity zero and at least one unit, the documented use
    ends in a deadlock, in every interleaving: the run is finite, and
    throughout it no unit executes, [p.Errors] stays open, and the
    consumer receives nothing, not even the closed signal; its [range]
    loop never ends. *)
Theorem X7_zero_capacity_deadlock (early : bool) (p : Pool) (w1 : world)
    (fns : list func) (tr : list event) (cl : client) (w : world) :
  fns ≠ [] →
  New 0 empty_world = Returns p w1 →
  uses early p tr (start fns, w1) = Some (cl, w) →
  length tr ≤ sum_list_with (λ fn : list (option string), 5 + length fn) fns + 5
  ∧ executing p w = 0
  ∧ closed <$> stream_state p w = Some false
  ∧ drained p w = []
  ∧ ranging cl = true.
Proof.
  intros Hne HN Hrun.
  pose proof (use_ok_start _ _ _ fns HN) as Hu0.
  pose proof (New_returns _ _ _ _ HN) as (_ & _ & _ & _ & Hs & _ & Hg & _).
  assert (stalled p (start fns, w1)) as Hst0.
  { split; simpl.
    - eexists. split; [exact Hs|done].
    - intros i a Hi. by apply (New_fresh_goroutines _ _ _ _ _ _ world_ok_empty HN) in Hi.
    - done.
    - destruct (u_drained _ _ _ Hu0) as (vs & Hdr & Hperm). simpl in *.
      rewrite Hg in Hperm. simpl in Hperm.
      revert HN.
      unfold New, mbind, M_bind, new_WaitGroup, make_error_chan, make_bool_chan, publish.
      simpl. by intros [= <- <-].
    - done. }
  destruct (uses_ok _ _ _ _ _ _ Hu0 Hrun) as [Hu Hlen].
  pose proof (uses_stalled _ _ _ _ _ _ Hu0 Hst0 Hrun) as Hst.
  pose proof (stalled_not_closed _ _ _ Hu Hst) as Hopen.
  rewrite effort_start in Hlen by done.
  assert (length tr ≤ sum_list_with (λ fn : list (option string), 5 + length fn) fns + 5)
    as Hbound by lia.
  destruct Hst as [_ Hz _ Hno Hr]. simpl in *.
  split_and!; try done.
  unfold executing.
  destruct (tally holds_permit p (goroutines w)) eqn:Hh; [done|].
  destruct (tally_pos holds_permit p (goroutines w)) as (i & a & Hi & Ha); [lia|].
  specialize (Hz _ _ Hi). by destruct a.
Qed.

Lemma X7_zero_capacity_deadlock_witness :
  length [CallRun P0 [None]; CallWait P0]
    ≤ sum_list_with (λ fn : list (option string), 5 + length fn) [[None]] + 5
  ∧ executing P0 stuck_pool = 0
  ∧ closed <$> stream_state P0 stuck_pool = Some false
  ∧ drained P0 stuck_pool = []
  ∧ ranging waiting = true.
Proof.
  apply (X7_zero_capacity_deadlock false P0 (one_pool 0) [[None]]
           [CallRun P0 [None]; CallWait P0] waiting stuck_pool).
  - discriminate.
  - reflexivity.
  - vm_compute. reflexivity.
Defined.

(** ** The documented use leaves nothing behind *)

(** X8.  Under the documented use of a pool of capacity at least one,
    when a run can go no further, nothing is left over: the consumer's
    loop has ended, every goroutine started by [Run] or [Wait] has exited,
    both channels are closed, no permit is taken and the counter is at
    zero. *)
Theorem X8_nothing_left_behind (early : bool) (c : Z) (p : Pool) (w1 : world)
    (fns : list func) (tr : list event) (cl : client) (w : world) :
  (1 ≤ c)%Z →
  New c empty_world = Returns p w1 →
  uses early p tr (start fns, w1) = Some (cl, w) →
  (∀ e, use early p e (cl, w) = None) →
  ranging cl = false
  ∧ (∀ i a, at_pc w i p a → a = Run_exit ∨ a = Wait_exit)
  ∧ closed <$> stream_state p w = Some true
  ∧ closed <$> permit_state p w = Some true
  ∧ permits_held p w = Some 0
  ∧ tracker_state p w = Some 0%Z.
Proof.
  intros Hc HN Hrun Hstuck.
  destruct (use_outcome _ _ _ _ _ _ _ _ Hc HN Hrun) as (_ & Hprog & _ & _).
  assert (ranging cl = false) as Hr.
  { destruct (ranging cl); [|done]. destruct Hprog as (e & s' & He); [done|].
    by rewrite Hstuck in He. }
  pose proof (use_ok_start _ _ _ fns HN) as Hu0.
  destruct (uses_ok _ _ _ _ _ _ Hu0 Hrun)
    as [[Hok Hsingle Hlive Hwt Hwd Hbar Hrg _] _].
  simpl in *.
  assert (p ∈ pools w) as Hp by (rewrite Hsingle; by apply list_elem_of_singleton).
  destruct (ok_pools _ Hok _ Hp)
    as [(ce & Ee & _ & _ & Ecl) (cs & Es & _ & Slen & _ & Scl) Ew].
  pose proof (waiters_bound p (goroutines w)) as (Hb1 & Hb2 & Hb3).
  specialize (Hrg Hr). unfold stream_state in Hrg. rewrite Ee in Hrg. simpl in Hrg.
  injection Hrg as Hce. rewrite Hce in Ecl. simpl in Ecl.
  destruct Hbar as [Ht Hout]; [lia|].
  assert (tally is_waiter p (goroutines w) = 1) as Hw1
    by (destruct (waited cl); simpl in *; lia).
  assert (closed cs = true) as Hcs.
  { destruct (closed cs) eqn:E; [done|]. exfalso. simpl in Scl.
    destruct (tally_pos has_closed_Errors p (goroutines w)) as (j & a & Hj & Ha); [lia|].
    destruct a; try done.
    - specialize (Hstuck (Go j)).
      rewrite (use_Go early p j cl w _
                 (moves_step _ _ _ Hlive (m_closeSemaphore w j p cs Hj Es E))) in Hstuck.
      done.
    - pose proof (tally_at has_closed_semaphore _ _ _ _ Hj eq_refl). lia. }
  rewrite Hcs in Scl. simpl in Scl.
  assert (tally holds_permit p (goroutines w) ≤ tally outstanding p (goroutines w))
    as Hho by (apply tally_mono; by intros []).
  unfold stream_state, permit_state, permits_held, permit_state, tracker_state.
  rewrite Ee, Es, Ew. simpl. rewrite Hce, Hcs, Hout.
  split_and!; try done; [|f_equal; lia].
  intros i a Hi.
  assert (tally has_closed_semaphore p (goroutines w)
          + tally (λ a, is_waiter a && negb (has_closed_semaphore a)) p (goroutines w)
          ≤ tally is_waiter p (goroutines w)) as Hd
    by (apply tally_disjoint; intros []; done).
  destruct a; auto;
    try (pose proof (tally_at outstanding _ _ _ _ Hi eq_refl); lia);
    pose proof (tally_at (λ a, is_waiter a && negb (has_closed_semaphore a))
                  _ _ _ _ Hi eq_refl); lia.
Qed.

Lemma X8_nothing_left_behind_witness :
  ranging finished = false
  ∧ (∀ i a, at_pc finished_pool i P0 a → a = Run_exit ∨ a = Wait_exit)
  ∧ closed <$> stream_state P0 finished_pool = Some true
  ∧ closed <$> permit_state P0 finished_pool = Some true
  ∧ permits_held P0 finished_pool = Some 0
  ∧ tracker_state P0 finished_pool = Some 0%Z.
Proof.
  apply (X8_nothing_left_behind false 1 P0 (one_pool 1) [[Some "boom"]] full_run
           finished finished_pool).
  - lia.
  - reflexivity.
  - vm_compute. reflexivity.
  - intros [c|q fn|q|i|i j|i|q]; try reflexivity.
    + unfold use. simpl. rewrite bool_decide_eq_false_2; [done|]. by intros (_ & _ & ?).
    + destruct i as [|[|i]]; reflexivity.
    + destruct i as [|[|i]]; destruct j as [|[|j]]; reflexivity.
    + unfold use. simpl. by rewrite andb_false_r.
Defined.

(** ** Results arrive in completion order *)

Lemma use_Run early p f rest wd rg w w' :
  step (CallRun p f) w = Some w' →
  use early p (CallRun p f) ({| todo := f :: rest; waited := wd; ranging := rg |}, w)
  = Some ({| todo := rest; waited := wd; ranging := rg |}, w').
Proof.
  intros Hs. unfold use. simpl. rewrite bool_decide_eq_true_2 by done. by rewrite Hs.
Qed.

(** X9.  The order in which results are received is the order in which the
    units complete, not the order of the [Run] calls: for two units
    submitted in the order [a], [b] to a pool of any capacity (at least
    one), there is a run of the documented use in which the consumer
    receives [a] then [b], and another in which it receives [b] then
    [a]. *)
Theorem X9_completion_order (c : Z) (a b : option string) (p : Pool) (w1 : world) :
  (1 ≤ c)%Z →
  New c empty_world = Returns p w1 →
  (∃ tr cl w, uses false p tr (start [[a]; [b]], w1) = Some (cl, w)
     ∧ drained p w = [Got a; Got b; Closed])
  ∧ (∃ tr cl w, uses false p tr (start [[a]; [b]], w1) = Some (cl, w)
     ∧ drained p w = [Got b; Got a; Closed]).
Proof.
  intros Hc HN. destruct c as [|n|n]; try lia.
  injection HN as <- <-. split.
  - exists [CallRun P0 [a]; CallRun P0 [b]; CallWait P0;
            Go 0; Deliver 0; Go 0; Go 0; Go 0;
            Go 1; Deliver 1; Go 1; Go 1; Go 1;
            Go 2; Go 2; Go 2; Recv P0].
    eexists _, _. unfold start.
    cbn [uses]. erewrite use_Run by reflexivity. erewrite use_Run by reflexivity.
    vm_compute. split; reflexivity.
  - exists [CallRun P0 [a]; CallRun P0 [b]; CallWait P0;
            Go 1; Deliver 1; Go 1; Go 1; Go 1;
            Go 0; Deliver 0; Go 0; Go 0; Go 0;
            Go 2; Go 2; Go 2; Recv P0].
    eexists _, _. unfold start.
    cbn [uses]. erewrite use_Run by reflexivity. erewrite use_Run by reflexivity.
    vm_compute. split; reflexivity.
Qed.

Lemma X9_completion_order_witness :
  (∃ tr cl w, uses false P0 tr (start [[Some "first"]; [None]], one_pool 1) = Some (cl, w)
     ∧ drained P0 w = [Got (Some "first"); Got None; Closed])
  ∧ (∃ tr cl w, uses false P0 tr (start [[Some "first"]; [None]], one_pool 1) = Some (cl, w)
     ∧ drained P0 w = [Got None; Got (Some "first"); Closed]).
Proof.
  apply (X9_completion_order 1 (Some "first") None P0 (one_pool 1)).
  - lia.
  - reflexivity.
Defined.

(** ** Wait's goroutine waits for every unit *)

(** X10.  On a pool made by [New], in any use: as long as some goroutine
    started by [Run] has not yet executed [p.wg.Done()], no step gets a
    goroutine started by [Wait] past [p.wg.Wait()].  So neither channel is
    closed by it while a unit submitted so far is unfinished. *)
Theorem X10_waiter_waits (w : world) (N : Z) (p : Pool) (w1 : world)
    (tr : list event) (w2 : world) (i j : nat) (a : pc) (e : event) (w3 : world) :
  reachable w → New N w = Returns p w1 → exec tr w1 = Some w2 →
  at_pc w2 i p a → outstanding a = true →
  at_pc w2 j p Wait_wg →
  step e w2 = Some w3 →
  at_pc w3 j p Wait_wg.
Proof.
  intros Hr HN Hex Hi Ha Hj Hs.
  destruct (pool_facts _ _ _ _ _ _ Hr HN Hex) as (Hok & Hp & [_ _ Ew]).
  apply step_moves in Hs.
  destruct (moves_pc _ _ _ _ _ _ Hs Hj) as [H|(a' & H & _)]; [done|].
  destruct (decide (Wait_wg = a')) as [<-|Hne]; [done|].
  pose proof (moves_transition _ _ _ _ _ _ _ Hok Hs Hj H Hne) as Heff.
  simpl in Heff. destruct Heff as (_ & _ & Hz & _).
  rewrite Ew in Hz. pose proof (tally_at outstanding _ _ _ _ Hi Ha).
  injection Hz as Hz. lia.
Qed.

Lemma X10_waiter_waits_witness : at_pc running_pool 1 P0 Wait_wg.
Proof.
  apply (X10_waiter_waits empty_world 1 P0 (one_pool 1)
           [CallRun P0 [None]; CallWait P0] submitted_pool
           0 1 (Run_acquire [None]) (Go 0) running_pool).
  - exists []. reflexivity.
  - reflexivity.
  - reflexivity.
  - reflexivity.
  - reflexivity.
  - reflexivity.
  - reflexivity.
Defined.

(** ** What is done stays done *)

Lemma closed_insert {A : Type} (s : list (chan A)) (k l : nat) c0 c1 :
  s !! k = Some c0 → (closed c0 = true → closed c1 = true) →
  closed <$> (s !! l) = Some true → closed <$> (<[k := c1]> s !! l) = Some true.
Proof.
  intros Hk Himp. destruct (decide (k = l)) as [->|Hne].
  - rewrite list_lookup_insert_eq by (by eapply lookup_lt_Some).
    rewrite Hk. simpl. intros [= Hc]. by rewrite Himp.
  - by rewrite list_lookup_insert_ne.
Qed.

Lemma moves_closed_error w e w' l :
  moves w e w' →
  closed <$> (chans_error w !! l) = Some true →
  closed <$> (chans_error w' !! l) = Some true.
Proof.
  intros Hm Hl.
  assert (l < length (chans_error w)) as Hlt.
  { destruct (chans_error w !! l) eqn:E; [|done]. by eapply lookup_lt_Some. }
  destruct Hm; simpl; try done;
    try (by rewrite lookup_app_l);
    try (eapply closed_insert; [eassumption| |done]; simpl; congruence).
Qed.

Lemma moves_closed_bool w e w' l :
  moves w e w' →
  closed <$> (chans_bool w !! l) = Some true →
  closed <$> (chans_bool w' !! l) = Some true.
Proof.
  intros Hm Hl.
  assert (l < length (chans_bool w)) as Hlt.
  { destruct (chans_bool w !! l) eqn:E; [|done]. by eapply lookup_lt_Some. }
  destruct Hm; simpl; try done;
    try (by rewrite lookup_app_l);
    try (eapply closed_insert; [eassumption| |done]; simpl; congruence).
Qed.

Lemma moves_exited w e w' i p a :
  moves w e w' → at_pc w i p a → (a = Run_exit ∨ a = Wait_exit) → at_pc w' i p a.
Proof.
  intros Hm Hi Ha.
  destruct (moves_pc _ _ _ _ _ _ Hm Hi) as [H|(a' & _ & Hadv & _)]; [done|].
  destruct Ha as [-> | ->]; inversion Hadv.
Qed.

Lemma moves_drained_prefix w e w' p :
  world_ok w → p ∈ pools w → moves w e w' → drained p w `prefix_of` drained p w'.
Proof.
  intros Hok Hp Hm.
  destruct (moves_drained _ _ _ p Hok Hp Hm)
    as [->|[(_ & _ & ->)|(i & v & rest & _ & _ & ->)]];
    [done|by apply prefix_app_r..].
Qed.

(** X11.  On a pool made by [New], nothing is ever undone, in any use:
    along any continuation of a schedule, a closed channel stays closed, a
    goroutine that has exited stays exited, and what consumers have
    received is only ever extended at the end. *)
Theorem X11_done_stays_done (w : world) (N : Z) (p : Pool) (w1 : world)
    (tr : list event) (w2 : world) (tr' : list event) (w3 : world) :
  reachable w → New N w = Returns p w1 → exec tr w1 = Some w2 →
  exec tr' w2 = Some w3 →
  (closed <$> stream_state p w2 = Some true → closed <$> stream_state p w3 = Some true)
  ∧ (closed <$> permit_state p w2 = Some true → closed <$> permit_state p w3 = Some true)
  ∧ (∀ i a, at_pc w2 i p a → a = Run_exit ∨ a = Wait_exit → at_pc w3 i p a)
  ∧ drained p w2 `prefix_of` drained p w3.
Proof.
  intros Hr HN Hex Hex'.
  destruct (pool_facts _ _ _ _ _ _ Hr HN Hex) as (Hok & Hp & _).
  clear Hr HN Hex. revert w2 Hok Hp Hex'.
  induction tr' as [|e tr' IH]; intros w2 Hok Hp; simpl.
  - intros [= <-]. done.
  - destruct (step e w2) as [wm|] eqn:Hs; [|done]. intros Hex'.
    apply step_moves in Hs.
    destruct (IH wm) as (I1 & I2 & I3 & I4);
      [by eapply moves_ok|by eapply moves_pools_mono|done|].
    split_and!.
    + intros H. apply I1. exact (moves_closed_error _ _ _ _ Hs H).
    + intros H. apply I2. exact (moves_closed_bool _ _ _ _ Hs H).
    + intros i a Hi Ha. apply I3; [|done]. exact (moves_exited _ _ _ _ _ _ Hs Hi Ha).
    + etrans; [|exact I4]. exact (moves_drained_prefix _ _ _ _ Hok Hp Hs).
Qed.

Lemma X11_done_stays_done_witness :
  (closed <$> stream_state P0 closing_pool = Some true →
     closed <$> stream_state P0 closed_pool = Some true)
  ∧ (closed <$> permit_state P0 closing_pool = Some true →
     closed <$> permit_state P0 closed_pool = Some true)
  ∧ (∀ i a, at_pc closing_pool i P0 a → a = Run_exit ∨ a = Wait_exit →
       at_pc closed_pool i P0 a)
  ∧ drained P0 closing_pool `prefix_of` drained P0 closed_pool.
Proof.
  apply (X11_done_stays_done empty_world 1 P0 (one_pool 1)
           [CallWait P0; Go 0; Go 0] closing_pool [Go 0] closed_pool).
  - exists []. reflexivity.
  - reflexivity.
  - vm_compute. reflexivity.
  - vm_compute. reflexivity.
Defined.

(** ** When a send on Errors completes *)

(** X12.  On a pool made by [New], a goroutine about to send [v] on
    [p.Errors], with the channel still open, cannot complete the send on
    its own (its own step is not possible), and completes it at once when
    a consumer receives: the value goes to the consumer and the goroutine
    moves on to the rest of [fn]. *)
Theorem X12_send_meets_receive (w : world) (N : Z) (p : Pool) (w1 : world)
    (tr : list event) (w2 : world) (i : nat) (v : option string) (rest : func) :
  reachable w → New N w = Returns p w1 → exec tr w1 = Some w2 →
  panicked w2 = false →
  at_pc w2 i p (Run_body (v :: rest)) →
  closed <$> stream_state p w2 = Some false →
  step (Go i) w2 = None
  ∧ step (Deliver i) w2
    = Some (note (Errors p) (Got v) (set_pc i (Run_body rest) w2)).
Proof.
  intros Hr HN Hex Hnp Hi Hopen.
  destruct (pool_facts _ _ _ _ _ _ Hr HN Hex)
    as (Hok & Hp & [(ce & Ee & Ecap & Ebuf & _) _ _]).
  unfold stream_state in Hopen. rewrite Ee in Hopen. simpl in Hopen.
  injection Hopen as Hopen.
  split.
  - unfold step. rewrite Hnp. unfold at_pc in Hi. rewrite Hi. simpl.
    unfold mbind, M_bind, send_error. rewrite Ee. unfold chan_send.
    rewrite Hopen, Ebuf, Ecap. done.
  - apply moves_step; [done|]. apply (m_deliver w2 i p v rest ce); try done. lia.
Qed.

Lemma X12_send_meets_receive_witness :
  step (Go 0) running_pool = None
  ∧ step (Deliver 0) running_pool
    = Some (note (Errors P0) (Got None) (set_pc 0 (Run_body []) running_pool)).
Proof.
  apply (X12_send_meets_receive empty_world 1 P0 (one_pool 1)
           [CallRun P0 [None]; CallWait P0; Go 0] running_pool 0 None []).
  - exists []. reflexivity.
  - reflexivity.
  - vm_compute. reflexivity.
  - reflexivity.
  - reflexivity.
  - reflexivity.
Defined.

(** ** When a unit gets its permit *)

(** X13.  On a pool made by [New N], with the semaphore still open, a
    goroutine at its permit acquire can take its step exactly when fewer
    than [N] units are executing: then it gets the permit at once and one
    more unit is executing; when [N] units are executing its step is not
    possible.  No unit waits while a permit is free. *)
Theorem X13_permit_when_free (w : world) (N : Z) (p : Pool) (w1 : world)
    (tr : list event) (w2 : world) (i : nat) (fn : func) :
  reachable w → New N w = Returns p w1 → exec tr w1 = Some w2 →
  panicked w2 = false →
  at_pc w2 i p (Run_acquire fn) →
  closed <$> permit_state p w2 = Some false →
  ((Z.of_nat (executing p w2) < N)%Z →
     ∃ w3, step (Go i) w2 = Some w3 ∧ at_pc w3 i p (Run_body fn)
       ∧ executing p w3 = S (executing p w2) ∧ panicked w3 = false)
  ∧ ((Z.of_nat (executing p w2) = N)%Z → step (Go i) w2 = None).
Proof.
  intros Hr HN Hex Hnp Hi Hopen.
  destruct (pool_facts _ _ _ _ _ _ Hr HN Hex)
    as (Hok & Hp & [_ (cs & Es & _ & Slen & _) _]).
  pose proof (New_returns _ _ _ _ HN) as (_ & _ & _ & _ & Hs1 & _).
  destruct (exec_cap_bool _ _ _ _ _ Hex Hs1) as (cs' & Es' & Hcap).
  rewrite Es in Es'. injection Es' as <-. simpl in Hcap.
  unfold permit_state in Hopen. rewrite Es in Hopen. simpl in Hopen.
  injection Hopen as Hopen. unfold executing. rewrite <- Slen.
  split.
  - intros Hlt. eexists. split; [|split_and!].
    + apply moves_step; [done|]. apply (m_acquire w2 i p fn cs); try done. lia.
    + apply (at_pc_set_pc_eq
               (put_bool (semaphore p) (Chan (cap cs) (buf cs ++ [true]) (closed cs)) w2)
               _ _ (Run_acquire fn)). exact Hi.
    + simpl. pose proof (tally_alter holds_permit p i _ _ _ (Run_body fn) Hi) as Ht.
      rewrite !counts_same in Ht. simpl in Ht. lia.
    + done.
  - intros Heq. eapply full_semaphore_blocks; try done. lia.
Qed.

Lemma X13_permit_when_free_witness :
  ((Z.of_nat (executing P0 submitted_pool) < 1)%Z →
     ∃ w3, step (Go 0) submitted_pool = Some w3 ∧ at_pc w3 0 P0 (Run_body [None])
       ∧ executing P0 w3 = S (executing P0 submitted_pool) ∧ panicked w3 = false)
  ∧ ((Z.of_nat (executing P0 submitted_pool) = 1)%Z → step (Go 0) submitted_pool = None).
Proof.
  apply (X13_permit_when_free empty_world 1 P0 (one_pool 1)
           [CallRun P0 [None]; CallWait P0] submitted_pool 0 [None]).
  - exists []. reflexivity.
  - reflexivity.
  - reflexivity.
  - reflexivity.
  - reflexivity.
  - reflexivity.
Defined.
